(** * Evaporative Cooling: the control loop of [EvaporativeCooling.cpp]

    A shallow embedding of the scoring, fusion and pruning logic of the
    Evaporative Cooling (EC) feature selection, and the properties of it that
    the specification states.

    Conventions of the embedding.

    - [unsigned int] is a [Z] in [0, 2^32); every subtraction the source
      performs on unsigned operands is written with its wrap-around
      ([uint (a - b)]).  Counters that only index a vector or count the lines
      read ([i], [lineNumber]) follow the list they walk and are modelled by
      recursion on it.
    - [double]: the scores that the object stores, compares, sorts and
      copies are modelled by the exact rationals [Q]: [==] on doubles is
      [Qeq_bool], [<] is [Qltb].  Where rounding decides the result, the
      arithmetic is binary64 itself (the primitive floats): the removal
      count of an iteration ([percentToRemove]), and the normalization of
      the scores, which is embedded a second time on doubles
      ([ReadRandomJungleScores64], [RunReliefF64]) and whose properties are
      stated there.  The one numeric example of the specification is
      evaluated in binary64 as well.
    - [std::sort] is modelled by a stable insertion sort.  The C++ function
      leaves the order of equivalent elements unspecified; what the proofs
      use of the sort is that its result is a sorted permutation.
    - An out-of-range [operator[]], a read of a member that was never
      assigned, and a [copy] past the end of a vector are undefined
      behaviour in C++: the model stops with [Undefined].
    - Of the output streams only [cerr] is kept, as the list of diagnostics
      written so far; progress lines on [cout] and timings are dropped. *)

From Stdlib Require Import List String Ascii Bool ZArith QArith Qround Lia Lqa.
From Stdlib Require Import Permutation Sorted Floats Uint63 DecimalString.
Import ListNotations.

Local Open Scope Z_scope.

(* ================================================================= *)
(** ** Machine integers *)

Definition UINT_RANGE : Z := 2 ^ 32.

(** Conversion to [unsigned int]. *)
Definition uint (z : Z) : Z := z mod UINT_RANGE.

Definition is_uint (z : Z) : Prop := 0 <= z < UINT_RANGE.

(* ================================================================= *)
(** ** Scores *)

Definition Qltb (x y : Q) : bool := negb (Qle_bool y x).

(** [pair<double, string>] and [EcScores = vector<pair<double, string> >]. *)
Definition ScorePair : Type := Q * string.
Definition EcScores : Type := list ScorePair.

Definition scoresSortAsc (p1 p2 : ScorePair) : bool :=
  Qltb (fst p1) (fst p2).

Definition scoresSortAscByName (p1 p2 : ScorePair) : bool :=
  String.ltb (snd p1) (snd p2).

Definition scoresSortDesc (p1 p2 : ScorePair) : bool :=
  Qltb (fst p2) (fst p1).

Definition names (l : EcScores) : list string := map snd l.

(* ================================================================= *)
(** ** [std::sort] *)

Section Sort.
Context {A : Type}.
Variable comp : A -> A -> bool.

(** [x] is placed before the first element that does not precede it. *)
Fixpoint insert_sorted (x : A) (l : list A) : list A :=
  match l with
  | [] => [x]
  | y :: l' => if comp y x then y :: insert_sorted x l' else x :: l
  end.

Definition sort (l : list A) : list A := fold_right insert_sorted [] l.

End Sort.

(** A list is in the order of [comp] when no element precedes an earlier one. *)
Definition ordered_by {A : Type} (comp : A -> A -> bool) : list A -> Prop :=
  StronglySorted (fun a b => comp b a = false).

(** What [std::sort] requires of its comparison, as far as the proofs use
    it: asymmetry, and transitivity of "does not precede". *)
Record strict_weak {A : Type} (comp : A -> A -> bool) : Prop := {
  sw_asym : forall a b, comp a b = true -> comp b a = false;
  sw_trans : forall a b c, comp b a = false -> comp c b = false -> comp c a = false
}.

(* ================================================================= *)
(** ** Outcomes and diagnostics *)

(** The outcome of a method of the model: a value, undefined behaviour of the
    C++ program, or a loop that was cut by the fuel of the model. *)
Inductive Result (A : Type) : Type :=
| Ret (a : A)
| Undefined
| OutOfFuel.

Arguments Ret {A} a.
Arguments Undefined {A}.
Arguments OutOfFuel {A}.

Definition bind {A B : Type} (r : Result A) (k : A -> Result B) : Result B :=
  match r with
  | Ret a => k a
  | Undefined => Undefined
  | OutOfFuel => OutOfFuel
  end.

Notation "' p <- r ;; k" := (bind r (fun p => k))
  (at level 61, p pattern, r at next level, right associativity).

(** The messages the source writes to [cerr], one constructor each. *)
Inductive Diagnostic : Type :=
| ERR_DATASET_NOT_INITIALIZED        (* "ERROR: dataset is not initialized." *)
| ERR_USE_EC_NUM_TARGET              (* "Use --ec-num-target to the number of best attributes desired." *)
| ERR_EC_NUM_TARGET_TOO_LARGE        (* "--ec-num-taget must be less than or equal to the number of attributes in the data set." *)
| ERR_EC_ALGORITHM_STEPS             (* "ec-algorithm-steps must be one of: all, rj or rf." *)
| ERR_FEWER_THAN_TARGET (numWorkingAttributes numTargetAttributes : Z)
                                     (* "ERROR: The number of attributes in the data set ... is less than the number of target attributes ..." *)
| ERR_RANDOM_JUNGLE_FAILED           (* "ERROR: In EC algorithm: Random Jungle failed." *)
| ERR_RELIEFF_FAILED                 (* "ERROR: In EC algorithm: ReliefF failed." *)
| ERR_COMPUTE_FREE_ENERGY_FAILED     (* "ERROR: In EC algorithm: ComputeFreeEnergy failed." *)
| ERR_REMOVE_WORST_ATTRIBUTE_FAILED  (* "ERROR: In EC algorithm: RemoveWorstAttribute failed." *)
| ERR_OPEN_IMPORTANCE_FILE           (* "ERROR: Could not open Random Jungle importance file: ..." *)
| ERR_PARSING_LINE (lineNumber columns : nat)
                                     (* "... error parsing line N. Read K columns. Should be 4." *)
| ERR_READ_RANDOM_JUNGLE_SCORES      (* "Could not read Random Jungle scores." *)
| WARN_RJ_MIN_MAX_SAME               (* "WARNING: Random Jungle min and max scores are the same." *)
| WARN_RF_MIN_MAX_SAME               (* "WARNING: Relief-F min and max scores are the same.No normalization necessary." *)
| ERR_SCORES_LISTS_UNEQUAL (rjSize rfSize : nat)
                                     (* "EvaporativeCooling::ComputeFreeEnergy scores lists are unequal. RJ: ... vs. RF: ..." *)
| ERR_ALGORITHM_TYPE                 (* "ERROR: EvaporativeCooling::ComputeFreeEnergy: could not determine EC algorithm type." *)
| WARN_REMOVE_ADJUSTING (numToRemove numTargetAttributes : Z)
                                     (* "WARNING: attempt to remove N attributes which will remove more than target number of attributes T. Adjusting." *)
.

(* ================================================================= *)
(** ** Collaborators *)

(** [EcAlgorithmType]; [EC_UNDETERMINED] stands for any value other than the
    three enumerators: the constructor assigns the member only when
    [--ec-algorithm-steps] is given. *)
Inductive EcAlgorithmType : Type :=
| EC_ALL
| EC_RJ
| EC_RF
| EC_UNDETERMINED.

(** The Random Jungle importance file as [ReadRandomJungleScores] sees it:
    [None] when it cannot be opened, else its lines, header first, each line
    as the tokens [split(tokens, line, " ")] yields. *)
Definition ImportanceFile : Type := option (list (list string)).

(** The code this file calls and that lives outside it: the dataset
    ([Dataset.h]), the two ranking engines (Random Jungle, Relief-F),
    [to_upper] ([StringUtils.h]) and [strtod].  [D] is the dataset, [E] the
    state the engines carry from one run to the next (random generators,
    files).  An engine run reads the dataset and leaves it as it is. *)
Class Collaborators (D E : Type) : Type := {
  NumAttributes : D -> Z;
  MaskRemoveAttribute : string -> D -> bool * D;
  (** the Random Jungle run of [RunRandomJungle] and the importance file it
      leaves behind *)
  rjungle_run : E -> D -> E * ImportanceFile;
  (** [reliefF->ComputeAttributeScores...()] followed by [GetScores()] *)
  relieff_run : E -> D -> E * EcScores;
  strtod : string -> Q;
  to_upper : string -> string
}.

(** The options of the [variables_map] that the modelled code reads. *)
Record variables_map : Type := {
  ec_num_target : Z;
  ec_algorithm_steps : option string;
  ec_iter_remove_n : option Z;
  ec_iter_remove_percent : option Z
}.

(* ================================================================= *)
(** ** The [EvaporativeCooling] object *)

Section Model.
Context {D E : Type} `{Collaborators D E}.

Record EvaporativeCooling : Type := {
  dataset : D;
  engines : E;
  paramsMap : variables_map;
  numTargetAttributes : Z;
  algorithmType : EcAlgorithmType;
  (** [None]: never assigned (neither removal option was given) *)
  numToRemovePerIteration : option Z;
  rjScores : EcScores;
  rfScores : EcScores;
  freeEnergyScores : EcScores;
  evaporatedAttributes : EcScores;
  ecScores : EcScores;
  cerr : list Diagnostic
}.

Definition set_dataset (d : D) (ec : EvaporativeCooling) : EvaporativeCooling :=
  {| dataset := d; engines := engines ec; paramsMap := paramsMap ec;
     numTargetAttributes := numTargetAttributes ec;
     algorithmType := algorithmType ec;
     numToRemovePerIteration := numToRemovePerIteration ec;
     rjScores := rjScores ec; rfScores := rfScores ec;
     freeEnergyScores := freeEnergyScores ec;
     evaporatedAttributes := evaporatedAttributes ec;
     ecScores := ecScores ec; cerr := cerr ec |}.

Definition set_engines (e : E) (ec : EvaporativeCooling) : EvaporativeCooling :=
  {| dataset := dataset ec; engines := e; paramsMap := paramsMap ec;
     numTargetAttributes := numTargetAttributes ec;
     algorithmType := algorithmType ec;
     numToRemovePerIteration := numToRemovePerIteration ec;
     rjScores := rjScores ec; rfScores := rfScores ec;
     freeEnergyScores := freeEnergyScores ec;
     evaporatedAttributes := evaporatedAttributes ec;
     ecScores := ecScores ec; cerr := cerr ec |}.

Definition set_rjScores (s : EcScores) (ec : EvaporativeCooling) : EvaporativeCooling :=
  {| dataset := dataset ec; engines := engines ec; paramsMap := paramsMap ec;
     numTargetAttributes := numTargetAttributes ec;
     algorithmType := algorithmType ec;
     numToRemovePerIteration := numToRemovePerIteration ec;
     rjScores := s; rfScores := rfScores ec;
     freeEnergyScores := freeEnergyScores ec;
     evaporatedAttributes := evaporatedAttributes ec;
     ecScores := ecScores ec; cerr := cerr ec |}.

Definition set_rfScores (s : EcScores) (ec : EvaporativeCooling) : EvaporativeCooling :=
  {| dataset := dataset ec; engines := engines ec; paramsMap := paramsMap ec;
     numTargetAttributes := numTargetAttributes ec;
     algorithmType := algorithmType ec;
     numToRemovePerIteration := numToRemovePerIteration ec;
     rjScores := rjScores ec; rfScores := s;
     freeEnergyScores := freeEnergyScores ec;
     evaporatedAttributes := evaporatedAttributes ec;
     ecScores := ecScores ec; cerr := cerr ec |}.

Definition set_freeEnergyScores (s : EcScores) (ec : EvaporativeCooling) : EvaporativeCooling :=
  {| dataset := dataset ec; engines := engines ec; paramsMap := paramsMap ec;
     numTargetAttributes := numTargetAttributes ec;
     algorithmType := algorithmType ec;
     numToRemovePerIteration := numToRemovePerIteration ec;
     rjScores := rjScores ec; rfScores := rfScores ec;
     freeEnergyScores := s;
     evaporatedAttributes := evaporatedAttributes ec;
     ecScores := ecScores ec; cerr := cerr ec |}.

Definition set_evaporatedAttributes (s : EcScores) (ec : EvaporativeCooling) : EvaporativeCooling :=
  {| dataset := dataset ec; engines := engines ec; paramsMap := paramsMap ec;
     numTargetAttributes := numTargetAttributes ec;
     algorithmType := algorithmType ec;
     numToRemovePerIteration := numToRemovePerIteration ec;
     rjScores := rjScores ec; rfScores := rfScores ec;
     freeEnergyScores := freeEnergyScores ec;
     evaporatedAttributes := s;
     ecScores := ecScores ec; cerr := cerr ec |}.

Definition set_ecScores (s : EcScores) (ec : EvaporativeCooling) : EvaporativeCooling :=
  {| dataset := dataset ec; engines := engines ec; paramsMap := paramsMap ec;
     numTargetAttributes := numTargetAttributes ec;
     algorithmType := algorithmType ec;
     numToRemovePerIteration := numToRemovePerIteration ec;
     rjScores := rjScores ec; rfScores := rfScores ec;
     freeEnergyScores := freeEnergyScores ec;
     evaporatedAttributes := evaporatedAttributes ec;
     ecScores := s; cerr := cerr ec |}.

(** [cerr << msg]. *)
Definition report (msg : Diagnostic) (ec : EvaporativeCooling) : EvaporativeCooling :=
  {| dataset := dataset ec; engines := engines ec; paramsMap := paramsMap ec;
     numTargetAttributes := numTargetAttributes ec;
     algorithmType := algorithmType ec;
     numToRemovePerIteration := numToRemovePerIteration ec;
     rjScores := rjScores ec; rfScores := rfScores ec;
     freeEnergyScores := freeEnergyScores ec;
     evaporatedAttributes := evaporatedAttributes ec;
     ecScores := ecScores ec; cerr := cerr ec ++ [msg] |}.

(* ================================================================= *)
(** ** Constructor *)

Inductive Constructed : Type :=
| Exit (code : Z) (msg : Diagnostic)   (* [exit(code)] after the message *)
| Object (ec : EvaporativeCooling).

(** [(int) (((double) iterPercentToRemove / 100.0) * n)], stored in an
    [unsigned int].  The quotient and the product are binary64 operations,
    and the conversion to [int] truncates: 58 percent of 50 is 28, because
    [58.0 / 100.0] rounds below 0.58.  The operands are 32-bit integers, so
    their conversion to [double] is exact.  (A product beyond the range of
    [int] is undefined in the source; it takes more than [2^31]
    attributes.)  The percentage is an [unsigned int] in the loop and an
    [int] in the constructor, where an option above [2^31 - 1] reads as a
    negative number ([to_int]). *)
Definition to_int (z : Z) : Z := if z <? 2 ^ 31 then z else z - UINT_RANGE.

Definition double_of_int (z : Z) : float :=
  if z <? 0 then (- PrimFloat.of_uint63 (Uint63.of_Z (- z)))%float
  else PrimFloat.of_uint63 (Uint63.of_Z z).

Definition int_of_double (x : float) : Z :=
  match Prim2SF x with
  | S754_finite s m e =>
      let magnitude := if 0 <=? e then Z.pos m * 2 ^ e else Z.pos m / 2 ^ (- e) in
      if s then - magnitude else magnitude
  | _ => 0
  end.

Definition percentToRemove (iterPercentToRemove n : Z) : Z :=
  uint (int_of_double
          ((double_of_int iterPercentToRemove / 100) * double_of_int n)%float).

Definition parseAlgorithmSteps (steps : option string) : option EcAlgorithmType :=
  match steps with
  | None => Some EC_UNDETERMINED
  | Some s =>
      let ecAlgParam := to_upper s in
      if String.eqb ecAlgParam "ALL" then Some EC_ALL
      else if String.eqb ecAlgParam "RJ" then Some EC_RJ
      else if String.eqb ecAlgParam "RF" then Some EC_RF
      else None
  end.

(** [InitializeRandomJungle] returns [true] on every path and the Relief-F
    object is only allocated, so the constructor has no exit after the
    option checks; the thread and Relief-F removal options do not reach the
    modelled code. *)
Definition EvaporativeCooling_constructor
    (ds : option D) (vm : variables_map) (e : E) : Constructed :=
  match ds with
  | None => Exit (-1) ERR_DATASET_NOT_INITIALIZED
  | Some ds =>
      if ec_num_target vm <? 1 then Exit (-1) ERR_USE_EC_NUM_TARGET
      else if ec_num_target vm >? uint (NumAttributes ds)
      then Exit (-1) ERR_EC_NUM_TARGET_TOO_LARGE
      else
        match parseAlgorithmSteps (ec_algorithm_steps vm) with
        | None => Exit 1 ERR_EC_ALGORITHM_STEPS
        | Some alg =>
            Object
              {| dataset := ds; engines := e; paramsMap := vm;
                 numTargetAttributes := ec_num_target vm;
                 algorithmType := alg;
                 numToRemovePerIteration :=
                   match ec_iter_remove_percent vm with
                   | Some iterPercentToRemove =>
                       Some (percentToRemove (to_int iterPercentToRemove)
                                             (uint (NumAttributes ds)))
                   | None => ec_iter_remove_n vm
                   end;
                 rjScores := []; rfScores := []; freeEnergyScores := [];
                 evaporatedAttributes := []; ecScores := []; cerr := [] |}
        end
  end.

(* ================================================================= *)
(** ** Random Jungle scores and their normalization *)

(** The reading loop of [ReadRandomJungleScores]: [inl] the scores read with
    their minimum and maximum, [inr] the line that does not have 4 columns
    (with the scores pushed before it). *)
Fixpoint readImportanceLines (lines : list (list string)) (lineNumber : nat)
    (minRJScore maxRJScore : Q) (scores : EcScores)
    : (EcScores * Q * Q) + (nat * nat * EcScores) :=
  match lines with
  | [] => inl (scores, minRJScore, maxRJScore)
  | tokens :: rest =>
      let lineNumber := S lineNumber in
      match tokens with
      | [_; _; val; keyVal] =>
          let key := strtod keyVal in
          let scores := scores ++ [(key, val)] in
          if Nat.eqb lineNumber 1
          then readImportanceLines rest lineNumber key key scores
          else if Qltb key minRJScore
          then readImportanceLines rest lineNumber key maxRJScore scores
          else if Qltb maxRJScore key
          then readImportanceLines rest lineNumber minRJScore key scores
          else readImportanceLines rest lineNumber minRJScore maxRJScore scores
      | _ => inr (lineNumber, List.length tokens, scores)
      end
  end.

(** The second loop of [ReadRandomJungleScores] (lines 786-806), on the
    rationals of the object: which entries are rescaled, and between what.
    The quotient as the machine rounds it is that of [normalizeRJScores64]. *)
Definition normalizeRJScores (minRJScore maxRJScore : Q) (scores : EcScores)
    : EcScores :=
  let needsNormalization := negb (Qeq_bool minRJScore maxRJScore) in
  let rjRange := (maxRJScore - minRJScore)%Q in
  map (fun thisScore : ScorePair =>
         let key := fst thisScore in
         let val := snd thisScore in
         if needsNormalization
         then (((key - minRJScore) / rjRange)%Q, val)
         else (key, val))
      scores.

Definition ReadRandomJungleScores (importance : ImportanceFile)
    (ec : EvaporativeCooling) : bool * EvaporativeCooling :=
  match importance with
  | None => (false, report ERR_OPEN_IMPORTANCE_FILE ec)
  | Some lines =>
      (* the first [getline] strips the header line *)
      match readImportanceLines (tl lines) 0 0%Q 0%Q [] with
      | inr (lineNumber, columns, scores) =>
          (false, report (ERR_PARSING_LINE lineNumber columns)
                         (set_rjScores scores ec))
      | inl (scores, minRJScore, maxRJScore) =>
          let ec := set_rjScores scores ec in
          let ec := if Qeq_bool minRJScore maxRJScore
                    then report WARN_RJ_MIN_MAX_SAME ec else ec in
          (true, set_rjScores (normalizeRJScores minRJScore maxRJScore scores) ec)
      end
  end.

(** The data frame is loaded from the dataset and handed to Random Jungle;
    what the method leaves in the object is what [ReadRandomJungleScores]
    makes of the importance file. *)
Definition RunRandomJungle (ec : EvaporativeCooling) : bool * EvaporativeCooling :=
  let '(e, importance) := rjungle_run (engines ec) (dataset ec) in
  let '(ok, ec) := ReadRandomJungleScores importance (set_engines e ec) in
  if ok then (true, ec)
  else (false, report ERR_READ_RANDOM_JUNGLE_SCORES ec).

(* ================================================================= *)
(** ** Relief-F scores and their normalization *)

(** The first loop of [RunReliefF]: minimum and maximum, seeded with the
    first score. *)
Definition minMaxRFScores (firstScore : ScorePair) (scores : EcScores) : Q * Q :=
  fold_left
    (fun (mm : Q * Q) (thisScore : ScorePair) =>
       let '(minRFScore, maxRFScore) := mm in
       (if Qltb (fst thisScore) minRFScore then fst thisScore else minRFScore,
        if Qltb maxRFScore (fst thisScore) then fst thisScore else maxRFScore))
    scores (fst firstScore, fst firstScore).

(** [RunReliefF], on the rationals of the object; the quotient as the
    machine rounds it is that of [RunReliefF64]. *)
Definition RunReliefF (ec : EvaporativeCooling) : Result (bool * EvaporativeCooling) :=
  let '(e, scores) := relieff_run (engines ec) (dataset ec) in
  let ec := set_rfScores scores (set_engines e ec) in
  match scores with
  | [] => Undefined                      (* [rfScores[0]] of an empty vector *)
  | firstScore :: _ =>
      let '(minRFScore, maxRFScore) := minMaxRFScores firstScore scores in
      if Qeq_bool minRFScore maxRFScore
      then Ret (true, report WARN_RF_MIN_MAX_SAME ec)
      else
        let rfRange := (maxRFScore - minRFScore)%Q in
        Ret (true,
             set_rfScores
               (map (fun thisScore : ScorePair =>
                       let key := fst thisScore in
                       let val := snd thisScore in
                       (((key - minRFScore) / rfRange)%Q, val))
                    scores)
               ec)
  end.

(* ================================================================= *)
(** ** Free energy *)

(** The [EC_ALL] loop: the two iterators advance together over the
    name-sorted lists (of equal size, by the check before it). *)
Fixpoint fuse (temperature : Q) (rj rf : EcScores) : EcScores :=
  match rj, rf with
  | rjIt :: rj', rfIt :: rf' =>
      let val := snd rjIt in
      let key := fst rjIt in
      ((fst rfIt + temperature * key)%Q, val) :: fuse temperature rj' rf'
  | _, _ => []
  end.

Definition ComputeFreeEnergy (temperature : Q) (ec : EvaporativeCooling)
    : bool * EvaporativeCooling :=
  match algorithmType ec with
  | EC_ALL =>
      if negb (Nat.eqb (List.length (rjScores ec)) (List.length (rfScores ec)))
      then (false, report (ERR_SCORES_LISTS_UNEQUAL (List.length (rjScores ec))
                                                     (List.length (rfScores ec))) ec)
      else
        let rj := sort scoresSortAscByName (rjScores ec) in
        let rf := sort scoresSortAscByName (rfScores ec) in
        (true, set_freeEnergyScores (fuse temperature rj rf)
                 (set_rfScores rf (set_rjScores rj ec)))
  | EC_RJ =>
      (true, set_freeEnergyScores
               (map (fun rjIt : ScorePair => (fst rjIt, snd rjIt)) (rjScores ec)) ec)
  | EC_RF =>
      (true, set_freeEnergyScores
               (map (fun rfIt : ScorePair => (fst rfIt, snd rfIt)) (rfScores ec)) ec)
  | EC_UNDETERMINED =>
      (false, report ERR_ALGORITHM_TYPE (set_freeEnergyScores [] ec))
  end.

(* ================================================================= *)
(** ** Pruning *)

(** The loop of [RemoveWorstAttributes] from index [i] on, [count] rounds to
    go; [None] when [freeEnergyScores[i]] is out of range. *)
Fixpoint removeWorstLoop (count i : nat) (scores evaporated : EcScores) (ds : D)
    : option (EcScores * D) :=
  match count with
  | O => Some (evaporated, ds)
  | S count' =>
      match nth_error scores i with
      | None => None
      | Some worst =>
          removeWorstLoop count' (S i) scores (evaporated ++ [worst])
                          (snd (MaskRemoveAttribute (snd worst) ds))
      end
  end.

Definition RemoveWorstAttributes (numToRemove : Z) (ec : EvaporativeCooling)
    : Result (bool * EvaporativeCooling) :=
  let numAttr := uint (NumAttributes (dataset ec)) in
  let adjusting := uint (numAttr - numToRemove) <? numTargetAttributes ec in
  let numToRemoveAdj :=
    if adjusting then uint (numAttr - numTargetAttributes ec) else numToRemove in
  let ec :=
    if adjusting
    then report (WARN_REMOVE_ADJUSTING numToRemove (numTargetAttributes ec)) ec
    else ec in
  let ec := set_freeEnergyScores (sort scoresSortAsc (freeEnergyScores ec)) ec in
  match removeWorstLoop (Z.to_nat numToRemoveAdj) 0 (freeEnergyScores ec)
                        (evaporatedAttributes ec) (dataset ec) with
  | None => Undefined
  | Some (evaporated, ds) =>
      Ret (true, set_dataset ds (set_evaporatedAttributes evaporated ec))
  end.

(* ================================================================= *)
(** ** The EC loop *)

Definition usesRandomJungle (a : EcAlgorithmType) : bool :=
  match a with EC_ALL | EC_RJ => true | _ => false end.

Definition usesReliefF (a : EcAlgorithmType) : bool :=
  match a with EC_ALL | EC_RF => true | _ => false end.

(** How one pass through the body of the [while] loop ends. *)
Inductive LoopStep : Type :=
| Continue (numWorkingAttributes : Z) (ec : EvaporativeCooling)
| Break (ec : EvaporativeCooling)
| ReturnFalse (ec : EvaporativeCooling).

(** The removal count of the round, before [RemoveWorstAttributes] is
    called (lines 280-289). *)
Definition clampToTarget (numWorkingAttributes numToRemove numTargetAttributes : Z) : Z :=
  if uint (numWorkingAttributes - numToRemove) <? numTargetAttributes
  then uint (numWorkingAttributes - numTargetAttributes)
  else numToRemove.

Definition ECIteration (numWorkingAttributes : Z) (ec : EvaporativeCooling)
    : Result LoopStep :=
  let '(ok, ec) :=
    if usesRandomJungle (algorithmType ec) then RunRandomJungle ec else (true, ec) in
  if negb ok then Ret (ReturnFalse (report ERR_RANDOM_JUNGLE_FAILED ec)) else
  ' (ok, ec) <-
    (if usesReliefF (algorithmType ec) then RunReliefF ec else Ret (true, ec)) ;;
  if negb ok then Ret (ReturnFalse (report ERR_RELIEFF_FAILED ec)) else
  let temperature := 1%Q in
  let '(ok, ec) := ComputeFreeEnergy temperature ec in
  if negb ok then Ret (ReturnFalse (report ERR_COMPUTE_FREE_ENERGY_FAILED ec)) else
  match numToRemovePerIteration ec with
  | None => Undefined
  | Some numToRemove =>
      let numToRemove :=
        match ec_iter_remove_percent (paramsMap ec) with
        | Some iterPercentToRemove =>
            percentToRemove iterPercentToRemove (uint (NumAttributes (dataset ec)))
        | None => numToRemove
        end in
      let numToRemove :=
        clampToTarget numWorkingAttributes numToRemove (numTargetAttributes ec) in
      if numToRemove <? 1 then Ret (Break ec) else
      ' (ok, ec) <- RemoveWorstAttributes numToRemove ec ;;
      if negb ok then Ret (ReturnFalse (report ERR_REMOVE_WORST_ATTRIBUTE_FAILED ec))
      else Ret (Continue (uint (numWorkingAttributes - numToRemove)) ec)
  end.

(** How the [while] loop is left. *)
Inductive LoopExit : Type :=
| LoopDone (numWorkingAttributes : Z) (ec : EvaporativeCooling)
| LoopFalse (ec : EvaporativeCooling).

Fixpoint ECLoop (fuel : nat) (numWorkingAttributes : Z) (ec : EvaporativeCooling)
    : Result LoopExit :=
  match fuel with
  | O =>
      if numWorkingAttributes >? numTargetAttributes ec
      then OutOfFuel
      else Ret (LoopDone numWorkingAttributes ec)
  | S fuel' =>
      if numWorkingAttributes >? numTargetAttributes ec
      then
        ' step <- ECIteration numWorkingAttributes ec ;;
        match step with
        | Continue numWorkingAttributes' ec' => ECLoop fuel' numWorkingAttributes' ec'
        | Break ec' => Ret (LoopDone numWorkingAttributes ec')
        | ReturnFalse ec' => Ret (LoopFalse ec')
        end
      else Ret (LoopDone numWorkingAttributes ec)
  end.

(** Lines 311-315: sort, [resize], [copy]. *)
Definition collectECScores (ec : EvaporativeCooling) : Result (bool * EvaporativeCooling) :=
  let ec := set_freeEnergyScores (sort scoresSortDesc (freeEnergyScores ec)) ec in
  if numTargetAttributes ec <=? Z.of_nat (List.length (freeEnergyScores ec))
  then Ret (true, set_ecScores
                    (firstn (Z.to_nat (numTargetAttributes ec)) (freeEnergyScores ec))
                    ec)
  else Undefined.

Definition ComputeECScores (fuel : nat) (ec : EvaporativeCooling)
    : Result (bool * EvaporativeCooling) :=
  let numWorkingAttributes := uint (NumAttributes (dataset ec)) in
  if numWorkingAttributes <=? numTargetAttributes ec
  then Ret (false, report (ERR_FEWER_THAN_TARGET numWorkingAttributes
                                                 (numTargetAttributes ec)) ec)
  else
    ' out <- ECLoop fuel numWorkingAttributes ec ;;
    match out with
    | LoopFalse ec => Ret (false, ec)
    | LoopDone _ ec => collectECScores ec
    end.

End Model.

Arguments EvaporativeCooling D E : clear implicits.
Arguments Constructed D E : clear implicits.
Arguments LoopStep D E : clear implicits.
Arguments LoopExit D E : clear implicits.

(* ================================================================= *)
(** * Reading the model *)

(** What the properties below speak of: the effect of the pruning loop, the
    scores an importance file holds, minimum and maximum of a score list,
    and what a step of the loop leaves alone. *)

Section Readings.
Context {D E : Type} `{Collaborators D E}.

(** The dataset after [MaskRemoveAttribute] was called with the name of each
    entry of [worst], in order, the answers dropped. *)
Definition maskRemoveAll (worst : EcScores) (ds : D) : D :=
  fold_left (fun d (w : ScorePair) => snd (MaskRemoveAttribute (snd w) d)) worst ds.

(** The count [RemoveWorstAttributes] loops over. *)
Definition numToRemoveAdj (numToRemove : Z) (ec : EvaporativeCooling D E) : Z :=
  let numAttr := uint (NumAttributes (dataset ec)) in
  if uint (numAttr - numToRemove) <? numTargetAttributes ec
  then uint (numAttr - numTargetAttributes ec)
  else numToRemove.

(** The removal count a round asks for before it is clamped: recomputed from
    the percentage when that option is given, else the fixed count. *)
Definition requestedRemoval (ec : EvaporativeCooling D E) (perIteration : Z) : Z :=
  match ec_iter_remove_percent (paramsMap ec) with
  | Some iterPercentToRemove =>
      percentToRemove iterPercentToRemove (uint (NumAttributes (dataset ec)))
  | None => perIteration
  end.

(** The score and name [ReadRandomJungleScores] takes from a line of four
    tokens, and from the lines after the header. *)
Definition scoreOfLine (tokens : list string) : ScorePair :=
  (strtod (nth 3 tokens EmptyString), nth 2 tokens EmptyString).

Definition parsedScores (rows : list (list string)) : EcScores :=
  map scoreOfLine rows.

Definition fourColumns (rows : list (list string)) : Prop :=
  Forall (fun tokens : list string => List.length tokens = 4%nat) rows.

(** The object a loop exit carries. *)
Definition exitObject (out : LoopExit D E) : EvaporativeCooling D E :=
  match out with
  | LoopDone _ ec => ec
  | LoopFalse ec => ec
  end.

(** The object a run of the model ends in ([ec] itself when it does not
    return). *)
Definition objectAfter (r : Result (bool * EvaporativeCooling D E))
    (ec : EvaporativeCooling D E) : EvaporativeCooling D E :=
  match r with
  | Ret (_, ec') => ec'
  | _ => ec
  end.

(** Whether a run of the model returned [true]. *)
Definition returnsTrue (r : Result (bool * EvaporativeCooling D E)) : bool :=
  match r with
  | Ret (true, _) => true
  | _ => false
  end.

(** The object after [RunRandomJungle], and after [RunReliefF] when it
    returns. *)
Definition afterRunRandomJungle (ec : EvaporativeCooling D E) : EvaporativeCooling D E :=
  snd (RunRandomJungle ec).

Definition afterRunReliefF (ec : EvaporativeCooling D E) : EvaporativeCooling D E :=
  match RunReliefF ec with
  | Ret (_, ec') => ec'
  | _ => ec
  end.

(** From [ec] to [ec'] the configuration and the EC scores are the same, and
    what was added to [cerr] does not include the message of the failure
    branch after pruning. *)
Definition carries_on (ec ec' : EvaporativeCooling D E) : Prop :=
  numTargetAttributes ec' = numTargetAttributes ec
  /\ algorithmType ec' = algorithmType ec
  /\ paramsMap ec' = paramsMap ec
  /\ numToRemovePerIteration ec' = numToRemovePerIteration ec
  /\ ecScores ec' = ecScores ec
  /\ exists msgs,
      cerr ec' = cerr ec ++ msgs
      /\ ~ In ERR_REMOVE_WORST_ATTRIBUTE_FAILED msgs.

(** From [ec] to [ec'] neither the dataset nor the fused, evaporated and EC
    score lists changed. *)
Definition scores_untouched (ec ec' : EvaporativeCooling D E) : Prop :=
  dataset ec' = dataset ec
  /\ freeEnergyScores ec' = freeEnergyScores ec
  /\ evaporatedAttributes ec' = evaporatedAttributes ec
  /\ ecScores ec' = ecScores ec.

End Readings.

(** [m] is the least (greatest) score of the list. *)
Definition is_min_of (m : Q) (l : EcScores) : Prop :=
  (exists p, In p l /\ fst p = m) /\ forall p, In p l -> (m <= fst p)%Q.

Definition is_max_of (m : Q) (l : EcScores) : Prop :=
  (exists p, In p l /\ fst p = m) /\ forall p, In p l -> (fst p <= m)%Q.

(** The minimum of the list equals its maximum: all scores are equal. *)
Definition degenerate (l : EcScores) : Prop :=
  forall p q, In p l -> In q l -> (fst p == fst q)%Q.





(* ================================================================= *)
(** * A dataset and engines to run the model on *)

(** Modelled from the spec: the dataset collaborator ([Dataset.h] and its
    implementation are not part of this file).  "WorkingAttributeSet: the
    mutable subset of the dataset's attributes still under consideration
    ... driven by the Controller via a mask/remove operation keyed by
    attribute name", with "removeAttribute(name) -> success|notFound".  The
    dataset is the list of the names still in the mask. *)
Definition MaskDataset : Type := list string.

Definition mask_NumAttributes (ds : MaskDataset) : Z := Z.of_nat (List.length ds).

Definition mask_MaskRemoveAttribute (attributeName : string) (ds : MaskDataset)
    : bool * MaskDataset :=
  if existsb (String.eqb attributeName) ds
  then (true, filter (fun a => negb (String.eqb attributeName a)) ds)
  else (false, ds).

(** Deterministic engines: the [n]-th engine run on dataset [ds] produces
    what the two functions say.  The state counts the runs. *)
Record FakeEngines : Type := {
  runs : nat;
  importanceOf : nat -> MaskDataset -> ImportanceFile;
  reliefFScoresOf : nat -> MaskDataset -> EcScores
}.

Definition fake_rjungle_run (e : FakeEngines) (ds : MaskDataset)
    : FakeEngines * ImportanceFile :=
  ({| runs := S (runs e); importanceOf := importanceOf e;
      reliefFScoresOf := reliefFScoresOf e |},
   importanceOf e (runs e) ds).

Definition fake_relieff_run (e : FakeEngines) (ds : MaskDataset)
    : FakeEngines * EcScores :=
  ({| runs := S (runs e); importanceOf := importanceOf e;
      reliefFScoresOf := reliefFScoresOf e |},
   reliefFScoresOf e (runs e) ds).

Definition ascii_to_upper (c : ascii) : ascii :=
  let n := nat_of_ascii c in
  if andb (Nat.leb 97 n) (Nat.leb n 122) then ascii_of_nat (n - 32) else c.

Fixpoint ascii_string_to_upper (s : string) : string :=
  match s with
  | EmptyString => EmptyString
  | String c s' => String (ascii_to_upper c) (ascii_string_to_upper s')
  end.

Definition digit_of_ascii (c : ascii) : option Z :=
  let n := nat_of_ascii c in
  if andb (Nat.leb 48 n) (Nat.leb n 57) then Some (Z.of_nat (n - 48)) else None.

(** [strtod] on a plain decimal numeral ([12], [0.25], [-3.5]): the digits
    up to the first character that cannot continue the number. *)
Fixpoint decimal_digits (s : string) (seenPoint : bool) (num : Z) (den : positive) : Q :=
  match s with
  | EmptyString => num # den
  | String c s' =>
      match digit_of_ascii c with
      | Some d =>
          decimal_digits s' seenPoint (10 * num + d)
                         (if seenPoint then (10 * den)%positive else den)
      | None =>
          if andb (Ascii.eqb c ".") (negb seenPoint)
          then decimal_digits s' true num den
          else num # den
      end
  end.

Definition decimal_strtod (s : string) : Q :=
  match s with
  | String "-" s' => (- decimal_digits s' false 0 1)%Q
  | _ => decimal_digits s false 0 1
  end.

#[export] Instance MaskCollaborators : Collaborators MaskDataset FakeEngines := {
  NumAttributes := mask_NumAttributes;
  MaskRemoveAttribute := mask_MaskRemoveAttribute;
  rjungle_run := fake_rjungle_run;
  relieff_run := fake_relieff_run;
  strtod := decimal_strtod;
  to_upper := ascii_string_to_upper
}.

(** An importance file with one line per score, in the four-column layout
    [ReadRandomJungleScores] expects (name in column 3, score in column 4). *)
Definition importanceLines (header : list string) (rows : list (string * string))
    : ImportanceFile :=
  Some (header :: map (fun r => ["0"; "0"; fst r; snd r]%string) rows).

Definition importanceHeader : list string :=
  ["iteration"; "id"; "varname"; "importance"]%string.

Definition noEngines : FakeEngines :=
  {| runs := 0; importanceOf := fun _ _ => None; reliefFScoresOf := fun _ _ => [] |}.

(** Engines that produce the same importance file and the same Relief-F
    scores at every run. *)
Definition constantEngines (importance : ImportanceFile) (rf : EcScores) : FakeEngines :=
  {| runs := 0; importanceOf := fun _ _ => importance;
     reliefFScoresOf := fun _ _ => rf |}.

Definition inMask (ds : MaskDataset) (attributeName : string) : bool :=
  existsb (String.eqb attributeName) ds.

(** Engines that score the attributes still in the mask from two tables:
    the main-effect importance as the text of the importance file, the
    interaction score as a number. *)
Definition maskedEngines (rjTable : list (string * string)) (rfTable : EcScores)
    : FakeEngines :=
  {| runs := 0;
     importanceOf := fun _ ds =>
       importanceLines importanceHeader (filter (fun r => inMask ds (fst r)) rjTable);
     reliefFScoresOf := fun _ ds => filter (fun p => inMask ds (snd p)) rfTable |}.

(** An object as the constructor leaves it, with the score lists given. *)
Definition objectWith (ds : MaskDataset) (e : FakeEngines) (target : Z)
    (alg : EcAlgorithmType) (perIteration : option Z)
    (rj rf fe : EcScores) : EvaporativeCooling MaskDataset FakeEngines :=
  {| dataset := ds; engines := e;
     paramsMap := {| ec_num_target := target; ec_algorithm_steps := None;
                     ec_iter_remove_n := perIteration;
                     ec_iter_remove_percent := None |};
     numTargetAttributes := target; algorithmType := alg;
     numToRemovePerIteration := perIteration;
     rjScores := rj; rfScores := rf; freeEnergyScores := fe;
     evaporatedAttributes := []; ecScores := []; cerr := [] |}.

(* ================================================================= *)
(** * Inputs of the examples *)

(** Fusion: [A = [(0.2,"x"),(0.8,"y")]], [B = [(0.5,"x"),(0.1,"y")]]. *)
Definition mainEffectA : EcScores := [(0.2%Q, "x"%string); (0.8%Q, "y"%string)].
Definition interactionB : EcScores := [(0.5%Q, "x"%string); (0.1%Q, "y"%string)].

Definition fusionExample : EvaporativeCooling MaskDataset FakeEngines :=
  objectWith ["x"; "y"]%string noEngines 1 EC_ALL None mainEffectA interactionB [].


(** A dataset of two attributes and options that ask for two of them. *)
Definition twoAttributes : MaskDataset := ["a"; "b"]%string.

Definition targetEqualsCount : variables_map :=
  {| ec_num_target := 2; ec_algorithm_steps := Some "all"%string;
     ec_iter_remove_n := Some 1; ec_iter_remove_percent := None |}.

(** A dataset of ten attributes with a fused score each; the target is 7. *)
Definition tenAttributes : MaskDataset :=
  ["a0"; "a1"; "a2"; "a3"; "a4"; "a5"; "a6"; "a7"; "a8"; "a9"]%string.

Definition tenFusedScores : EcScores :=
  [(0.9%Q, "a0"%string); (0.3%Q, "a1"%string); (1.2%Q, "a2"%string);
   (0.1%Q, "a3"%string); (1.7%Q, "a4"%string); (0.6%Q, "a5"%string);
   (0.2%Q, "a6"%string); (1.1%Q, "a7"%string); (0.8%Q, "a8"%string);
   (1.5%Q, "a9"%string)].

Definition pruningExample : EvaporativeCooling MaskDataset FakeEngines :=
  objectWith tenAttributes noEngines 7 EC_ALL (Some 5) [] [] tenFusedScores.

Definition threeAttributes : MaskDataset := ["a"; "b"; "c"]%string.

(** All scores equal, from both engines. *)
Definition flatRows : list (list string) :=
  [["0"; "0"; "a"; "0.5"]; ["0"; "1"; "b"; "0.50"]; ["0"; "2"; "c"; "0.5"]]%string.

Definition flatScores : EcScores :=
  [(0.5%Q, "a"%string); (0.5%Q, "b"%string); (0.5%Q, "c"%string)].

Definition flatExample : EvaporativeCooling MaskDataset FakeEngines :=
  objectWith threeAttributes
             (constantEngines (Some (importanceHeader :: flatRows)) flatScores)
             1 EC_ALL (Some 1) [] [] [].

(** Five main-effect scores against four interaction scores. *)
Definition fiveAttributes : MaskDataset := ["a"; "b"; "c"; "d"; "e"]%string.

Definition fiveRows : list (list string) :=
  [["0"; "0"; "a"; "1"]; ["0"; "1"; "b"; "5"]; ["0"; "2"; "c"; "3"];
   ["0"; "3"; "d"; "2"]; ["0"; "4"; "e"; "4"]]%string.

Definition fourScores : EcScores :=
  [(0.4%Q, "a"%string); (0.1%Q, "b"%string); (0.3%Q, "c"%string);
   (0.2%Q, "d"%string)].

Definition mismatchExample : EvaporativeCooling MaskDataset FakeEngines :=
  objectWith fiveAttributes
             (constantEngines (Some (importanceHeader :: fiveRows)) fourScores)
             2 EC_ALL (Some 1) [] [] [].

(** The end-to-end run of the specification: 20 attributes, target 5, three
    removed per iteration, both engines. *)
Definition twentyAttributes : MaskDataset :=
  ["v01"; "v02"; "v03"; "v04"; "v05"; "v06"; "v07"; "v08"; "v09"; "v10";
   "v11"; "v12"; "v13"; "v14"; "v15"; "v16"; "v17"; "v18"; "v19"; "v20"]%string.

Definition twentyImportances : list (string * string) :=
  [("v01", "18"); ("v02", "16"); ("v03", "12"); ("v04", "19"); ("v05", "8");
   ("v06", "7"); ("v07", "20"); ("v08", "4"); ("v09", "15"); ("v10", "1");
   ("v11", "10"); ("v12", "6"); ("v13", "17"); ("v14", "9"); ("v15", "14");
   ("v16", "3"); ("v17", "2"); ("v18", "13"); ("v19", "5"); ("v20", "11")]%string.

Definition twentyInteractions : EcScores :=
  [((-1.37)%Q, "v01"%string); (0.97%Q, "v02"%string); (3.79%Q,
   "v03"%string); ((-1.13)%Q, "v04"%string); ((-0.44)%Q, "v05"%string);
   (2.39%Q, "v06"%string); (4.63%Q, "v07"%string); (2.04%Q, "v08"%string);
   (0.78%Q, "v09"%string); (4.83%Q, "v10"%string); ((-1.67)%Q,
   "v11"%string); (4.01%Q, "v12"%string); (0.03%Q, "v13"%string);
   ((-0.99)%Q, "v14"%string); ((-1.18)%Q, "v15"%string); (0.16%Q,
   "v16"%string); (3.71%Q, "v17"%string); ((-0.73)%Q, "v18"%string);
   (2.07%Q, "v19"%string); (2.47%Q, "v20"%string)].

Definition endToEndExample : EvaporativeCooling MaskDataset FakeEngines :=
  objectWith twentyAttributes (maskedEngines twentyImportances twentyInteractions)
             5 EC_ALL (Some 3) [] [] [].

(** Fused scores for names the dataset does not hold: every call of
    [MaskRemoveAttribute] answers [false]. *)
Definition strangersExample : EvaporativeCooling MaskDataset FakeEngines :=
  objectWith threeAttributes noEngines 1 EC_ALL (Some 2) [] []
             [(0.3%Q, "x"%string); (0.1%Q, "y"%string); (0.2%Q, "z"%string)].

(** Six attributes and four numeric covariates, target 1, four removed per
    iteration, Random Jungle only.  Random Jungle is run on the variables of
    the dataset ([NumVariables()]: attributes and numerics), so its
    importance file scores the attributes still in the mask and the four
    numerics; [MaskRemoveAttribute] knows the attributes only. *)
Definition sixAttributes : MaskDataset := ["a"; "b"; "c"; "d"; "e"; "f"]%string.

Definition overshootAttributes : list (string * string) :=
  [("a", "1"); ("b", "2"); ("c", "3"); ("d", "4"); ("e", "5"); ("f", "6")]%string.

Definition overshootNumerics : list (string * string) :=
  [("age", "7"); ("bmi", "9"); ("dose", "8"); ("temp", "10")]%string.

Definition overshootEngines (n : nat) : FakeEngines :=
  {| runs := n;
     importanceOf := fun _ ds =>
       importanceLines importanceHeader
         (filter (fun r => inMask ds (fst r)) overshootAttributes ++ overshootNumerics);
     reliefFScoresOf := fun _ _ => [] |}.

Definition overshootExample : EvaporativeCooling MaskDataset FakeEngines :=
  objectWith sixAttributes (overshootEngines 0) 1 EC_RJ (Some 4) [] [] [].

(** The object of that run at the head of the loop, after [n] engine runs,
    with the attributes [ds] left in the mask. *)
Definition overshootObject (ds : MaskDataset) (n : nat) (evaporated rj fe : EcScores)
    : EvaporativeCooling MaskDataset FakeEngines :=
  set_evaporatedAttributes evaporated
    (objectWith ds (overshootEngines n) 1 EC_RJ (Some 4) rj [] fe).

(** The normalized scores of the first iteration (ten variables), of the
    second (two attributes and the numerics) and of every later one (the
    numerics), as read and as sorted by [RemoveWorstAttributes]. *)
Definition overshootFirstScores : EcScores :=
  Eval vm_compute in rjScores (afterRunRandomJungle overshootExample).

Definition overshootFirstSorted : EcScores :=
  Eval vm_compute in sort scoresSortAsc overshootFirstScores.

Definition overshootSecondScores : EcScores :=
  Eval vm_compute in
    rjScores (afterRunRandomJungle (overshootObject ["e"; "f"]%string 1 [] [] [])).

Definition overshootSecondSorted : EcScores :=
  Eval vm_compute in sort scoresSortAsc overshootSecondScores.

Definition overshootScores : EcScores :=
  Eval vm_compute in rjScores (afterRunRandomJungle (overshootObject [] 2 [] [] [])).

Definition overshootSorted : EcScores :=
  Eval vm_compute in sort scoresSortAsc overshootScores.

(** The object after the first iteration, and after the second. *)
Definition overshootSecond : EvaporativeCooling MaskDataset FakeEngines :=
  overshootObject ["e"; "f"]%string 1 (firstn 4 overshootFirstSorted)
                  overshootFirstScores overshootFirstSorted.

Definition overshootThird : EvaporativeCooling MaskDataset FakeEngines :=
  overshootObject [] 2 (firstn 4 overshootFirstSorted ++ firstn 4 overshootSecondSorted)
                  overshootSecondScores overshootSecondSorted.

(* ================================================================= *)
(** * File names: [FilesystemUtils.cpp] *)

(** [size_t] is a [Z] in [0, 2^64); [string::npos] is its largest value.
    The additions and subtractions of the source on [size_t] operands are
    written with their wrap-around. *)
Definition SIZE_RANGE : Z := 2 ^ 64.

Definition npos : Z := SIZE_RANGE - 1.

Definition size_t (z : Z) : Z := z mod SIZE_RANGE.

(** [s.size()]. *)
Definition size (s : string) : Z := Z.of_nat (String.length s).

(** A string a [std::string] can hold: its size is a [size_t]. *)
Definition fits_size_t (s : string) : Prop := size s < SIZE_RANGE.

Fixpoint string_take (n : nat) (s : string) : string :=
  match n, s with
  | S n', String c s' => String c (string_take n' s')
  | _, _ => EmptyString
  end.

Fixpoint string_drop (n : nat) (s : string) : string :=
  match n, s with
  | S n', String _ s' => string_drop n' s'
  | _, _ => s
  end.

(** The index of the first [c] in [s]. *)
Fixpoint find_first (c : ascii) (s : string) : option nat :=
  match s with
  | EmptyString => None
  | String a s' =>
      if Ascii.eqb a c then Some O else option_map S (find_first c s')
  end.

(** [s.find(c)]: the index of the first [c], [npos] when there is none. *)
Definition find (s : string) (c : ascii) : Z :=
  match find_first c s with
  | Some i => Z.of_nat i
  | None => npos
  end.

(** [s.substr(pos, count)]: [None] stands for the [std::out_of_range] it
    throws when [pos > size()]; else the characters from [pos] on, [count]
    of them or as many as there are. *)
Definition substr (s : string) (pos count : Z) : option string :=
  if pos >? size s then None
  else Some (string_take (Z.to_nat (Z.min count (size s - pos)))
                         (string_drop (Z.to_nat pos) s)).

Definition GetFileBasename (fileName : string) : option string :=
  let pos := find fileName "."%char in
  substr fileName 0 pos.

Definition GetFileExtension (fileName : string) : option string :=
  let pos := find fileName "."%char in
  substr fileName (size_t (pos + 1)) (size_t (size fileName - 1)).

(** [c] occurs in [s]. *)
Definition occurs (c : ascii) (s : string) : Prop :=
  In c (list_ascii_of_string s).

(** Two lines of an importance file; the examples put a line of three
    columns after them. *)
Definition truncatedRows : list (list string) :=
  [["0"; "0"; "a"; "2"]; ["0"; "1"; "b"; "4"]]%string.


(* ================================================================= *)
(** * Paths through a round, and its messages *)

Section Paths.
Context {D E : Type} `{Collaborators D E}.

(** The scoring stages of a round: each engine is run in the modes that use
    it. *)
Definition mainEffectsStage (ec : EvaporativeCooling D E)
    : bool * EvaporativeCooling D E :=
  if usesRandomJungle (algorithmType ec) then RunRandomJungle ec else (true, ec).

Definition interactionsStage (ec : EvaporativeCooling D E)
    : Result (bool * EvaporativeCooling D E) :=
  if usesReliefF (algorithmType ec) then RunReliefF ec else Ret (true, ec).

(** The four ways through the body of the loop that end in a result. *)
Inductive iteration_path (w : Z) (ec : EvaporativeCooling D E) : LoopStep D E -> Prop :=
| path_main_effects_failed (ec1 : EvaporativeCooling D E) :
    mainEffectsStage ec = (false, ec1) ->
    iteration_path w ec (ReturnFalse (report ERR_RANDOM_JUNGLE_FAILED ec1))
| path_free_energy_failed (ec1 ec2 ec3 : EvaporativeCooling D E) :
    mainEffectsStage ec = (true, ec1) ->
    interactionsStage ec1 = Ret (true, ec2) ->
    ComputeFreeEnergy 1 ec2 = (false, ec3) ->
    iteration_path w ec (ReturnFalse (report ERR_COMPUTE_FREE_ENERGY_FAILED ec3))
| path_break (ec1 ec2 ec3 : EvaporativeCooling D E) (perIteration : Z) :
    mainEffectsStage ec = (true, ec1) ->
    interactionsStage ec1 = Ret (true, ec2) ->
    ComputeFreeEnergy 1 ec2 = (true, ec3) ->
    numToRemovePerIteration ec3 = Some perIteration ->
    clampToTarget w (requestedRemoval ec3 perIteration) (numTargetAttributes ec3) < 1 ->
    iteration_path w ec (Break ec3)
| path_prune (ec1 ec2 ec3 ec4 : EvaporativeCooling D E) (perIteration : Z) :
    mainEffectsStage ec = (true, ec1) ->
    interactionsStage ec1 = Ret (true, ec2) ->
    ComputeFreeEnergy 1 ec2 = (true, ec3) ->
    numToRemovePerIteration ec3 = Some perIteration ->
    1 <= clampToTarget w (requestedRemoval ec3 perIteration) (numTargetAttributes ec3) ->
    RemoveWorstAttributes
      (clampToTarget w (requestedRemoval ec3 perIteration) (numTargetAttributes ec3))
      ec3 = Ret (true, ec4) ->
    iteration_path w ec
      (Continue (uint (w - clampToTarget w (requestedRemoval ec3 perIteration)
                                         (numTargetAttributes ec3))) ec4).

(** The loop gets from the head of a round, with working count [w] and
    object [ec], to the head of a later round (or stays where it is): every
    round between them pruned and went on. *)
Inductive loop_reaches
    : Z -> EvaporativeCooling D E -> Z -> EvaporativeCooling D E -> Prop :=
| reaches_here (w : Z) (ec : EvaporativeCooling D E) : loop_reaches w ec w ec
| reaches_next (w w1 w' : Z) (ec ec1 ec' : EvaporativeCooling D E) :
    w > numTargetAttributes ec ->
    ECIteration w ec = Ret (Continue w1 ec1) ->
    loop_reaches w1 ec1 w' ec' ->
    loop_reaches w ec w' ec'.



End Paths.

(** The messages that are warnings: the run goes on after them. *)
Definition is_warning (msg : Diagnostic) : bool :=
  match msg with
  | WARN_RJ_MIN_MAX_SAME | WARN_RF_MIN_MAX_SAME | WARN_REMOVE_ADJUSTING _ _ => true
  | _ => false
  end.

(** The messages a failing run ends with. *)
Inductive failure_report : list Diagnostic -> Prop :=
| report_fewer_than_target (w t : Z) :
    failure_report [ERR_FEWER_THAN_TARGET w t]
| report_importance_file :
    failure_report [ERR_OPEN_IMPORTANCE_FILE; ERR_READ_RANDOM_JUNGLE_SCORES;
                    ERR_RANDOM_JUNGLE_FAILED]
| report_importance_line (lineNumber columns : nat) :
    failure_report [ERR_PARSING_LINE lineNumber columns; ERR_READ_RANDOM_JUNGLE_SCORES;
                    ERR_RANDOM_JUNGLE_FAILED]
| report_unequal_lists (rjSize rfSize : nat) :
    failure_report [ERR_SCORES_LISTS_UNEQUAL rjSize rfSize;
                    ERR_COMPUTE_FREE_ENERGY_FAILED]
| report_algorithm_type :
    failure_report [ERR_ALGORITHM_TYPE; ERR_COMPUTE_FREE_ENERGY_FAILED].

(** From [ec] to [ec'] only warnings were written to [cerr]. *)
Definition warns {D E : Type} (ec ec' : EvaporativeCooling D E) : Prop :=
  exists warnings,
    cerr ec' = cerr ec ++ warnings /\ forallb is_warning warnings = true.

(** From [ec] to [ec'] warnings were written to [cerr], and then the
    messages of a failure. *)
Definition fails_with_report {D E : Type} (ec ec' : EvaporativeCooling D E) : Prop :=
  exists warnings errors,
    cerr ec' = cerr ec ++ warnings ++ errors
    /\ forallb is_warning warnings = true
    /\ failure_report errors.

(** Ten attributes, target 2, Relief-F only, 5 percent removed per
    iteration: 5 percent of 10 is less than one attribute. *)
Definition smallPercentOptions : variables_map :=
  {| ec_num_target := 2; ec_algorithm_steps := Some "rf"%string;
     ec_iter_remove_n := None; ec_iter_remove_percent := Some 5 |}.

Definition stalledExample : EvaporativeCooling MaskDataset FakeEngines :=
  match EvaporativeCooling_constructor (Some tenAttributes) smallPercentOptions
          (constantEngines None tenFusedScores) with
  | Object ec => ec
  | Exit _ _ => pruningExample
  end.

(* ================================================================= *)
(** * Reporting: the score tables and the results file *)

(** The methods that report on the scores write to [cout], to [cerr] and
    to a results file, and two of them sort the score lists of the object in
    place.  What they write is returned beside the object: the lines of
    data (not the captions), and the messages to [cerr]. *)

Inductive ReportDiagnostic : Type :=
| ERR_LISTS_NOT_SAME_SIZE
    (* "Random Jungle and Relief-F scores lists are not the same size." *)
| ERR_ANALYSIS_TYPE_UNDETERMINED
    (* "Attempting to write attribute scores before the analysis type was
       determined." *)
| ERR_OPEN_SCORES_FILE (resultsFilename : string).
    (* "Could not open scores file <name>for writing." *)

Record Reported (O A : Type) : Type := {
  returned : bool;
  object : O;
  toCerr : list ReportDiagnostic;
  toCout : A
}.

Arguments returned {O A} r.
Arguments object {O A} r.
Arguments toCerr {O A} r.
Arguments toCout {O A} r.

(** A line of the table: the entries [printf] is given, in its order
    (Relief-F, Random Jungle, free energy). *)
Definition TableRow : Type := ScorePair * ScorePair * ScorePair.

(** The loop of [PrintAllScoresTabular] from index [i] on, [count] rounds to
    go; [None] when an index is out of range. *)
Fixpoint tableRows (count i : nat) (rj rf fe : EcScores) : option (list TableRow) :=
  match count with
  | O => Some []
  | S count' =>
      match nth_error rj i, nth_error rf i, nth_error fe i with
      | Some thisRJScores, Some thisRFScores, Some thisFEScores =>
          option_map (cons (thisRFScores, thisRJScores, thisFEScores))
                     (tableRows count' (S i) rj rf fe)
      | _, _, _ => None
      end
  end.


(** An output file stream: whether a file is open, the two error bits, and
    the lines the file holds.  [open] sets [failbit] when the file cannot be
    opened, and [bad()] reads [badbit]; insertion does nothing on a stream
    with an error bit. *)
Record ofstream : Type := {
  is_open : bool;
  failbit : bool;
  badbit : bool;
  lines : list string
}.

Definition ofstream_open (opens : bool) : ofstream :=
  if opens
  then {| is_open := true; failbit := false; badbit := false; lines := [] |}
  else {| is_open := false; failbit := true; badbit := false; lines := [] |}.

Definition bad (outFile : ofstream) : bool := badbit outFile.

Definition ofstream_line (line : string) (outFile : ofstream) : ofstream :=
  if failbit outFile || badbit outFile then outFile
  else {| is_open := is_open outFile; failbit := failbit outFile;
          badbit := badbit outFile; lines := lines outFile ++ [line] |}.

Definition tab : string := String "009"%char EmptyString.

(** How [WriteAttributeScores] ends: [exit(code)] after a message, or a
    return, with what it wrote to [cerr] and the file it left (its name and
    lines), if it opened one. *)
Inductive Written : Type :=
| WriteExit (code : Z) (msg : ReportDiagnostic)
| WriteReturn (msgs : list ReportDiagnostic) (file : option (string * list string)).

Definition resultsSuffix (algorithmType : EcAlgorithmType) : option string :=
  match algorithmType with
  | EC_ALL => Some ".ec"%string
  | EC_RJ => Some ".ec.rj"%string
  | EC_RF => Some ".ec.rf"%string
  | EC_UNDETERMINED => None
  end.

Section Reporting.
Context {D E : Type}.

(** [KendallTau] of the statistics library, the text of a [double] written
    with [fixed << setprecision(8)], and whether a file of that name can be
    opened for writing. *)
Variable KendallTau : list string -> list string -> Q.
Variable fixed8 : Q -> string.
Variable opens : string -> bool.

Definition sortAllScoresDesc (ec : EvaporativeCooling D E) : EvaporativeCooling D E :=
  let ec := set_rjScores (sort scoresSortDesc (rjScores ec)) ec in
  let ec := set_rfScores (sort scoresSortDesc (rfScores ec)) ec in
  set_freeEnergyScores (sort scoresSortDesc (freeEnergyScores ec)) ec.

Definition PrintAllScoresTabular (ec : EvaporativeCooling D E)
    : Result (Reported (EvaporativeCooling D E) (list TableRow)) :=
  if negb (Nat.eqb (List.length (rjScores ec)) (List.length (rfScores ec)))
  then Ret {| returned := false; object := ec;
              toCerr := [ERR_LISTS_NOT_SAME_SIZE]; toCout := [] |}
  else if negb (Nat.eqb (List.length (freeEnergyScores ec)) (List.length (rfScores ec)))
  then Ret {| returned := false; object := ec;
              toCerr := [ERR_LISTS_NOT_SAME_SIZE]; toCout := [] |}
  else
    let ec := sortAllScoresDesc ec in
    let numScores := uint (Z.of_nat (List.length (freeEnergyScores ec))) in
    match tableRows (Z.to_nat numScores) 0
                    (rjScores ec) (rfScores ec) (freeEnergyScores ec) with
    | None => Undefined
    | Some rows =>
        Ret {| returned := true; object := ec; toCerr := []; toCout := rows |}
    end.


Definition PrintAttributeScores (outFile : ofstream) (ec : EvaporativeCooling D E)
    : ofstream :=
  fold_left
    (fun (outFile : ofstream) (ecScoresIt : ScorePair) =>
       ofstream_line (fixed8 (fst ecScoresIt) ++ tab ++ snd ecScoresIt) outFile)
    (ecScores ec) outFile.

Definition WriteAttributeScores (baseFilename : string) (ec : EvaporativeCooling D E)
    : Written :=
  match resultsSuffix (algorithmType ec) with
  | None => WriteReturn [ERR_ANALYSIS_TYPE_UNDETERMINED] None
  | Some suffix =>
      let resultsFilename := (baseFilename ++ suffix)%string in
      let outFile := ofstream_open (opens resultsFilename) in
      if bad outFile then WriteExit 1 (ERR_OPEN_SCORES_FILE resultsFilename)
      else
        let outFile := PrintAttributeScores outFile ec in
        WriteReturn []
          (if is_open outFile then Some (resultsFilename, lines outFile) else None)
  end.

End Reporting.

(** The line of the results file for an entry. *)
Definition scoreLine (fixed8 : Q -> string) (p : ScorePair) : string :=
  (fixed8 (fst p) ++ tab ++ snd p)%string.

(** Two attributes with their scores from both engines and the fused
    scores, as an iteration leaves them. *)
Definition rankingExample : EvaporativeCooling MaskDataset FakeEngines :=
  objectWith ["x"; "y"]%string noEngines 1 EC_ALL None mainEffectA interactionB
             [(0.7%Q, "x"%string); (0.9%Q, "y"%string)].

(** The same object with its two EC scores, best first. *)
Definition writtenExample : EvaporativeCooling MaskDataset FakeEngines :=
  set_ecScores [(0.9%Q, "y"%string); (0.7%Q, "x"%string)] rankingExample.


Definition decimal (z : Z) : string := NilZero.string_of_uint (N.to_uint (Z.to_N z)).

Definition eightDecimals (score : Q) : string :=
  let scaled :=
    Qfloor ((if Qltb score 0 then - score else score) * 100000000 + (1 # 2))%Q in
  ((if Qltb score 0 then "-" else "")
   ++ decimal (scaled / 100000000) ++ "."
   ++ string_drop 1 (decimal (100000000 + scaled mod 100000000)))%string.

Definition everyFileOpens (fileName : string) : bool := true.

(** Three attributes, Random Jungle only, and no importance file. *)
Definition unreadableExample : EvaporativeCooling MaskDataset FakeEngines :=
  objectWith threeAttributes noEngines 1 EC_RJ (Some 1) [] [] [].

(* ================================================================= *)
(** * Normalization in binary64 *)

(** The arithmetic of the two normalizations on [double], as the machine
    performs it: [<] and [==] are the comparisons of IEEE 754 binary64,
    [-] and [/] round to nearest.  The score lists are those that
    [ReadRandomJungleScores] has parsed and that the Relief-F engine has
    returned. *)
Definition ScorePair64 : Type := float * string.

Definition EcScores64 : Type := list ScorePair64.

Definition names64 (l : EcScores64) : list string := map snd l.

(** Lines 769-780: minimum and maximum as the reading loop of
    [ReadRandomJungleScores] tracks them, line by line. *)
Fixpoint minMaxRJScores64 (scores : EcScores64) (lineNumber : nat)
    (minRJScore maxRJScore : float) : float * float :=
  match scores with
  | [] => (minRJScore, maxRJScore)
  | thisScore :: rest =>
      let lineNumber := S lineNumber in
      let key := fst thisScore in
      if Nat.eqb lineNumber 1
      then minMaxRJScores64 rest lineNumber key key
      else if (key <? minRJScore)%float
      then minMaxRJScores64 rest lineNumber key maxRJScore
      else if (maxRJScore <? key)%float
      then minMaxRJScores64 rest lineNumber minRJScore key
      else minMaxRJScores64 rest lineNumber minRJScore maxRJScore
  end.

(** Lines 786-806. *)
Definition normalizeRJScores64 (minRJScore maxRJScore : float) (scores : EcScores64)
    : EcScores64 :=
  let needsNormalization := negb (minRJScore =? maxRJScore)%float in
  let rjRange := (maxRJScore - minRJScore)%float in
  map (fun thisScore : ScorePair64 =>
         let key := fst thisScore in
         let val := snd thisScore in
         if needsNormalization
         then (((key - minRJScore) / rjRange)%float, val)
         else (key, val))
      scores.

(** What [ReadRandomJungleScores] leaves in [rjScores] for a file whose
    lines hold these scores. *)
Definition ReadRandomJungleScores64 (scores : EcScores64) : EcScores64 :=
  let '(minRJScore, maxRJScore) := minMaxRJScores64 scores 0 0%float 0%float in
  normalizeRJScores64 minRJScore maxRJScore scores.

(** Lines 853-865. *)
Definition minMaxRFScores64 (firstScore : ScorePair64) (scores : EcScores64)
    : float * float :=
  fold_left
    (fun (mm : float * float) (thisScore : ScorePair64) =>
       let '(minRFScore, maxRFScore) := mm in
       (if (fst thisScore <? minRFScore)%float then fst thisScore else minRFScore,
        if (maxRFScore <? fst thisScore)%float then fst thisScore else maxRFScore))
    scores (fst firstScore, fst firstScore).

(** Lines 853-884: what [RunReliefF] leaves in [rfScores] when the engine
    gives these scores. *)
Definition RunReliefF64 (scores : EcScores64) : Result EcScores64 :=
  match scores with
  | [] => Undefined                      (* [rfScores[0]] of an empty vector *)
  | firstScore :: _ =>
      let '(minRFScore, maxRFScore) := minMaxRFScores64 firstScore scores in
      if (minRFScore =? maxRFScore)%float
      then Ret scores
      else
        let rfRange := (maxRFScore - minRFScore)%float in
        Ret (map (fun thisScore : ScorePair64 =>
                    let key := fst thisScore in
                    let val := snd thisScore in
                    (((key - minRFScore) / rfRange)%float, val))
                 scores)
  end.

(** [m] is a score of the list and no score of the list is less (greater)
    than [m], by the comparison of doubles. *)
Definition least64 (m : float) (l : EcScores64) : Prop :=
  (exists p, In p l /\ fst p = m) /\ forall p, In p l -> (fst p <? m)%float = false.

Definition greatest64 (m : float) (l : EcScores64) : Prop :=
  (exists p, In p l /\ fst p = m) /\ forall p, In p l -> (m <? fst p)%float = false.

(** The rescaling, in binary64: the difference is rounded, then the
    quotient. *)
Definition rescale64 (mn mx : float) (p : ScorePair64) : ScorePair64 :=
  (((fst p - mn) / (mx - mn))%float, snd p).

(** What the specification says of a normalized list [out] of [scores], in
    the comparisons of doubles: the order of any two entries is the same;
    an attribute holds the maximum (the minimum) of the one list exactly
    when it holds that of the other; every score is in [0,1]. *)
Definition keeps_order64 (scores out : EcScores64) : Prop :=
  forall (i j : nat) (p q r s : ScorePair64),
    nth_error scores i = Some p -> nth_error scores j = Some q ->
    nth_error out i = Some r -> nth_error out j = Some s ->
    ((fst p <? fst q)%float = true <-> (fst r <? fst s)%float = true).

Definition argmax64 (a : string) (l : EcScores64) : Prop :=
  exists s : float, In (s, a) l /\ forall q, In q l -> (s <? fst q)%float = false.

Definition argmin64 (a : string) (l : EcScores64) : Prop :=
  exists s : float, In (s, a) l /\ forall q, In q l -> (fst q <? s)%float = false.

Definition keeps_argmax64 (scores out : EcScores64) : Prop :=
  forall a : string, argmax64 a scores <-> argmax64 a out.

Definition keeps_argmin64 (scores out : EcScores64) : Prop :=
  forall a : string, argmin64 a scores <-> argmin64 a out.

Definition in_unit_interval64 (out : EcScores64) : Prop :=
  forall r, In r out -> (0 <=? fst r)%float = true /\ (fst r <=? 1)%float = true.

(** Scores between -1 and 1 of which two are closer to each other than the
    doubles around 1 are; with a score one step below the maximum; with a
    score far below the range; and with a range beyond the largest double. *)
#[warnings="-inexact-float"] Definition closeScores64 : EcScores64 :=
  [((-1)%float, "a"%string); (1e-17%float, "b"%string); (2e-17%float, "c"%string);
   (1%float, "d"%string)].

Definition belowMaximum64 : EcScores64 :=
  [((-1)%float, "a"%string); (0x1.fffffffffffffp-1%float, "b"%string);
   (1%float, "c"%string)].

#[warnings="-inexact-float"] Definition aboveMinimum64 : EcScores64 :=
  [(0%float, "a"%string); (1e-30%float, "b"%string); (1e300%float, "c"%string)].

#[warnings="-inexact-float"] Definition wideScores64 : EcScores64 :=
  [((-1.5e308)%float, "a"%string); (1.5e308%float, "b"%string)].

(* ================================================================= *)
(** * Rounding to nearest, ties to even *)

(** The operations on [double] are specified by [SFsub] and [SFdiv] on
    [spec_float]: the exact result, rounded by [binary_round_aux].  What
    follows names the steps of that rounding, on non-negative integers. *)

(** Where the rational [N / D] lies between [N / D] and its successor. *)
Definition loc_of (N D : Z) : location :=
  if N mod D =? 0 then loc_Exact else loc_Inexact (2 * (N mod D) ?= D).

(** The integer nearest to the rational [N / D], the even one of two. *)
Definition RNE (N D : Z) : Z :=
  match 2 * (N mod D) ?= D with
  | Lt => N / D
  | Eq => if Z.even (N / D) then N / D else N / D + 1
  | Gt => N / D + 1
  end.

(** [m] and the two bits of [mrs] are the quotient [N / D] and its place. *)
Definition located (N D : Z) (mrs : shr_record) : Prop :=
  shr_m mrs = N / D /\ loc_of_shr_record mrs = loc_of N D.

(** The value [N / D * 2 ^ a] is given finely enough for [binary_round_aux]
    to round it: the canonical exponent of the quotient is not below [a]. *)
Definition fine (prec emax N D a : Z) : Prop :=
  0 <= N /\ 0 < D /\ a <= fexp prec emax (Zdigits2 (N / D) + a).

(** The float of mantissa [m] at exponent [e]. *)
Definition SF_of (prec emax : Z) (sx : bool) (m e : Z) : spec_float :=
  match m with
  | Z0 => S754_zero sx
  | Zpos p => if e <=? emax - prec then S754_finite sx p e else S754_infinity sx
  | Zneg _ => S754_nan
  end.

(** The second half of [binary_round_aux]: the rounded mantissa is shifted
    once more if it has grown a digit. *)
Definition round_finish (prec emax : Z) (sx : bool) (m e : Z) : spec_float :=
  let '(mrs, e') := shr_fexp prec emax m e loc_Exact in
  SF_of prec emax sx (shr_m mrs) e'.

(** A rounded mantissa that has reached [2 ^ prec] is [2 ^ (prec - 1)] at
    the next exponent. *)
Definition normal_form (prec m c : Z) : Z * Z :=
  if m =? 2 ^ prec then (2 ^ (prec - 1), c + 1) else (m, c).

(** What [binary_round_aux] makes of [N / D * 2 ^ a]: the nearest multiple
    of [2 ^ c], [c] the canonical exponent. *)
Definition round_to (prec emax : Z) (sx : bool) (N D a : Z) : spec_float :=
  let c := fexp prec emax (Zdigits2 (N / D) + a) in
  round_finish prec emax sx (RNE N (D * 2 ^ (c - a))) c.

(** A mantissa of at most [prec] digits at its canonical exponent. *)
Definition canon (prec emax m e : Z) : Prop :=
  0 <= m < 2 ^ prec /\ SpecFloat.emin prec emax <= e
  /\ (e = SpecFloat.emin prec emax \/ 2 ^ (prec - 1) <= m).

(** [m1 * 2 ^ e1 <= m2 * 2 ^ e2], on integers. *)
Definition vle (m1 e1 m2 e2 : Z) : Prop :=
  m1 * 2 ^ (e1 - Z.min e1 e2) <= m2 * 2 ^ (e2 - Z.min e1 e2).

(** A float that is a number: a zero or a finite float. *)
Definition finite_SF (f : spec_float) : bool :=
  match f with
  | S754_zero _ | S754_finite _ _ _ => true
  | _ => false
  end.

(** The exponent of a finite float; a zero is exact at every exponent. *)
Definition expo (emax : Z) (f : spec_float) : Z :=
  match f with
  | S754_finite _ _ e => e
  | _ => emax
  end.

(** The value of a number in units of [2 ^ k], for [k] not above its
    exponent. *)
Definition scaled (k : Z) (f : spec_float) : Z :=
  match f with
  | S754_finite s m e => cond_Zopp s (Zpos m) * 2 ^ (e - k)
  | _ => 0
  end.

(** A float that is not negative and not NaN. *)
Definition nonneg_SF (f : spec_float) : bool :=
  match f with
  | S754_zero _ | S754_finite false _ _ | S754_infinity false => true
  | _ => false
  end.

(** The float 1. *)
Definition one_SF (prec : Z) : spec_float :=
  S754_finite false (Z.to_pos (2 ^ (prec - 1))) (1 - prec).

(** A double that is a number: not an infinity, not NaN. *)
Definition finite64 (x : float) : bool := finite_SF (Prim2SF x).

(** The order of two entries by score is not reversed: it is kept or
    becomes a tie. *)
Definition keeps_order_weakly64 (scores out : EcScores64) : Prop :=
  forall (i j : nat) (p q r s : ScorePair64),
    nth_error scores i = Some p -> nth_error scores j = Some q ->
    nth_error out i = Some r -> nth_error out j = Some s ->
    (fst p <=? fst q)%float = true -> (fst r <=? fst s)%float = true.

(** The entries that held the minimum or the maximum are normalized to 0
    and to 1. *)
Definition ends_at_zero_and_one64 (mn mx : float) (scores out : EcScores64) : Prop :=
  forall (i : nat) (p r : ScorePair64),
    nth_error scores i = Some p -> nth_error out i = Some r ->
    ((fst p =? mn)%float = true -> (fst r =? 0)%float = true)
    /\ ((fst p =? mx)%float = true -> (fst r =? 1)%float = true).

(* ================================================================= *)
(** * Properties *)

(** ** Arithmetic of [unsigned int] and of scores *)

Lemma uint_range (z : Z) : is_uint (uint z).
Proof. unfold is_uint, uint, UINT_RANGE. apply Z.mod_pos_bound. lia. Qed.

Lemma uint_small (z : Z) : is_uint z -> uint z = z.
Proof. unfold is_uint, uint. intros Hz. apply Z.mod_small. exact Hz. Qed.

Lemma uint_sub_borrow (a b : Z) :
  is_uint a -> is_uint b -> a < b -> uint (a - b) = a - b + UINT_RANGE.
Proof.
  unfold is_uint, uint, UINT_RANGE. intros Ha Hb Hlt.
  symmetry. apply Z.mod_unique with (q := -1); lia.
Qed.

Lemma Qltb_lt (x y : Q) : Qltb x y = true <-> (x < y)%Q.
Proof.
  unfold Qltb. rewrite negb_true_iff. split.
  - intros Hb. apply Qnot_le_lt. intros Hle.
    apply Qle_bool_iff in Hle. congruence.
  - intros Hlt. destruct (Qle_bool y x) eqn:Hb; [|reflexivity].
    apply Qle_bool_iff in Hb. exfalso. apply (Qlt_not_le _ _ Hlt Hb).
Qed.

Lemma Qltb_ge (x y : Q) : Qltb x y = false <-> (y <= x)%Q.
Proof.
  unfold Qltb. rewrite negb_false_iff. apply Qle_bool_iff.
Qed.




Lemma scoresSortAsc_strict_weak : strict_weak scoresSortAsc.
Proof.
  unfold scoresSortAsc. split.
  - intros a b Hab. apply Qltb_ge. apply Qltb_lt in Hab. apply Qlt_le_weak, Hab.
  - intros a b c Hba Hcb. apply Qltb_ge. apply Qltb_ge in Hba, Hcb.
    eapply Qle_trans; eassumption.
Qed.




(** The removal count of a percentage, in the arithmetic of the source: 58
    percent of 50 attributes is 28 and not 29, because [58.0 / 100.0] is
    below 0.58; 5 percent of 10 is 0; 100 percent of 20 is 20. *)
Example percent_of_attributes_truncates :
  percentToRemove 58 50 = 28 /\ percentToRemove 5 10 = 0 /\ percentToRemove 100 20 = 20.
Proof. repeat split; vm_compute; reflexivity. Qed.

(** ** [std::sort]: a sorted permutation *)

Section SortFacts.
Context {A : Type}.
Variable comp : A -> A -> bool.

Lemma insert_sorted_perm (x : A) (l : list A) :
  Permutation (x :: l) (insert_sorted comp x l).
Proof.
  induction l as [|y l IH]; simpl; [reflexivity|].
  destruct (comp y x); [|reflexivity].
  rewrite perm_swap. apply perm_skip, IH.
Qed.

Lemma sort_perm (l : list A) : Permutation l (sort comp l).
Proof.
  induction l as [|x l IH]; simpl; [constructor|].
  rewrite <- insert_sorted_perm. apply perm_skip, IH.
Qed.

Lemma sort_length (l : list A) : List.length (sort comp l) = List.length l.
Proof. symmetry. apply Permutation_length, sort_perm. Qed.


Hypothesis comp_ok : strict_weak comp.

Lemma insert_sorted_ordered (x : A) (l : list A) :
  ordered_by comp l -> ordered_by comp (insert_sorted comp x l).
Proof.
  unfold ordered_by.
  induction l as [|y l IH]; simpl; intros Hl.
  - repeat constructor.
  - inversion Hl as [|? ? Hl' Hy]; subst.
    destruct (comp y x) eqn:Hyx.
    + constructor; [apply IH, Hl'|].
      eapply Permutation_Forall; [apply insert_sorted_perm|].
      constructor; [|exact Hy].
      apply (sw_asym comp comp_ok), Hyx.
    + constructor; [exact Hl|].
      constructor; [exact Hyx|].
      eapply Forall_impl; [|exact Hy].
      intros b Hb. simpl in Hb.
      exact (sw_trans comp comp_ok x y b Hyx Hb).
Qed.

Lemma sort_ordered (l : list A) : ordered_by comp (sort comp l).
Proof.
  induction l as [|x l IH]; simpl.
  - constructor.
  - apply insert_sorted_ordered, IH.
Qed.

End SortFacts.

Lemma In_firstn {A : Type} (x : A) (n : nat) (l : list A) :
  In x (firstn n l) -> In x l.
Proof.
  intros Hx. rewrite <- (firstn_skipn n l). apply in_or_app. left. exact Hx.
Qed.

Lemma ordered_by_firstn {A : Type} (comp : A -> A -> bool) (n : nat) (l : list A) :
  ordered_by comp l -> ordered_by comp (firstn n l).
Proof.
  unfold ordered_by. revert n.
  induction l as [|x l IH]; intros [|n] Hl; simpl; try constructor.
  - inversion Hl; subst. apply IH. assumption.
  - inversion Hl as [|? ? _ Hx]; subst.
    rewrite Forall_forall in *. intros y Hy. apply Hx.
    eapply In_firstn; eassumption.
Qed.

(* ================================================================= *)
(** ** Order of score in the scores' own terms *)






(** ** Alignment by name and fusion *)











(** The sums of the example in IEEE binary64, the arithmetic of the source:
    they round to the doubles written [0.7] and [0.9] (as [0.1 + 0.2] does
    not to the one written [0.3]). *)
#[warnings="-inexact-float"] Example fusion_example_binary64 :
  (0.5 + 1.0 * 0.2 =? 0.7)%float = true
  /\ (0.1 + 1.0 * 0.8 =? 0.9)%float = true
  /\ (0.1 + 0.2 =? 0.3)%float = false.
Proof. repeat split; vm_compute; reflexivity. Qed.

(** ** Construction *)

(** C2, as stated, fails: with two attributes in the dataset and
    [--ec-num-target 2] the constructor returns an object; it exits on no
    path. *)
Lemma C2_target_equal_to_count_is_constructed :
  ec_num_target targetEqualsCount >= uint (NumAttributes twoAttributes)
  /\ (exists ec,
         EvaporativeCooling_constructor (Some twoAttributes) targetEqualsCount noEngines
         = Object ec)
  /\ forall code msg,
      EvaporativeCooling_constructor (Some twoAttributes) targetEqualsCount noEngines
      <> Exit code msg.
Proof.
  split; [vm_compute; discriminate|].
  split; [eexists; vm_compute; reflexivity|].
  intros code msg. vm_compute. discriminate.
Qed.

(** C2, amended: the constructor exits on the target count exactly when it
    is below 1 or above the number of attributes of the dataset.  A target
    equal to the number of attributes is constructed, and is rejected by
    [ComputeECScores], which reports the error and returns [false] before
    the loop is entered, with engines and scores as the constructor left
    them. *)
Theorem C2_construction_target_range :
  forall (D E : Type) (C : Collaborators D E) (ds : D) (vm : variables_map) (e : E),
    ((ec_num_target vm < 1 \/ ec_num_target vm > uint (NumAttributes ds))
     <-> (EvaporativeCooling_constructor (Some ds) vm e
            = Exit (-1) ERR_USE_EC_NUM_TARGET
          \/ EvaporativeCooling_constructor (Some ds) vm e
            = Exit (-1) ERR_EC_NUM_TARGET_TOO_LARGE))
    /\ (ec_num_target vm = uint (NumAttributes ds) ->
        1 <= ec_num_target vm ->
        forall alg, parseAlgorithmSteps (ec_algorithm_steps vm) = Some alg ->
        exists ec,
          EvaporativeCooling_constructor (Some ds) vm e = Object ec
          /\ engines ec = e /\ ecScores ec = [] /\ cerr ec = []
          /\ forall fuel,
              ComputeECScores fuel ec
              = Ret (false,
                     report (ERR_FEWER_THAN_TARGET (uint (NumAttributes ds))
                                                   (ec_num_target vm)) ec)).
Proof.
  intros D E C ds vm e. unfold EvaporativeCooling_constructor. split.
  - destruct (ec_num_target vm <? 1) eqn:Hlow.
    + apply Z.ltb_lt in Hlow. split; auto.
    + apply Z.ltb_ge in Hlow.
      destruct (ec_num_target vm >? uint (NumAttributes ds)) eqn:Hhigh.
      * apply Z.gtb_lt in Hhigh. split; auto. intros _. right. lia.
      * rewrite Z.gtb_ltb in Hhigh. apply Z.ltb_ge in Hhigh.
        split; [lia|].
        destruct (parseAlgorithmSteps (ec_algorithm_steps vm));
          intros [Habs|Habs]; discriminate.
  - intros Heq Hpos alg Halg.
    replace (ec_num_target vm <? 1) with false by (symmetry; apply Z.ltb_ge; lia).
    replace (ec_num_target vm >? uint (NumAttributes ds)) with false
      by (symmetry; rewrite Z.gtb_ltb; apply Z.ltb_ge; lia).
    rewrite Halg. eexists. split; [reflexivity|].
    cbn. repeat (split; [reflexivity|]).
    intros fuel. unfold ComputeECScores. cbn.
    replace (uint (NumAttributes ds) <=? ec_num_target vm) with true
      by (symmetry; apply Z.leb_le; lia).
    reflexivity.
Qed.

(** ** Pruning *)

Lemma nth_error_skipn {A : Type} (l : list A) (i : nat) (x : A) :
  nth_error l i = Some x -> skipn i l = x :: skipn (S i) l.
Proof.
  revert i. induction l as [|y l IH]; intros [|i] Hnth; simpl in *; try discriminate.
  - congruence.
  - apply IH in Hnth. rewrite Hnth. destruct l; reflexivity.
Qed.

Section PruningFacts.
Context {D E : Type} `{Collaborators D E}.

Lemma removeWorstLoop_in_range (count i : nat) (scores evaporated : EcScores) (ds : D) :
  (count + i <= List.length scores)%nat ->
  removeWorstLoop count i scores evaporated ds
  = Some (evaporated ++ firstn count (skipn i scores),
          maskRemoveAll (firstn count (skipn i scores)) ds).
Proof.
  revert i evaporated ds.
  induction count as [|count IH]; intros i evaporated ds Hlen; simpl.
  - rewrite app_nil_r. reflexivity.
  - destruct (nth_error scores i) as [worst|] eqn:Hnth.
    + rewrite IH by lia. rewrite (nth_error_skipn _ _ _ Hnth). simpl.
      rewrite <- app_assoc. reflexivity.
    + apply nth_error_None in Hnth. lia.
Qed.

Lemma removeWorstLoop_out_of_range (count i : nat) (scores evaporated : EcScores) (ds : D) :
  (i <= List.length scores < count + i)%nat ->
  removeWorstLoop count i scores evaporated ds = None.
Proof.
  revert i evaporated ds.
  induction count as [|count IH]; intros i evaporated ds Hlen; simpl.
  - lia.
  - destruct (nth_error scores i) as [worst|] eqn:Hnth; [|reflexivity].
    assert (i < List.length scores)%nat
      by (apply nth_error_Some; congruence).
    apply IH. lia.
Qed.

(** What a call of [RemoveWorstAttributes] does when the fused list has as
    many entries as the loop visits. *)
Lemma RemoveWorstAttributes_defined (numToRemove : Z) (ec : EvaporativeCooling D E) :
  let sorted := sort scoresSortAsc (freeEnergyScores ec) in
  let worst := firstn (Z.to_nat (numToRemoveAdj numToRemove ec)) sorted in
  numToRemoveAdj numToRemove ec <= Z.of_nat (List.length (freeEnergyScores ec)) ->
  exists ec',
    RemoveWorstAttributes numToRemove ec = Ret (true, ec')
    /\ freeEnergyScores ec' = sorted
    /\ evaporatedAttributes ec' = evaporatedAttributes ec ++ worst
    /\ dataset ec' = maskRemoveAll worst (dataset ec)
    /\ numTargetAttributes ec' = numTargetAttributes ec
    /\ ecScores ec' = ecScores ec.
Proof.
  intros sorted worst Hlen. unfold RemoveWorstAttributes.
  fold (numToRemoveAdj numToRemove ec).
  set (k := numToRemoveAdj numToRemove ec) in *.
  destruct (uint (uint (NumAttributes (dataset ec)) - numToRemove)
            <? numTargetAttributes ec); cbn -[sort];
    (rewrite removeWorstLoop_in_range
      by (rewrite Nat.add_0_r, sort_length; lia));
    eexists; (split; [reflexivity|]); cbn -[sort];
    repeat (split; [reflexivity|]); reflexivity.
Qed.

Lemma RemoveWorstAttributes_undefined (numToRemove : Z) (ec : EvaporativeCooling D E) :
  Z.of_nat (List.length (freeEnergyScores ec)) < numToRemoveAdj numToRemove ec ->
  RemoveWorstAttributes numToRemove ec = Undefined.
Proof.
  intros Hlen. unfold RemoveWorstAttributes.
  fold (numToRemoveAdj numToRemove ec).
  set (k := numToRemoveAdj numToRemove ec) in *.
  destruct (uint (uint (NumAttributes (dataset ec)) - numToRemove)
            <? numTargetAttributes ec); cbn -[sort];
    rewrite removeWorstLoop_out_of_range
      by (rewrite Nat.add_0_r, sort_length; lia);
    reflexivity.
Qed.

End PruningFacts.

(** The guard of the clamp in exact arithmetic: when the requested count
    does not exceed the working count, the count is cut to what lands on the
    target. *)
Lemma clampToTarget_in_range (working requested target : Z) :
  is_uint working -> 0 <= requested <= working -> 0 <= target <= working ->
  clampToTarget working requested target = Z.min requested (working - target).
Proof.
  unfold clampToTarget, is_uint. intros Hw Hr Ht.
  rewrite !uint_small by (unfold is_uint; lia).
  destruct (working - requested <? target) eqn:Hlt.
  - apply Z.ltb_lt in Hlt. lia.
  - apply Z.ltb_ge in Hlt. lia.
Qed.

(** The same guard when more is requested than there is: the unsigned
    difference wraps around, the comparison with the target fails and the
    count is left as requested. *)
Lemma clampToTarget_wraps (working requested target : Z) :
  is_uint working -> is_uint requested -> target <= working -> working < requested ->
  clampToTarget working requested target = requested.
Proof.
  unfold clampToTarget. intros Hw Hr Ht Hlt.
  rewrite uint_sub_borrow by assumption.
  unfold is_uint in *.
  destruct (working - requested + UINT_RANGE <? target) eqn:Hc; [|reflexivity].
  apply Z.ltb_lt in Hc. lia.
Qed.

Lemma numToRemoveAdj_clamp {D E : Type} `{Collaborators D E}
    (numToRemove : Z) (ec : EvaporativeCooling D E) :
  numToRemoveAdj numToRemove ec
  = clampToTarget (uint (NumAttributes (dataset ec))) numToRemove
                  (numTargetAttributes ec).
Proof. reflexivity. Qed.

(** Pruning within range: with a requested count that does not exceed the
    number of attributes, the count is clamped so that the target is not
    undershot, and the clamped number of entries, lowest fused score first,
    is appended to the evaporated list and masked out of the dataset. *)
Lemma RemoveWorstAttributes_in_range {D E : Type} `{Collaborators D E}
    (numToRemove : Z) (ec : EvaporativeCooling D E) :
  let numAttr := uint (NumAttributes (dataset ec)) in
  let clamped := Z.min numToRemove (numAttr - numTargetAttributes ec) in
  let worst := firstn (Z.to_nat clamped) (sort scoresSortAsc (freeEnergyScores ec)) in
  0 <= numToRemove <= numAttr ->
  0 <= numTargetAttributes ec <= numAttr ->
  clamped <= Z.of_nat (List.length (freeEnergyScores ec)) ->
  numAttr - clamped >= numTargetAttributes ec
  /\ Z.of_nat (List.length worst) = clamped
  /\ ordered_by scoresSortAsc worst
  /\ exists ec',
      RemoveWorstAttributes numToRemove ec = Ret (true, ec')
      /\ evaporatedAttributes ec' = evaporatedAttributes ec ++ worst
      /\ dataset ec' = maskRemoveAll worst (dataset ec).
Proof.
  intros numAttr clamped worst Hr Ht Hlen.
  assert (numToRemoveAdj numToRemove ec = clamped) as Hadj.
  { rewrite numToRemoveAdj_clamp. apply clampToTarget_in_range; try assumption.
    apply uint_range. }
  split; [lia|].
  split.
  { unfold worst. rewrite length_firstn, sort_length. lia. }
  split.
  { apply ordered_by_firstn, sort_ordered, scoresSortAsc_strict_weak. }
  destruct (RemoveWorstAttributes_defined numToRemove ec) as (ec' & Hrun & _ & Hev & Hds & _).
  { rewrite Hadj. exact Hlen. }
  rewrite Hadj in Hev, Hds.
  exists ec'. auto.
Qed.

(** The example of the specification: working count 10, target 7, requested
    removal 5.  The loop clamps the count to 3, and so does
    [RemoveWorstAttributes] when it is handed the 5; the three lowest fused
    scores are evaporated, lowest first. *)
Example pruning_clamped_to_target :
  clampToTarget 10 5 7 = 3
  /\ numToRemoveAdj 5 pruningExample = 3
  /\ exists ec',
      RemoveWorstAttributes 5 pruningExample = Ret (true, ec')
      /\ evaporatedAttributes ec'
         = [(0.1%Q, "a3"%string); (0.2%Q, "a6"%string); (0.3%Q, "a1"%string)]
      /\ dataset ec' = ["a0"; "a2"; "a4"; "a5"; "a7"; "a8"; "a9"]%string.
Proof.
  split; [reflexivity|]. split; [reflexivity|].
  eexists. split; [vm_compute; reflexivity|]. split; reflexivity.
Qed.

(** C3 at a requested count above the working count: with working count 10,
    target 7 and requested removal 11 the guard of the clamp wraps around,
    nothing is clamped (neither in the loop nor in [RemoveWorstAttributes]),
    and the removal loop runs off the end of the ten fused scores. *)
Theorem C3_clamp_wraps_around :
  uint (10 - 11) = 4294967295
  /\ clampToTarget 10 11 7 = 11
  /\ numToRemoveAdj 11 pruningExample = 11
  /\ RemoveWorstAttributes 11 pruningExample = Undefined.
Proof.
  split; [reflexivity|]. split; [reflexivity|]. split; [reflexivity|].
  vm_compute. reflexivity.
Qed.

(** ** Minimum and maximum of a score list *)

Local Open Scope Q_scope.

Lemma is_min_le_is_max (mn mx : Q) (l : EcScores) :
  is_min_of mn l -> is_max_of mx l -> mn <= mx.
Proof.
  intros [[p [Hp Hmn]] _] [_ Hmx]. subst mn. apply Hmx, Hp.
Qed.

Lemma is_min_of_singleton (p : ScorePair) : is_min_of (fst p) [p].
Proof.
  split.
  - exists p. simpl. auto.
  - intros q [<-|[]]. apply Qle_refl.
Qed.

Lemma is_max_of_singleton (p : ScorePair) : is_max_of (fst p) [p].
Proof.
  split.
  - exists p. simpl. auto.
  - intros q [<-|[]]. apply Qle_refl.
Qed.

(** One more score seen: the update of the minimum in both reading loops. *)
Lemma is_min_of_extend (mn : Q) (seen : EcScores) (p : ScorePair) :
  is_min_of mn seen ->
  is_min_of (if Qltb (fst p) mn then fst p else mn) (seen ++ [p]).
Proof.
  intros [[m [Hm Hmn]] Hall].
  destruct (Qltb (fst p) mn) eqn:Hlt.
  - apply Qltb_lt in Hlt. split.
    + exists p. split; [apply in_or_app; right; left|]; reflexivity.
    + intros q Hq. apply in_app_or in Hq. destruct Hq as [Hq|[<-|[]]].
      * eapply Qle_trans; [apply Qlt_le_weak, Hlt|apply Hall, Hq].
      * apply Qle_refl.
  - apply Qltb_ge in Hlt. split.
    + exists m. split; [apply in_or_app; left|]; assumption.
    + intros q Hq. apply in_app_or in Hq. destruct Hq as [Hq|[<-|[]]].
      * apply Hall, Hq.
      * exact Hlt.
Qed.

Lemma is_max_of_extend (mx : Q) (seen : EcScores) (p : ScorePair) :
  is_max_of mx seen ->
  is_max_of (if Qltb mx (fst p) then fst p else mx) (seen ++ [p]).
Proof.
  intros [[m [Hm Hmx]] Hall].
  destruct (Qltb mx (fst p)) eqn:Hlt.
  - apply Qltb_lt in Hlt. split.
    + exists p. split; [apply in_or_app; right; left|]; reflexivity.
    + intros q Hq. apply in_app_or in Hq. destruct Hq as [Hq|[<-|[]]].
      * eapply Qle_trans; [apply Hall, Hq|apply Qlt_le_weak, Hlt].
      * apply Qle_refl.
  - apply Qltb_ge in Hlt. split.
    + exists m. split; [apply in_or_app; left|]; assumption.
    + intros q Hq. apply in_app_or in Hq. destruct Hq as [Hq|[<-|[]]].
      * apply Hall, Hq.
      * exact Hlt.
Qed.

Lemma is_min_of_same_content (m : Q) (l1 l2 : EcScores) :
  (forall p, In p l1 <-> In p l2) -> is_min_of m l1 -> is_min_of m l2.
Proof.
  intros Hsame [[p [Hp Hm]] Hall]. split.
  - exists p. split; [apply Hsame, Hp|exact Hm].
  - intros q Hq. apply Hall, Hsame, Hq.
Qed.

Lemma is_max_of_same_content (m : Q) (l1 l2 : EcScores) :
  (forall p, In p l1 <-> In p l2) -> is_max_of m l1 -> is_max_of m l2.
Proof.
  intros Hsame [[p [Hp Hm]] Hall]. split.
  - exists p. split; [apply Hsame, Hp|exact Hm].
  - intros q Hq. apply Hall, Hsame, Hq.
Qed.

Lemma degenerate_min_eq_max (mn mx : Q) (l : EcScores) :
  degenerate l -> is_min_of mn l -> is_max_of mx l -> Qeq_bool mn mx = true.
Proof.
  intros Hdeg [[p [Hp <-]] _] [[q [Hq <-]] _].
  apply Qeq_bool_iff, Hdeg; assumption.
Qed.

Lemma single_element_degenerate (p : ScorePair) : degenerate [p].
Proof.
  intros q r [<-|[]] [<-|[]]. apply Qeq_refl.
Qed.

(** The minimum and maximum [RunReliefF] computes are those of the list. *)
Lemma minMaxRFScores_from (scores seen : EcScores) (mn mx : Q) :
  is_min_of mn seen -> is_max_of mx seen ->
  let mm :=
    fold_left
      (fun (mm : Q * Q) (thisScore : ScorePair) =>
         let '(minRFScore, maxRFScore) := mm in
         (if Qltb (fst thisScore) minRFScore then fst thisScore else minRFScore,
          if Qltb maxRFScore (fst thisScore) then fst thisScore else maxRFScore))
      scores (mn, mx) in
  is_min_of (fst mm) (seen ++ scores) /\ is_max_of (snd mm) (seen ++ scores).
Proof.
  revert seen mn mx.
  induction scores as [|p scores IH]; intros seen mn mx Hmin Hmax; simpl.
  - rewrite app_nil_r. auto.
  - replace (seen ++ p :: scores) with ((seen ++ [p]) ++ scores)
      by (rewrite <- app_assoc; reflexivity).
    apply IH; [apply is_min_of_extend|apply is_max_of_extend]; assumption.
Qed.

Lemma minMaxRFScores_bounds (firstScore : ScorePair) (rest : EcScores) :
  is_min_of (fst (minMaxRFScores firstScore (firstScore :: rest))) (firstScore :: rest)
  /\ is_max_of (snd (minMaxRFScores firstScore (firstScore :: rest))) (firstScore :: rest).
Proof.
  destruct (minMaxRFScores_from (firstScore :: rest) [firstScore]
              (fst firstScore) (fst firstScore)
              (is_min_of_singleton firstScore) (is_max_of_singleton firstScore))
    as [Hmin Hmax].
  assert (forall p, In p ([firstScore] ++ firstScore :: rest)
                    <-> In p (firstScore :: rest)) as Hsame
      by (intros p; simpl; tauto).
  split.
  - eapply is_min_of_same_content; [exact Hsame|exact Hmin].
  - eapply is_max_of_same_content; [exact Hsame|exact Hmax].
Qed.

(** ** Reading the Random Jungle scores *)

Section ReadingFacts.
Context {D E : Type} `{Collaborators D E}.

(** After the first line: minimum and maximum follow the scores read. *)
Lemma readImportanceLines_next (rows : list (list string)) :
  fourColumns rows ->
  forall (n : nat) (mn mx : Q) (scores : EcScores),
    scores <> [] -> is_min_of mn scores -> is_max_of mx scores ->
    exists mn' mx',
      readImportanceLines rows (S n) mn mx scores
      = inl (scores ++ parsedScores rows, mn', mx')
      /\ is_min_of mn' (scores ++ parsedScores rows)
      /\ is_max_of mx' (scores ++ parsedScores rows).
Proof.
  induction 1 as [|tokens rows Hfour _ IH]; intros n mn mx scores Hne Hmin Hmax.
  - exists mn, mx. simpl. rewrite app_nil_r. auto.
  - destruct tokens as [|t0 [|t1 [|val [|keyVal [|]]]]]; try discriminate.
    assert (mn <= mx) as Hle by (eapply is_min_le_is_max; eassumption).
    pose proof (is_min_of_extend mn scores (strtod keyVal, val) Hmin) as Hmin'.
    pose proof (is_max_of_extend mx scores (strtod keyVal, val) Hmax) as Hmax'.
    assert (scores ++ [(strtod keyVal, val)] <> []) as Hne'
        by (destruct scores; discriminate).
    change (parsedScores ([t0; t1; val; keyVal] :: rows))
      with ((strtod keyVal, val) :: parsedScores rows).
    cbn [readImportanceLines Nat.eqb].
    replace (scores ++ (strtod keyVal, val) :: parsedScores rows)
      with ((scores ++ [(strtod keyVal, val)]) ++ parsedScores rows)
      by (rewrite <- app_assoc; reflexivity).
    cbn [fst] in Hmin', Hmax'.
    destruct (Qltb (strtod keyVal) mn) eqn:Hlow.
    + replace (Qltb mx (strtod keyVal)) with false in Hmax'.
      * apply IH; assumption.
      * symmetry. apply Qltb_ge. apply Qltb_lt in Hlow.
        eapply Qle_trans; [apply Qlt_le_weak, Hlow|exact Hle].
    + destruct (Qltb mx (strtod keyVal)); apply IH; assumption.
Qed.

(** The reading loop on well-formed lines: the scores of all lines, with
    their minimum and maximum ([0] and [0] when there is no line). *)
Lemma readImportanceLines_all (rows : list (list string)) :
  fourColumns rows ->
  exists mn mx,
    readImportanceLines rows 0 0 0 [] = inl (parsedScores rows, mn, mx)
    /\ (rows = [] -> mn = 0 /\ mx = 0)
    /\ (rows <> [] ->
        is_min_of mn (parsedScores rows) /\ is_max_of mx (parsedScores rows)).
Proof.
  intros Hfour. destruct Hfour as [|tokens rows Hfour Hrows].
  - exists 0, 0. simpl. split; [reflexivity|]. split; [auto|congruence].
  - destruct tokens as [|t0 [|t1 [|val [|keyVal [|]]]]]; try discriminate.
    change (parsedScores ([t0; t1; val; keyVal] :: rows))
      with ([(strtod keyVal, val)] ++ parsedScores rows).
    cbn [readImportanceLines Nat.eqb].
    change ([] ++ [(strtod keyVal, val)]) with [(strtod keyVal, val)].
    destruct (readImportanceLines_next rows Hrows 0 (strtod keyVal) (strtod keyVal)
                [(strtod keyVal, val)])
      as (mn & mx & Hread & Hmin & Hmax).
    + discriminate.
    + apply (is_min_of_singleton (strtod keyVal, val)).
    + apply (is_max_of_singleton (strtod keyVal, val)).
    + exists mn, mx. split; [exact Hread|]. split; [discriminate|auto].
Qed.

Lemma normalizeRJScores_same (mn mx : Q) (scores : EcScores) :
  Qeq_bool mn mx = true -> normalizeRJScores mn mx scores = scores.
Proof.
  intros Heq. unfold normalizeRJScores. rewrite Heq. simpl.
  induction scores as [|[s n] scores IH]; simpl; [reflexivity|].
  rewrite IH. reflexivity.
Qed.

End ReadingFacts.

(** ** Normalization of the two engines' scores *)

Section NormalizationFacts.
Context {D E : Type} `{Collaborators D E}.

Lemma ReadRandomJungleScores_degenerate
    (ec : EvaporativeCooling D E) (header : list string) (rows : list (list string)) :
  fourColumns rows -> degenerate (parsedScores rows) ->
  exists ec',
    ReadRandomJungleScores (Some (header :: rows)) ec = (true, ec')
    /\ rjScores ec' = parsedScores rows
    /\ cerr ec' = cerr ec ++ [WARN_RJ_MIN_MAX_SAME].
Proof.
  intros Hfour Hdeg. unfold ReadRandomJungleScores. cbn [tl].
  destruct (readImportanceLines_all rows Hfour) as (mn & mx & -> & Hnil & Hcons).
  assert (Qeq_bool mn mx = true) as Heq.
  { destruct rows as [|row rows].
    - destruct Hnil as [-> ->]; reflexivity.
    - destruct Hcons as [Hmin Hmax]; [discriminate|].
      eapply degenerate_min_eq_max; eassumption. }
  rewrite Heq, (normalizeRJScores_same _ _ _ Heq).
  eexists. split; [reflexivity|]. split; reflexivity.
Qed.

Lemma RunRandomJungle_reads (ec : EvaporativeCooling D E) (e : E)
    (importance : ImportanceFile) (ec' : EvaporativeCooling D E) :
  rjungle_run (engines ec) (dataset ec) = (e, importance) ->
  ReadRandomJungleScores importance (set_engines e ec) = (true, ec') ->
  RunRandomJungle ec = (true, ec').
Proof.
  intros Hrun Hread. unfold RunRandomJungle. rewrite Hrun, Hread. reflexivity.
Qed.

Lemma RunReliefF_degenerate (ec : EvaporativeCooling D E) (e : E) (scores : EcScores) :
  relieff_run (engines ec) (dataset ec) = (e, scores) ->
  scores <> [] -> degenerate scores ->
  exists ec',
    RunReliefF ec = Ret (true, ec')
    /\ rfScores ec' = scores
    /\ cerr ec' = cerr ec ++ [WARN_RF_MIN_MAX_SAME].
Proof.
  intros Hrun Hne Hdeg. unfold RunReliefF. rewrite Hrun.
  destruct scores as [|firstScore rest]; [congruence|].
  destruct (minMaxRFScores_bounds firstScore rest) as [Hmin Hmax].
  destruct (minMaxRFScores firstScore (firstScore :: rest)) as [mn mx].
  cbn [fst snd] in Hmin, Hmax.
  rewrite (degenerate_min_eq_max mn mx _ Hdeg Hmin Hmax).
  eexists. split; [reflexivity|]. split; reflexivity.
Qed.

End NormalizationFacts.

(** C4: a score list whose minimum equals its maximum (a single-element
    list is one) comes out of the normalization of either engine as it went
    in, every pair identical, with the warning on [cerr], and the step
    returns [true]: [ReadRandomJungleScores], and [RunRandomJungle] around
    it, for the Random Jungle scores, [RunReliefF] for the Relief-F scores. *)
Theorem C4_degenerate_scores_pass_unchanged :
  (forall (D E : Type) (C : Collaborators D E) (ec : EvaporativeCooling D E)
          (header : list string) (rows : list (list string)),
      fourColumns rows -> degenerate (parsedScores rows) ->
      (exists ec',
          ReadRandomJungleScores (Some (header :: rows)) ec = (true, ec')
          /\ rjScores ec' = parsedScores rows
          /\ cerr ec' = cerr ec ++ [WARN_RJ_MIN_MAX_SAME])
      /\ forall e,
          rjungle_run (engines ec) (dataset ec) = (e, Some (header :: rows)) ->
          exists ec',
            RunRandomJungle ec = (true, ec')
            /\ rjScores ec' = parsedScores rows
            /\ cerr ec' = cerr ec ++ [WARN_RJ_MIN_MAX_SAME])
  /\ (forall (D E : Type) (C : Collaborators D E) (ec : EvaporativeCooling D E)
             (e : E) (scores : EcScores),
         relieff_run (engines ec) (dataset ec) = (e, scores) ->
         scores <> [] -> degenerate scores ->
         exists ec',
           RunReliefF ec = Ret (true, ec')
           /\ rfScores ec' = scores
           /\ cerr ec' = cerr ec ++ [WARN_RF_MIN_MAX_SAME])
  /\ (forall p : ScorePair, degenerate [p]).
Proof.
  split; [|split].
  - intros D E C ec header rows Hfour Hdeg. split.
    + apply ReadRandomJungleScores_degenerate; assumption.
    + intros e Hrun.
      destruct (ReadRandomJungleScores_degenerate (set_engines e ec) header rows
                  Hfour Hdeg) as (ec' & Hread & Hscores & Hcerr).
      exists ec'. split; [|split; assumption].
      eapply RunRandomJungle_reads; eassumption.
  - intros D E C ec e scores. apply RunReliefF_degenerate.
  - apply single_element_degenerate.
Qed.

Lemma flatRows_degenerate : degenerate (parsedScores flatRows).
Proof.
  intros p q Hp Hq. simpl in Hp, Hq.
  repeat (destruct Hp as [<-|Hp]); try contradiction;
    repeat (destruct Hq as [<-|Hq]); try contradiction; reflexivity.
Qed.

Lemma flatScores_degenerate : degenerate flatScores.
Proof.
  intros p q Hp Hq. simpl in Hp, Hq.
  repeat (destruct Hp as [<-|Hp]); try contradiction;
    repeat (destruct Hq as [<-|Hq]); try contradiction; reflexivity.
Qed.

Lemma C4_flat_scores_witness :
  (exists ec',
      RunRandomJungle flatExample = (true, ec')
      /\ rjScores ec' = parsedScores flatRows
      /\ cerr ec' = [WARN_RJ_MIN_MAX_SAME])
  /\ (exists ec',
         RunReliefF flatExample = Ret (true, ec')
         /\ rfScores ec' = flatScores
         /\ cerr ec' = [WARN_RF_MIN_MAX_SAME]).
Proof.
  destruct C4_degenerate_scores_pass_unchanged as (Hrj & Hrf & _).
  split.
  - destruct (Hrj _ _ _ flatExample importanceHeader flatRows) as [_ Hrun].
    + repeat constructor.
    + exact flatRows_degenerate.
    + apply (Hrun (fst (fake_rjungle_run (engines flatExample) (dataset flatExample)))).
      reflexivity.
  - apply (Hrf _ _ _ flatExample
               (fst (fake_relieff_run (engines flatExample) (dataset flatExample)))).
    + reflexivity.
    + discriminate.
    + exact flatScores_degenerate.
Defined.

Local Close Scope Q_scope.

(** ** What the steps of an iteration leave alone *)

Section FrameFacts.
Context {D E : Type} `{Collaborators D E}.

Lemma carries_on_refl (ec : EvaporativeCooling D E) : carries_on ec ec.
Proof.
  unfold carries_on. repeat (split; [reflexivity|]).
  exists []. rewrite app_nil_r. auto.
Qed.

Lemma carries_on_trans (ec1 ec2 ec3 : EvaporativeCooling D E) :
  carries_on ec1 ec2 -> carries_on ec2 ec3 -> carries_on ec1 ec3.
Proof.
  unfold carries_on.
  intros (H1 & H2 & H3 & H4 & H5 & m1 & Hm1 & Hn1)
         (K1 & K2 & K3 & K4 & K5 & m2 & Hm2 & Hn2).
  repeat (split; [congruence|]).
  exists (m1 ++ m2). split.
  - rewrite Hm2, Hm1, app_assoc. reflexivity.
  - intros Hin. apply in_app_or in Hin. tauto.
Qed.

Lemma carries_on_report (msg : Diagnostic) (ec : EvaporativeCooling D E) :
  msg <> ERR_REMOVE_WORST_ATTRIBUTE_FAILED -> carries_on ec (report msg ec).
Proof.
  intros Hmsg. unfold carries_on. cbn. repeat (split; [reflexivity|]).
  exists [msg]. split; [reflexivity|].
  intros [Heq|[]]. congruence.
Qed.

(** A step that touches no field of [carries_on] and writes nothing. *)
Lemma carries_on_quiet (ec ec' : EvaporativeCooling D E) :
  numTargetAttributes ec' = numTargetAttributes ec ->
  algorithmType ec' = algorithmType ec ->
  paramsMap ec' = paramsMap ec ->
  numToRemovePerIteration ec' = numToRemovePerIteration ec ->
  ecScores ec' = ecScores ec ->
  cerr ec' = cerr ec ->
  carries_on ec ec'.
Proof.
  intros H1 H2 H3 H4 H5 H6. unfold carries_on.
  repeat (split; [assumption|]).
  exists []. rewrite app_nil_r. auto.
Qed.

Ltac carry :=
  repeat first
    [ apply carries_on_refl
    | apply carries_on_report; discriminate
    | apply carries_on_quiet; reflexivity
    | eapply carries_on_trans;
        [|apply carries_on_report; discriminate] ].

Lemma ReadRandomJungleScores_carries_on (importance : ImportanceFile)
    (ec ec' : EvaporativeCooling D E) (ok : bool) :
  ReadRandomJungleScores importance ec = (ok, ec') ->
  carries_on ec ec' /\ scores_untouched ec ec' /\ rfScores ec' = rfScores ec.
Proof.
  unfold ReadRandomJungleScores, scores_untouched.
  destruct importance as [lines|].
  - destruct (readImportanceLines (tl lines) 0 0%Q 0%Q [])
      as [[[scores mn] mx]|[[n columns] scores]].
    + destruct (Qeq_bool mn mx); intros [= <- <-]; cbn;
        (split; [carry|repeat split]).
    + intros [= <- <-]; cbn. split; [carry|repeat split].
  - intros [= <- <-]; cbn. split; [carry|repeat split].
Qed.

Lemma RunRandomJungle_carries_on (ec ec' : EvaporativeCooling D E) (ok : bool) :
  RunRandomJungle ec = (ok, ec') ->
  carries_on ec ec' /\ scores_untouched ec ec' /\ rfScores ec' = rfScores ec.
Proof.
  unfold RunRandomJungle.
  destruct (rjungle_run (engines ec) (dataset ec)) as [e importance].
  destruct (ReadRandomJungleScores importance (set_engines e ec)) as [ok' ec1] eqn:Hread.
  apply ReadRandomJungleScores_carries_on in Hread.
  destruct Hread as (Hc & (Hd & Hf & Hev & Hec) & Hrf). cbn in *.
  destruct ok'; intros [= <- <-]; cbn.
  - split; [|split; [repeat split|]]; assumption.
  - split; [|split; [repeat split|]]; try assumption.
    eapply carries_on_trans; [exact Hc|apply carries_on_report; discriminate].
Qed.

Lemma RunReliefF_carries_on (ec ec' : EvaporativeCooling D E) (ok : bool) :
  RunReliefF ec = Ret (ok, ec') ->
  carries_on ec ec' /\ scores_untouched ec ec' /\ rjScores ec' = rjScores ec.
Proof.
  unfold RunReliefF, scores_untouched.
  destruct (relieff_run (engines ec) (dataset ec)) as [e scores].
  destruct scores as [|firstScore rest]; [discriminate|].
  destruct (minMaxRFScores firstScore (firstScore :: rest)) as [mn mx].
  destruct (Qeq_bool mn mx); intros [= <- <-]; cbn;
    (split; [carry|repeat split]).
Qed.

Lemma RunReliefF_true (ec ec' : EvaporativeCooling D E) (ok : bool) :
  RunReliefF ec = Ret (ok, ec') -> ok = true.
Proof.
  unfold RunReliefF.
  destruct (relieff_run (engines ec) (dataset ec)) as [e scores].
  destruct scores as [|firstScore rest]; [discriminate|].
  destruct (minMaxRFScores firstScore (firstScore :: rest)) as [mn mx].
  destruct (Qeq_bool mn mx); intros [= <- <-]; reflexivity.
Qed.

Lemma ComputeFreeEnergy_carries_on (temperature : Q)
    (ec ec' : EvaporativeCooling D E) (ok : bool) :
  ComputeFreeEnergy temperature ec = (ok, ec') ->
  carries_on ec ec'
  /\ dataset ec' = dataset ec
  /\ evaporatedAttributes ec' = evaporatedAttributes ec.
Proof.
  unfold ComputeFreeEnergy.
  destruct (algorithmType ec) eqn:Halg.
  - destruct (negb (Nat.eqb (List.length (rjScores ec)) (List.length (rfScores ec))));
      intros [= <- <-]; cbn; (split; [|split; reflexivity]).
    + carry.
    + apply carries_on_quiet; cbn; congruence.
  - intros [= <- <-]; cbn. split; [|split; reflexivity].
    apply carries_on_quiet; cbn; congruence.
  - intros [= <- <-]; cbn. split; [|split; reflexivity].
    apply carries_on_quiet; cbn; congruence.
  - intros [= <- <-]; cbn. split; [|split; reflexivity].
    eapply carries_on_trans; [|apply carries_on_report; discriminate].
    apply carries_on_quiet; cbn; congruence.
Qed.

(** [RemoveWorstAttributes] has one [return], and it returns [true]. *)
Lemma RemoveWorstAttributes_true (numToRemove : Z)
    (ec ec' : EvaporativeCooling D E) (ok : bool) :
  RemoveWorstAttributes numToRemove ec = Ret (ok, ec') ->
  ok = true
  /\ carries_on ec ec'
  /\ Permutation (freeEnergyScores ec) (freeEnergyScores ec').
Proof.
  unfold RemoveWorstAttributes.
  destruct (uint (uint (NumAttributes (dataset ec)) - numToRemove)
            <? numTargetAttributes ec); cbn -[sort];
    match goal with
    | |- context [removeWorstLoop ?c ?i ?s ?ev ?ds] =>
        destruct (removeWorstLoop c i s ev ds) as [[evaporated ds']|]
    end; try discriminate; intros [= <- <-]; cbn -[sort];
    (split; [reflexivity|split; [|apply sort_perm]]).
  - apply carries_on_trans
      with (report (WARN_REMOVE_ADJUSTING numToRemove (numTargetAttributes ec)) ec).
    + apply carries_on_report; discriminate.
    + apply carries_on_quiet; reflexivity.
  - apply carries_on_quiet; reflexivity.
Qed.

End FrameFacts.

(** ** One iteration, and the loop *)

Section LoopFacts.
Context {D E : Type} `{Collaborators D E}.

(** The ways through the body of the loop: scoring fails and the method
    returns [false] with the message of the step that failed; or the fused
    list is built, and the round either breaks on a count of 0 or prunes and
    goes on. *)
Lemma ECIteration_cases (w : Z) (ec : EvaporativeCooling D E) (step : LoopStep D E) :
  ECIteration w ec = Ret step ->
  (exists ec0 msg,
      step = ReturnFalse (report msg ec0)
      /\ (msg = ERR_RANDOM_JUNGLE_FAILED \/ msg = ERR_RELIEFF_FAILED
          \/ msg = ERR_COMPUTE_FREE_ENERGY_FAILED)
      /\ carries_on ec ec0)
  \/ (exists ec2 ec3 perIteration,
         ComputeFreeEnergy 1 ec2 = (true, ec3)
         /\ carries_on ec ec3
         /\ numToRemovePerIteration ec3 = Some perIteration
         /\ let numToRemove :=
              clampToTarget w (requestedRemoval ec3 perIteration)
                            (numTargetAttributes ec3) in
            (numToRemove < 1 /\ step = Break ec3)
            \/ (1 <= numToRemove
                /\ exists ec4,
                    RemoveWorstAttributes numToRemove ec3 = Ret (true, ec4)
                    /\ step = Continue (uint (w - numToRemove)) ec4)).
Proof.
  intros Hrun. unfold ECIteration in Hrun.
  destruct (if usesRandomJungle (algorithmType ec) then RunRandomJungle ec else (true, ec))
    as [ok1 ec1] eqn:Hrj.
  assert (carries_on ec ec1) as Hc1.
  { destruct (usesRandomJungle (algorithmType ec)).
    - apply RunRandomJungle_carries_on in Hrj. tauto.
    - injection Hrj as _ <-. apply carries_on_refl. }
  destruct ok1; cbn [negb] in Hrun.
  2: { injection Hrun as <-. left. exists ec1, ERR_RANDOM_JUNGLE_FAILED. auto. }
  destruct (if usesReliefF (algorithmType ec1) then RunReliefF ec1 else Ret (true, ec1))
    as [[ok2 ec2]| |] eqn:Hrf; cbn [bind] in Hrun; try discriminate.
  assert (carries_on ec ec2) as Hc2.
  { apply carries_on_trans with ec1; [exact Hc1|].
    destruct (usesReliefF (algorithmType ec1)).
    - apply RunReliefF_carries_on in Hrf. tauto.
    - injection Hrf as _ <-. apply carries_on_refl. }
  destruct ok2; cbn [negb] in Hrun.
  2: { injection Hrun as <-. left. exists ec2, ERR_RELIEFF_FAILED. auto. }
  destruct (ComputeFreeEnergy 1 ec2) as [ok3 ec3] eqn:Hfe.
  assert (carries_on ec ec3) as Hc3.
  { apply carries_on_trans with ec2; [exact Hc2|].
    apply ComputeFreeEnergy_carries_on in Hfe. tauto. }
  destruct ok3; cbn [negb] in Hrun.
  2: { injection Hrun as <-. left. exists ec3, ERR_COMPUTE_FREE_ENERGY_FAILED. auto. }
  destruct (numToRemovePerIteration ec3) as [perIteration|] eqn:Hper; [|discriminate].
  fold (requestedRemoval ec3 perIteration) in Hrun.
  right. exists ec2, ec3, perIteration.
  split; [exact Hfe|]. split; [exact Hc3|]. split; [exact Hper|].
  cbv zeta.
  destruct (clampToTarget w (requestedRemoval ec3 perIteration) (numTargetAttributes ec3)
            <? 1) eqn:Hzero.
  - apply Z.ltb_lt in Hzero. injection Hrun as <-. left. auto.
  - apply Z.ltb_ge in Hzero. right. split; [exact Hzero|].
    destruct (RemoveWorstAttributes
                (clampToTarget w (requestedRemoval ec3 perIteration)
                               (numTargetAttributes ec3)) ec3)
      as [[ok4 ec4]| |] eqn:Hrm; cbn [bind] in Hrun; try discriminate.
    destruct (RemoveWorstAttributes_true _ _ _ _ Hrm) as (-> & _).
    cbn [negb] in Hrun. injection Hrun as <-.
    exists ec4. auto.
Qed.

Lemma ECIteration_carries_on (w : Z) (ec : EvaporativeCooling D E) (step : LoopStep D E) :
  ECIteration w ec = Ret step ->
  match step with
  | Continue _ ec' | Break ec' | ReturnFalse ec' => carries_on ec ec'
  end.
Proof.
  intros Hrun. apply ECIteration_cases in Hrun.
  destruct Hrun as [(ec0 & msg & -> & Hmsg & Hc)
                   |(ec2 & ec3 & per & Hfe & Hc & Hper & [(_ & ->)|(_ & ec4 & Hrm & ->)])].
  - eapply carries_on_trans; [exact Hc|].
    apply carries_on_report. destruct Hmsg as [->|[->| ->]]; discriminate.
  - exact Hc.
  - eapply carries_on_trans; [exact Hc|].
    apply RemoveWorstAttributes_true in Hrm. tauto.
Qed.

Lemma ECLoop_carries_on (fuel : nat) :
  forall (w : Z) (ec : EvaporativeCooling D E) (out : LoopExit D E),
    ECLoop fuel w ec = Ret out -> carries_on ec (exitObject out).
Proof.
  induction fuel as [|fuel IH]; intros w ec out; cbn [ECLoop];
    destruct (w >? numTargetAttributes ec); try discriminate;
    try (intros [= <-]; apply carries_on_refl).
  destruct (ECIteration w ec) as [step| |] eqn:Hstep; cbn [bind]; try discriminate.
  apply ECIteration_carries_on in Hstep.
  destruct step as [w' ec'|ec'|ec'].
  - intros Hloop. apply IH in Hloop. eapply carries_on_trans; eassumption.
  - intros [= <-]. exact Hstep.
  - intros [= <-]. exact Hstep.
Qed.

End LoopFacts.

(** ** Lists of unequal size *)

(** C6: in mode [EC_ALL], when the two score lists differ in size,
    [ComputeFreeEnergy] reports the error and returns [false] with the three
    lists as they were (nothing truncated, nothing padded, no fused list
    built); in whichever iteration that happens the loop returns [false] at
    once, and [ComputeECScores] returns [false] with the EC scores not
    written. *)
Theorem C6_unequal_lists_fail_the_run :
  (forall (D E : Type) (ec : EvaporativeCooling D E) (temperature : Q),
      algorithmType ec = EC_ALL ->
      List.length (rjScores ec) <> List.length (rfScores ec) ->
      ComputeFreeEnergy temperature ec
      = (false, report (ERR_SCORES_LISTS_UNEQUAL (List.length (rjScores ec))
                                                 (List.length (rfScores ec))) ec))
  /\ (forall (D E : Type) (C : Collaborators D E) (fuel : nat) (w : Z)
             (ec ec1 ec2 : EvaporativeCooling D E),
         w > numTargetAttributes ec ->
         algorithmType ec = EC_ALL ->
         RunRandomJungle ec = (true, ec1) ->
         RunReliefF ec1 = Ret (true, ec2) ->
         List.length (rjScores ec2) <> List.length (rfScores ec2) ->
         exists ec',
           ECLoop (S fuel) w ec = Ret (LoopFalse ec')
           /\ cerr ec'
              = cerr ec2 ++ [ERR_SCORES_LISTS_UNEQUAL (List.length (rjScores ec2))
                                                      (List.length (rfScores ec2));
                             ERR_COMPUTE_FREE_ENERGY_FAILED]
           /\ rjScores ec' = rjScores ec2
           /\ rfScores ec' = rfScores ec2
           /\ freeEnergyScores ec' = freeEnergyScores ec
           /\ evaporatedAttributes ec' = evaporatedAttributes ec
           /\ dataset ec' = dataset ec
           /\ ecScores ec' = ecScores ec)
  /\ (forall (D E : Type) (C : Collaborators D E) (fuel : nat)
             (ec ec' : EvaporativeCooling D E),
         uint (NumAttributes (dataset ec)) > numTargetAttributes ec ->
         ECLoop fuel (uint (NumAttributes (dataset ec))) ec = Ret (LoopFalse ec') ->
         ComputeECScores fuel ec = Ret (false, ec')
         /\ ecScores ec' = ecScores ec).
Proof.
  split; [|split].
  - intros D E ec temperature Halg Hlen. unfold ComputeFreeEnergy. rewrite Halg.
    apply Nat.eqb_neq in Hlen. rewrite Hlen. reflexivity.
  - intros D E C fuel w ec ec1 ec2 Hw Halg Hrj Hrf Hlen.
    destruct (RunRandomJungle_carries_on _ _ _ Hrj)
      as ((_ & Halg1 & _) & (Hd1 & Hf1 & Hev1 & Hec1) & _).
    destruct (RunReliefF_carries_on _ _ _ Hrf)
      as ((_ & Halg2 & _) & (Hd2 & Hf2 & Hev2 & Hec2) & _).
    assert (algorithmType ec2 = EC_ALL) as Halg' by congruence.
    eexists. cbn [ECLoop].
    replace (w >? numTargetAttributes ec) with true
      by (symmetry; apply Z.gtb_lt; lia).
    unfold ECIteration. rewrite Halg. cbn [usesRandomJungle]. rewrite Hrj.
    cbn [negb]. replace (algorithmType ec1) with EC_ALL by congruence.
    cbn [usesReliefF]. rewrite Hrf. cbn [bind negb].
    unfold ComputeFreeEnergy. rewrite Halg'.
    apply Nat.eqb_neq in Hlen. rewrite Hlen. cbn [negb bind].
    split; [reflexivity|]. cbn.
    split; [rewrite <- app_assoc; reflexivity|].
    repeat (split; [congruence|]). congruence.
  - intros D E C fuel ec ec' Hw Hloop. split.
    + unfold ComputeECScores.
      replace (uint (NumAttributes (dataset ec)) <=? numTargetAttributes ec) with false
        by (symmetry; apply Z.leb_gt; lia).
      rewrite Hloop. reflexivity.
    + apply ECLoop_carries_on in Hloop. destruct Hloop as (_ & _ & _ & _ & Hec & _).
      exact Hec.
Qed.

Lemma C6_five_against_four_witness :
  List.length (rjScores (afterRunReliefF (afterRunRandomJungle mismatchExample))) = 5%nat
  /\ List.length (rfScores (afterRunReliefF (afterRunRandomJungle mismatchExample))) = 4%nat
  /\ exists ec',
      ComputeECScores 1 mismatchExample = Ret (false, ec')
      /\ ecScores ec' = []
      /\ freeEnergyScores ec' = [].
Proof.
  split; [reflexivity|]. split; [reflexivity|].
  destruct C6_unequal_lists_fail_the_run as (_ & Hloop & Hrun).
  destruct (Hloop _ _ _ 0%nat 5 mismatchExample
                  (afterRunRandomJungle mismatchExample)
                  (afterRunReliefF (afterRunRandomJungle mismatchExample)))
    as (ec' & Hfalse & _ & _ & _ & Hfes & _).
  - reflexivity.
  - reflexivity.
  - reflexivity.
  - vm_compute. reflexivity.
  - vm_compute. discriminate.
  - exists ec'.
    destruct (Hrun _ _ _ 1%nat mismatchExample ec') as [Hret Hec].
    + reflexivity.
    + exact Hfalse.
    + auto.
Defined.

(** ** The EC scores *)

Lemma returnsTrue_object {D E : Type} (r : Result (bool * EvaporativeCooling D E))
    (ec : EvaporativeCooling D E) :
  returnsTrue r = true -> r = Ret (true, objectAfter r ec).
Proof.
  destruct r as [[[|] ec']| |]; simpl; intros Hr; try discriminate. reflexivity.
Qed.

Lemma endToEndExample_runs :
  ComputeECScores 5 endToEndExample
  = Ret (true, objectAfter (ComputeECScores 5 endToEndExample) endToEndExample).
Proof. apply returnsTrue_object. vm_compute. reflexivity. Qed.

(** The end-to-end run of the specification: from 20 attributes to the
    target of 5, three per iteration, in exactly five iterations (four are
    not enough), with no message on [cerr]; the 15 evaporated attributes are
    masked out of the dataset and the five EC scores are those of the
    attributes that remain, highest first. *)
Example end_to_end_twenty_to_five :
  ComputeECScores 4 endToEndExample = OutOfFuel
  /\ match ComputeECScores 5 endToEndExample with
     | Ret (true, ec') =>
         names (ecScores ec') = ["v07"; "v03"; "v12"; "v20"; "v10"]%string
         /\ dataset ec' = ["v03"; "v07"; "v10"; "v12"; "v20"]%string
         /\ List.length (evaporatedAttributes ec') = 15%nat
         /\ cerr ec' = []
     | _ => False
     end.
Proof.
  split; vm_compute; repeat split; reflexivity.
Qed.

(** ** The failure branch after pruning *)

Lemma report_last_message {D E : Type} (msg msg' : Diagnostic)
    (ec ec' : EvaporativeCooling D E) :
  report msg ec = report msg' ec' -> msg = msg'.
Proof.
  intros Heq. apply (f_equal cerr) in Heq. cbn in Heq.
  apply app_inj_tail in Heq. tauto.
Qed.

(** C10: [RemoveWorstAttributes] returns [true] whenever it returns, and it
    returns whenever the fused list has as many entries as the adjusted
    count, whatever [MaskRemoveAttribute] answers; so an iteration that
    makes [ComputeECScores] return [false] failed in Random Jungle, in
    Relief-F or in [ComputeFreeEnergy], and the message of the failure
    branch after pruning is never written. *)
Theorem C10_pruning_never_fails :
  (forall (D E : Type) (C : Collaborators D E) (numToRemove : Z)
          (ec : EvaporativeCooling D E),
      numToRemoveAdj numToRemove ec <= Z.of_nat (List.length (freeEnergyScores ec)) ->
      exists ec', RemoveWorstAttributes numToRemove ec = Ret (true, ec'))
  /\ (forall (D E : Type) (C : Collaborators D E) (numToRemove : Z)
             (ec ec' : EvaporativeCooling D E) (ok : bool),
         RemoveWorstAttributes numToRemove ec = Ret (ok, ec') -> ok = true)
  /\ (forall (D E : Type) (C : Collaborators D E) (w : Z)
             (ec ec' : EvaporativeCooling D E),
         ECIteration w ec = Ret (ReturnFalse ec') ->
         (exists ec0 msg,
             ec' = report msg ec0
             /\ (msg = ERR_RANDOM_JUNGLE_FAILED \/ msg = ERR_RELIEFF_FAILED
                 \/ msg = ERR_COMPUTE_FREE_ENERGY_FAILED))
         /\ forall ec0, ec' <> report ERR_REMOVE_WORST_ATTRIBUTE_FAILED ec0)
  /\ (forall (D E : Type) (C : Collaborators D E) (fuel : nat)
             (ec ec' : EvaporativeCooling D E) (ok : bool),
         ComputeECScores fuel ec = Ret (ok, ec') ->
         exists msgs,
           cerr ec' = cerr ec ++ msgs
           /\ ~ In ERR_REMOVE_WORST_ATTRIBUTE_FAILED msgs).
Proof.
  split; [|split; [|split]].
  - intros D E C numToRemove ec Hlen.
    destruct (RemoveWorstAttributes_defined numToRemove ec Hlen) as (ec' & Hrun & _).
    exists ec'. exact Hrun.
  - intros D E C numToRemove ec ec' ok Hrun.
    apply RemoveWorstAttributes_true in Hrun. tauto.
  - intros D E C w ec ec' Hrun. apply ECIteration_cases in Hrun.
    destruct Hrun as [(ec0 & msg & Hstep & Hmsg & _)
                     |(ec2 & ec3 & per & _ & _ & _ & [(_ & Hstep)|(_ & ec4 & _ & Hstep)])];
      try discriminate.
    injection Hstep as ->. split.
    + exists ec0, msg. auto.
    + intros ec1 Heq. apply report_last_message in Heq.
      destruct Hmsg as [->|[->| ->]]; discriminate.
  - intros D E C fuel ec ec' ok. unfold ComputeECScores.
    destruct (uint (NumAttributes (dataset ec)) <=? numTargetAttributes ec).
    + intros [= <- <-]. eexists. split; [reflexivity|].
      intros [Habs|[]]. discriminate.
    + destruct (ECLoop fuel (uint (NumAttributes (dataset ec))) ec) as [out| |] eqn:Hloop;
        cbn [bind]; try discriminate.
      apply ECLoop_carries_on in Hloop.
      destruct Hloop as (_ & _ & _ & _ & _ & Hcerr).
      destruct out as [w ecl|ecl]; cbn in Hcerr.
      * unfold collectECScores. cbn -[sort].
        destruct (numTargetAttributes ecl <=? _); [|discriminate].
        intros [= <- <-]. exact Hcerr.
      * intros [= <- <-]. exact Hcerr.
Qed.

Lemma C10_strangers_witness :
  Forall (fun p : ScorePair =>
            fst (MaskRemoveAttribute (snd p) (dataset strangersExample)) = false)
         (freeEnergyScores strangersExample)
  /\ exists ec', RemoveWorstAttributes 2 strangersExample = Ret (true, ec').
Proof.
  split; [repeat constructor|].
  destruct C10_pruning_never_fails as (Hdefined & _).
  apply (Hdefined _ _ _ 2 strangersExample).
  vm_compute. discriminate.
Defined.

(** ** Removal counts within range *)

Section InRange.
Context {D E : Type} `{Collaborators D E}.

Lemma RunReliefF_no_fuel (ec : EvaporativeCooling D E) : RunReliefF ec <> OutOfFuel.
Proof.
  unfold RunReliefF.
  destruct (relieff_run (engines ec) (dataset ec)) as [e scores].
  destruct scores as [|firstScore rest]; [discriminate|].
  destruct (minMaxRFScores firstScore (firstScore :: rest)) as [mn mx].
  destruct (Qeq_bool mn mx); discriminate.
Qed.

Lemma RemoveWorstAttributes_no_fuel (numToRemove : Z) (ec : EvaporativeCooling D E) :
  RemoveWorstAttributes numToRemove ec <> OutOfFuel.
Proof.
  unfold RemoveWorstAttributes.
  match goal with
  | |- context [removeWorstLoop ?c ?i ?s ?ev ?ds] =>
      destruct (removeWorstLoop c i s ev ds) as [[evaporated ds']|]
  end; discriminate.
Qed.

(** The body of the loop has no loop of its own to run out of fuel in. *)
Lemma ECIteration_no_fuel (w : Z) (ec : EvaporativeCooling D E) :
  ECIteration w ec <> OutOfFuel.
Proof.
  unfold ECIteration.
  destruct (if usesRandomJungle (algorithmType ec) then RunRandomJungle ec else (true, ec))
    as [[|] ec1]; cbn [negb]; [|discriminate].
  destruct (if usesReliefF (algorithmType ec1) then RunReliefF ec1 else Ret (true, ec1))
    as [[[|] ec2]| |] eqn:Hrf; cbn [bind negb]; try discriminate.
  - destruct (ComputeFreeEnergy 1 ec2) as [[|] ec3]; cbn [negb]; [|discriminate].
    destruct (numToRemovePerIteration ec3) as [per|]; [|discriminate].
    destruct (_ <? 1); [discriminate|].
    match goal with
    | |- context [RemoveWorstAttributes ?n ?e] =>
        pose proof (RemoveWorstAttributes_no_fuel n e) as Hrm;
        destruct (RemoveWorstAttributes n e) as [[[|] ec4]| |]
    end; cbn [bind negb]; try discriminate. congruence.
  - destruct (usesReliefF (algorithmType ec1)); [|discriminate].
    exfalso. exact (RunReliefF_no_fuel ec1 Hrf).
Qed.

(** A round with a fixed removal count of at most [target + 1] (so never
    above the working count): the count that goes on to the next round is
    below the one that came in, and not below the target. *)
Lemma ECIteration_in_range (w r : Z) (ec ec' : EvaporativeCooling D E) (w' : Z) :
  is_uint w -> numTargetAttributes ec < w ->
  ec_iter_remove_percent (paramsMap ec) = None ->
  numToRemovePerIteration ec = Some r ->
  0 <= r <= numTargetAttributes ec + 1 ->
  0 <= numTargetAttributes ec ->
  ECIteration w ec = Ret (Continue w' ec') ->
  numTargetAttributes ec <= w' < w.
Proof.
  intros Hw Hgt Hpercent Hper Hr Ht Hstep.
  apply ECIteration_cases in Hstep.
  destruct Hstep as [(ec0 & msg & Hstep & _)
                    |(ec2 & ec3 & per & _ & Hc & Hper3 & [(_ & Hstep)|(Hpos & ec4 & _ & Hstep)])];
    try discriminate.
  destruct Hc as (Htarget & _ & Hparams & Hsame & _).
  unfold requestedRemoval in *. rewrite Hparams, Hpercent in *.
  rewrite Hsame, Hper in Hper3. injection Hper3 as <-.
  rewrite Htarget in *.
  rewrite clampToTarget_in_range in * by (unfold is_uint in *; lia).
  injection Hstep as -> _.
  rewrite uint_small by (unfold is_uint in *; lia). lia.
Qed.

(** With such a removal count the loop keeps the working count between the
    target and where it started, and ends within [w - target] iterations. *)
Lemma ECLoop_in_range (fuel : nat) :
  forall (w r : Z) (ec : EvaporativeCooling D E),
    is_uint w ->
    ec_iter_remove_percent (paramsMap ec) = None ->
    numToRemovePerIteration ec = Some r ->
    0 <= r <= numTargetAttributes ec + 1 ->
    0 <= numTargetAttributes ec ->
    (forall w' ecl,
        ECLoop fuel w ec = Ret (LoopDone w' ecl) ->
        Z.min w (numTargetAttributes ec) <= w' <= w)
    /\ ((Z.to_nat (w - numTargetAttributes ec) <= fuel)%nat ->
        ECLoop fuel w ec <> OutOfFuel).
Proof.
  induction fuel as [|fuel IH]; intros w r ec Hw Hpercent Hper Hr Ht; cbn [ECLoop];
    destruct (w >? numTargetAttributes ec) eqn:Hgt.
  - apply Z.gtb_lt in Hgt. split; [discriminate|lia].
  - rewrite Z.gtb_ltb in Hgt. apply Z.ltb_ge in Hgt.
    split; [intros w' ecl [= <- <-]; lia|discriminate].
  - apply Z.gtb_lt in Hgt.
    pose proof (ECIteration_no_fuel w ec) as Hnofuel.
    destruct (ECIteration w ec) as [step| |] eqn:Hstep; cbn [bind];
      [|split; discriminate|congruence].
    pose proof (ECIteration_carries_on _ _ _ Hstep) as Hc.
    destruct step as [w1 ec1|ec1|ec1].
    + destruct Hc as (Htarget & _ & Hparams & Hsame & _).
      pose proof (ECIteration_in_range w r ec ec1 w1 Hw Hgt Hpercent Hper Hr Ht Hstep)
        as Hw1.
      destruct (IH w1 r ec1) as [Hdone Hends]; try congruence.
      { unfold is_uint in *. lia. }
      rewrite Htarget in *. split.
      * intros w' ecl Hloop. apply Hdone in Hloop. lia.
      * intros Hfuel. apply Hends. lia.
    + split; [intros w' ecl [= <- <-]; lia|discriminate].
    + split; discriminate.
  - rewrite Z.gtb_ltb in Hgt. apply Z.ltb_ge in Hgt.
    split; [intros w' ecl [= <- <-]; lia|discriminate].
Qed.

End InRange.

(** ** A removal count above the working count *)

(** C7 at a removal count above the working count: six attributes (and four
    numerics that Random Jungle scores as well), target 1, four removed per
    iteration.  The first round takes the working count from 6 to 2.  In the
    second round neither guard clamps the 4 to 1: the four lowest fused
    entries are removed, which masks the two attributes that were left, and
    the working count goes from 2 to 4294967294. *)
Theorem C7_working_count_wraps_around :
  clampToTarget 2 4 1 = 4
  /\ match ECIteration 6 overshootExample with
     | Ret (Continue first ec1) =>
         first = 2
         /\ dataset ec1 = ["e"; "f"]%string
         /\ match ECIteration first ec1 with
            | Ret (Continue second ec2) =>
                second = 4294967294
                /\ second > first
                /\ numTargetAttributes ec2 = 1
                /\ dataset ec2 = []
                /\ NumAttributes (dataset ec2) < numTargetAttributes ec2
            | _ => False
            end
     | _ => False
     end.
Proof.
  split; [reflexivity|]. vm_compute. repeat split; discriminate.
Qed.

Lemma overshoot_first_iteration :
  ECIteration 6 overshootExample = Ret (Continue 2 overshootSecond).
Proof. reflexivity. Qed.

Lemma overshoot_second_iteration :
  ECIteration 2 overshootSecond = Ret (Continue 4294967294 overshootThird).
Proof. reflexivity. Qed.

(** With the working count at 2 modulo 4 nothing is clamped, and the count
    stays at 2 modulo 4. *)
Lemma overshoot_clamp (w : Z) :
  is_uint w -> w mod 4 = 2 ->
  clampToTarget w 4 1 = 4 /\ is_uint (uint (w - 4)) /\ uint (w - 4) mod 4 = 2.
Proof.
  intros Hw Hmod.
  assert (uint (w - 4) mod 4 = 2) as Hnext.
  { unfold uint, is_uint, UINT_RANGE in *.
    change (2 ^ 32) with 4294967296 in *. Z.div_mod_to_equations. lia. }
  split; [|split; [apply uint_range|exact Hnext]].
  unfold clampToTarget.
  destruct (uint (w - 4) <? 1) eqn:Hlt; [|reflexivity].
  apply Z.ltb_lt in Hlt.
  pose proof (uint_range (w - 4)) as Hrange. unfold is_uint in Hrange.
  Z.div_mod_to_equations. lia.
Qed.

(** Every later iteration: the four numerics are scored, fused and removed
    again (no attribute is left to mask), and the count goes down by 4. *)
Lemma overshoot_iteration (w : Z) (n : nat) (evaporated rj fe : EcScores) :
  is_uint w -> w mod 4 = 2 ->
  ECIteration w (overshootObject [] n evaporated rj fe)
  = Ret (Continue (uint (w - 4))
                  (overshootObject [] (S n)
                     (fold_left (fun acc worst => acc ++ [worst])
                                overshootSorted evaporated)
                     overshootScores overshootSorted)).
Proof.
  intros Hw Hmod. destruct (overshoot_clamp w Hw Hmod) as (Hclamp & _).
  unfold ECIteration.
  change (algorithmType (overshootObject [] n evaporated rj fe)) with EC_RJ.
  cbn [usesRandomJungle].
  change (RunRandomJungle (overshootObject [] n evaporated rj fe))
    with (true, overshootObject [] (S n) evaporated overshootScores fe).
  cbn [negb].
  change (algorithmType (overshootObject [] (S n) evaporated overshootScores fe))
    with EC_RJ.
  cbn [usesReliefF bind negb].
  change (ComputeFreeEnergy 1 (overshootObject [] (S n) evaporated overshootScores fe))
    with (true, overshootObject [] (S n) evaporated overshootScores overshootScores).
  cbn [negb].
  set (fused := overshootObject [] (S n) evaporated overshootScores overshootScores).
  change (numToRemovePerIteration fused) with (Some 4).
  change (ec_iter_remove_percent (paramsMap fused)) with (@None Z).
  change (numTargetAttributes fused) with 1.
  cbv iota. rewrite Hclamp.
  change (4 <? 1) with false. cbv iota.
  change (RemoveWorstAttributes 4 fused)
    with (Ret (true, overshootObject [] (S n)
                       (fold_left (fun acc worst => acc ++ [worst])
                                  overshootSorted evaporated)
                       overshootScores overshootSorted)).
  reflexivity.
Qed.

Lemma overshoot_loop (fuel : nat) :
  forall (w : Z) (n : nat) (evaporated rj fe : EcScores),
    is_uint w -> w mod 4 = 2 ->
    ECLoop fuel w (overshootObject [] n evaporated rj fe) = OutOfFuel.
Proof.
  induction fuel as [|fuel IH]; intros w n evaporated rj fe Hw Hmod; cbn [ECLoop];
    change (numTargetAttributes (overshootObject [] n evaporated rj fe)) with 1;
    (replace (w >? 1) with true
      by (symmetry; apply Z.gtb_lt; unfold is_uint in Hw;
          Z.div_mod_to_equations; lia)).
  - reflexivity.
  - rewrite (overshoot_iteration w n evaporated rj fe Hw Hmod). cbn [bind].
    destruct (overshoot_clamp w Hw Hmod) as (_ & Hw' & Hmod').
    apply IH; assumption.
Qed.

(** C9 at a removal count above the working count: on the input of C7 the
    working count, once wrapped around, stays at 2 modulo 4; it never meets
    the target and no round computes zero removals, so the loop does not
    end, whatever the number of iterations allowed. *)
Theorem C9_loop_does_not_terminate :
  forall fuel : nat, ComputeECScores fuel overshootExample = OutOfFuel.
Proof.
  intros fuel. unfold ComputeECScores.
  change (uint (NumAttributes (dataset overshootExample))) with 6.
  change (numTargetAttributes overshootExample) with 1.
  change (6 <=? 1) with false. cbv iota.
  destruct fuel as [|fuel]; [reflexivity|].
  cbn [ECLoop]. change (numTargetAttributes overshootExample) with 1.
  change (6 >? 1) with true. cbv iota.
  rewrite overshoot_first_iteration. cbn [bind].
  destruct fuel as [|fuel]; [reflexivity|].
  cbn [ECLoop]. change (numTargetAttributes overshootSecond) with 1.
  change (2 >? 1) with true. cbv iota.
  rewrite overshoot_second_iteration. cbn [bind].
  unfold overshootThird.
  rewrite overshoot_loop; [reflexivity| |reflexivity].
  unfold is_uint, UINT_RANGE. lia.
Qed.

(* ================================================================= *)
(** * File names *)

Lemma string_take_drop (n : nat) (s : string) :
  (string_take n s ++ string_drop n s)%string = s.
Proof.
  revert s; induction n as [|n IH]; intros [|c s]; cbn; try reflexivity.
  now rewrite IH.
Qed.

Lemma string_take_all (n : nat) (s : string) :
  (String.length s <= n)%nat -> string_take n s = s.
Proof.
  revert n; induction s as [|c s IH]; intros [|n] Hn; cbn in *; try reflexivity; try lia.
  rewrite IH by lia. reflexivity.
Qed.

Lemma find_first_none (c : ascii) (s : string) :
  find_first c s = None <-> ~ occurs c s.
Proof.
  unfold occurs. induction s as [|a s IH]; cbn.
  - split; [intros _ []|reflexivity].
  - destruct (Ascii.eqb_spec a c) as [->|Hne].
    + split; [discriminate|]. intros Hn. exfalso. apply Hn. now left.
    + destruct (find_first c s) as [i|]; cbn.
      * split; [discriminate|]. intros Hn. exfalso.
        assert (Hs : Some i <> None) by discriminate.
        apply Hs. apply IH. intros Hin. apply Hn. now right.
      * split; [|reflexivity]. intros _ [Heq|Hin]; [congruence|].
        now apply (proj1 IH).
Qed.

Lemma find_first_some (c : ascii) (s : string) (i : nat) :
  find_first c s = Some i ->
  (i < String.length s)%nat /\
  s = (string_take i s ++ String c (string_drop (S i) s))%string /\
  ~ occurs c (string_take i s).
Proof.
  revert i. induction s as [|a s IH]; cbn; intros i Hf; [discriminate|].
  destruct (Ascii.eqb_spec a c) as [->|Hne].
  - injection Hf as <-. cbn. repeat split; [lia|]. intros [].
  - destruct (find_first c s) as [j|]; cbn in Hf; [|discriminate].
    injection Hf as <-. destruct (IH j eq_refl) as (Hlt & Hs & Hno).
    repeat split; [lia| |].
    + cbn. f_equal. exact Hs.
    + cbn. unfold occurs in *. cbn. intros [Heq|Hin]; [congruence|auto].
Qed.

Lemma size_t_small (z : Z) : 0 <= z < SIZE_RANGE -> size_t z = z.
Proof. intros Hz. unfold size_t. now apply Z.mod_small. Qed.

Lemma size_t_npos_succ : size_t (npos + 1) = 0.
Proof. reflexivity. Qed.

Lemma size_nonneg (s : string) : 0 <= size s.
Proof. unfold size. lia. Qed.

Lemma string_drop_length (n : nat) (s : string) :
  String.length (string_drop n s) = (String.length s - n)%nat.
Proof.
  revert s; induction n as [|n IH]; intros [|c s]; cbn; try reflexivity; try lia.
  apply IH.
Qed.

Lemma string_take_length (n : nat) (s : string) :
  String.length (string_take n s) = Nat.min n (String.length s).
Proof.
  revert s; induction n as [|n IH]; intros [|c s]; cbn; try reflexivity.
  now rewrite IH.
Qed.

Lemma GetFileBasename_dot (s : string) (i : nat) :
  find_first "."%char s = Some i ->
  GetFileBasename s = Some (string_take i s).
Proof.
  intros Hf. destruct (find_first_some _ _ _ Hf) as (Hlt & _ & _).
  unfold GetFileBasename, find, substr. rewrite Hf.
  pose proof (size_nonneg s) as Hs.
  replace (0 >? size s) with false by (symmetry; rewrite Z.gtb_ltb; apply Z.ltb_ge; lia).
  unfold size in *. rewrite Z.min_l by lia. rewrite Nat2Z.id. reflexivity.
Qed.

Lemma GetFileExtension_dot (s : string) (i : nat) :
  fits_size_t s ->
  find_first "."%char s = Some i ->
  GetFileExtension s = Some (string_drop (S i) s).
Proof.
  intros Hfit Hf. destruct (find_first_some _ _ _ Hf) as (Hlt & _ & _).
  unfold fits_size_t, size in Hfit.
  unfold GetFileExtension, find, substr. rewrite Hf.
  rewrite !size_t_small by (unfold size; lia).
  unfold size.
  replace (Z.of_nat i + 1 >? Z.of_nat (String.length s)) with false
    by (symmetry; rewrite Z.gtb_ltb; apply Z.ltb_ge; lia).
  rewrite Z.min_r by lia.
  replace (Z.to_nat (Z.of_nat i + 1)) with (S i) by lia.
  rewrite string_take_all; [reflexivity|].
  rewrite string_drop_length. lia.
Qed.

Lemma GetFileBasename_no_dot (s : string) :
  fits_size_t s ->
  find_first "."%char s = None ->
  GetFileBasename s = Some s.
Proof.
  intros Hfit Hf. unfold fits_size_t in Hfit.
  unfold GetFileBasename, find, substr. rewrite Hf.
  pose proof (size_nonneg s) as Hs.
  replace (0 >? size s) with false by (symmetry; rewrite Z.gtb_ltb; apply Z.ltb_ge; lia).
  rewrite Z.min_r by (unfold npos; lia).
  cbn. rewrite string_take_all; [reflexivity|]. unfold size. lia.
Qed.

Lemma GetFileExtension_no_dot (s : string) :
  fits_size_t s ->
  find_first "."%char s = None ->
  GetFileExtension s = Some (string_take (String.length s - 1) s).
Proof.
  intros Hfit Hf. unfold fits_size_t in Hfit.
  unfold GetFileExtension, find, substr. rewrite Hf.
  rewrite size_t_npos_succ.
  pose proof (size_nonneg s) as Hs.
  replace (0 >? size s) with false by (symmetry; rewrite Z.gtb_ltb; apply Z.ltb_ge; lia).
  cbn [Z.to_nat string_drop]. rewrite Z.sub_0_r.
  destruct s as [|c s].
  - reflexivity.
  - rewrite size_t_small by (unfold size in *; cbn [String.length] in *; lia).
    rewrite Z.min_l by lia. do 2 f_equal. unfold size. cbn [String.length]. lia.
Qed.

(** X1: a file name that holds a dot is split at its first dot:
    [GetFileBasename] returns what is before it, [GetFileExtension] all that
    is after it (further dots included), neither throws, and basename, dot
    and extension put together give the file name back. *)
Theorem file_name_splits_at_first_dot (fileName : string) :
  fits_size_t fileName ->
  occurs "."%char fileName ->
  exists basename extension : string,
    GetFileBasename fileName = Some basename /\
    GetFileExtension fileName = Some extension /\
    fileName = (basename ++ "." ++ extension)%string /\
    ~ occurs "."%char basename.
Proof.
  intros Hfit Hdot.
  destruct (find_first "."%char fileName) as [i|] eqn:Hf.
  - destruct (find_first_some _ _ _ Hf) as (_ & Hs & Hno).
    exists (string_take i fileName), (string_drop (S i) fileName).
    repeat split.
    + now apply GetFileBasename_dot.
    + now apply GetFileExtension_dot.
    + exact Hs.
    + exact Hno.
  - exfalso. now apply (proj1 (find_first_none _ _) Hf).
Qed.

Lemma file_name_splits_witness :
  exists basename extension : string,
    GetFileBasename "scores.ec.rj" = Some basename /\
    GetFileExtension "scores.ec.rj" = Some extension /\
    "scores.ec.rj"%string = (basename ++ "." ++ extension)%string /\
    ~ occurs "."%char basename.
Proof.
  apply (file_name_splits_at_first_dot "scores.ec.rj").
  - unfold fits_size_t. vm_compute. reflexivity.
  - unfold occurs. cbn. tauto.
Defined.

(** X2: for a file name without a dot, [find] returns [npos]:
    [GetFileBasename] returns the whole name, and [GetFileExtension], whose
    [pos + 1] wraps around to 0 and whose count is [size() - 1], returns the
    name without its last character (the empty string for the empty name),
    not an empty extension. *)
Theorem file_name_without_dot (fileName : string) :
  fits_size_t fileName ->
  ~ occurs "."%char fileName ->
  GetFileBasename fileName = Some fileName /\
  GetFileExtension fileName =
    Some (string_take (String.length fileName - 1) fileName).
Proof.
  intros Hfit Hno. apply find_first_none in Hno. split.
  - now apply GetFileBasename_no_dot.
  - now apply GetFileExtension_no_dot.
Qed.

Lemma file_name_without_dot_witness :
  GetFileBasename "README" = Some "README"%string /\
  GetFileExtension "README" = Some "READM"%string.
Proof.
  apply (file_name_without_dot "README").
  - unfold fits_size_t. vm_compute. reflexivity.
  - unfold occurs. cbn. intuition discriminate.
Defined.

(** X3: neither function ever throws [std::out_of_range]: for every file
    name both return a string; the basename is a prefix of the name, holds
    no dot, and is its own basename. *)
Theorem file_name_parts_defined (fileName : string) :
  fits_size_t fileName ->
  exists basename extension : string,
    GetFileBasename fileName = Some basename /\
    GetFileExtension fileName = Some extension /\
    (exists rest, fileName = (basename ++ rest)%string) /\
    ~ occurs "."%char basename /\
    GetFileBasename basename = Some basename.
Proof.
  intros Hfit.
  destruct (find_first "."%char fileName) as [i|] eqn:Hf.
  - destruct (find_first_some _ _ _ Hf) as (Hlt & Hs & Hno).
    exists (string_take i fileName), (string_drop (S i) fileName).
    split; [now apply GetFileBasename_dot|].
    split; [now apply GetFileExtension_dot|].
    split; [exists (string_drop i fileName); symmetry; apply string_take_drop|].
    split; [exact Hno|].
    apply GetFileBasename_no_dot.
    + unfold fits_size_t, size in *. rewrite string_take_length. lia.
    + now apply find_first_none.
  - exists fileName, (string_take (String.length fileName - 1) fileName).
    split; [now apply GetFileBasename_no_dot|].
    split; [now apply GetFileExtension_no_dot|].
    split; [exists EmptyString; clear; induction fileName; cbn; congruence|].
    split; [now apply find_first_none|].
    now apply GetFileBasename_no_dot.
Qed.

Lemma file_name_parts_defined_witness :
  exists basename extension : string,
    GetFileBasename ".bashrc" = Some basename /\
    GetFileExtension ".bashrc" = Some extension /\
    (exists rest, ".bashrc"%string = (basename ++ rest)%string) /\
    ~ occurs "."%char basename /\
    GetFileBasename basename = Some basename.
Proof.
  apply (file_name_parts_defined ".bashrc").
  unfold fits_size_t. vm_compute. reflexivity.
Defined.

(* ================================================================= *)
(** ** Reading errors, Relief-F and the modes of the free energy *)

Section ReadingErrors.
Context {D E : Type} `{Collaborators D E}.

(** The reading loop stops at the first line that does not have four columns,
    whatever minimum and maximum it holds by then. *)
Lemma readImportanceLines_stops (good : list (list string)) (bad : list string)
    (rest : list (list string)) :
  fourColumns good -> List.length bad <> 4%nat ->
  forall (n : nat) (mn mx : Q) (scores : EcScores),
    readImportanceLines (good ++ bad :: rest) n mn mx scores
    = inr (S (n + List.length good), List.length bad, scores ++ parsedScores good).
Proof.
  intros Hgood Hbad. induction Hgood as [|tokens good Htok Hgood IH]; intros n mn mx scores.
  - cbn [app readImportanceLines]. rewrite Nat.add_0_r, app_nil_r.
    destruct bad as [|a [|b [|c [|d [|e bad]]]]]; try reflexivity.
    exfalso. apply Hbad. reflexivity.
  - destruct tokens as [|a [|b [|c [|d [|e tokens]]]]]; try discriminate Htok.
    change (parsedScores ([a; b; c; d] :: good))
      with (scoreOfLine [a; b; c; d] :: parsedScores good).
    cbn [app readImportanceLines List.length].
    replace (scores ++ scoreOfLine [a; b; c; d] :: parsedScores good)
      with ((scores ++ [(strtod d, c)]) ++ parsedScores good)
      by (rewrite <- app_assoc; reflexivity).
    replace (S (n + S (List.length good))) with (S (S n + List.length good)) by lia.
    destruct (Nat.eqb (S n) 1); [apply IH|].
    destruct (Qltb (strtod d) mn); [apply IH|].
    destruct (Qltb mx (strtod d)); apply IH.
Qed.

(** X4: when a line of the importance file does not have four columns,
    [ReadRandomJungleScores] returns [false] and reports the number of that
    line (counted after the header) and its column count; [rjScores] is left
    holding the scores of the lines before it, as read (not normalized), and
    the lines after it are not looked at. *)
Theorem malformed_importance_line
    (ec : EvaporativeCooling D E) (header : list string)
    (good : list (list string)) (bad : list string) (rest : list (list string)) :
  fourColumns good -> List.length bad <> 4%nat ->
  ReadRandomJungleScores (Some (header :: good ++ bad :: rest)) ec
  = (false,
     report (ERR_PARSING_LINE (S (List.length good)) (List.length bad))
            (set_rjScores (parsedScores good) ec)).
Proof.
  intros Hgood Hbad. unfold ReadRandomJungleScores. cbn [tl].
  rewrite (readImportanceLines_stops good bad rest Hgood Hbad). reflexivity.
Qed.

End ReadingErrors.

Lemma malformed_importance_line_witness :
  ReadRandomJungleScores
    (Some (importanceHeader :: truncatedRows ++ ["0"; "2"; "c"]%string :: flatRows))
    flatExample
  = (false,
     report (ERR_PARSING_LINE 3 3)
            (set_rjScores (parsedScores truncatedRows) flatExample)).
Proof.
  apply (malformed_importance_line flatExample importanceHeader truncatedRows
           ["0"; "2"; "c"]%string flatRows).
  - repeat constructor.
  - cbn. discriminate.
Defined.

(** X5: the first line of the importance file is dropped unread, whatever it
    holds; a file with no line after it (or with no line at all) is read with
    success as an empty score list, with the warning that minimum and maximum
    are the same. *)
Theorem importance_header_is_not_parsed :
  (forall (D E : Type) (C : Collaborators D E) (ec : EvaporativeCooling D E)
          (header header' : list string) (rows : list (list string)),
      ReadRandomJungleScores (Some (header :: rows)) ec
      = ReadRandomJungleScores (Some (header' :: rows)) ec)
  /\ (forall (D E : Type) (C : Collaborators D E) (ec : EvaporativeCooling D E)
             (lines : list (list string)),
         tl lines = [] ->
         exists ec',
           ReadRandomJungleScores (Some lines) ec = (true, ec')
           /\ rjScores ec' = []
           /\ cerr ec' = cerr ec ++ [WARN_RJ_MIN_MAX_SAME]).
Proof.
  split.
  - intros. reflexivity.
  - intros D E C ec lines Hlines. unfold ReadRandomJungleScores. rewrite Hlines.
    cbn. eexists. split; [reflexivity|]. split; reflexivity.
Qed.

(** X6: in a mode that uses Random Jungle, when the importance file cannot be
    opened the first iteration ends the run: [ComputeECScores] returns
    [false], three messages are written (file, scores, Random Jungle),
    Relief-F is not run and no score list, nor the dataset, is touched. *)
Theorem unreadable_importance_file_fails_the_run
    {D E : Type} `{Collaborators D E} (ec : EvaporativeCooling D E) (e : E) (fuel : nat) :
  uint (NumAttributes (dataset ec)) > numTargetAttributes ec ->
  usesRandomJungle (algorithmType ec) = true ->
  rjungle_run (engines ec) (dataset ec) = (e, None) ->
  ComputeECScores (S fuel) ec
  = Ret (false,
         report ERR_RANDOM_JUNGLE_FAILED
           (report ERR_READ_RANDOM_JUNGLE_SCORES
              (report ERR_OPEN_IMPORTANCE_FILE (set_engines e ec)))).
Proof.
  intros Hw Hrj Hrun. unfold ComputeECScores.
  replace (uint (NumAttributes (dataset ec)) <=? numTargetAttributes ec) with false
    by (symmetry; apply Z.leb_gt; lia).
  cbn [ECLoop].
  replace (uint (NumAttributes (dataset ec)) >? numTargetAttributes ec) with true
    by (symmetry; rewrite Z.gtb_ltb; apply Z.ltb_lt; lia).
  unfold ECIteration. rewrite Hrj. unfold RunRandomJungle. rewrite Hrun.
  reflexivity.
Qed.

(** X7: [RunReliefF] reads [rfScores[0]] before it looks at the size, so an
    empty score list from the engine is undefined behaviour; when it returns,
    it returns [true] with as many scores as the engine gave.  So the failure
    branch after it in the loop is never taken: an iteration that returns
    [false] reports Random Jungle or the free energy, never Relief-F. *)
Theorem relieff_failure_is_unreachable :
  (forall (D E : Type) (C : Collaborators D E) (ec : EvaporativeCooling D E) (e : E),
      relieff_run (engines ec) (dataset ec) = (e, []) -> RunReliefF ec = Undefined)
  /\ (forall (D E : Type) (C : Collaborators D E) (ec ec' : EvaporativeCooling D E)
             (ok : bool),
         RunReliefF ec = Ret (ok, ec') ->
         ok = true /\ rfScores ec' <> []
         /\ List.length (rfScores ec')
            = List.length (snd (relieff_run (engines ec) (dataset ec))))
  /\ (forall (D E : Type) (C : Collaborators D E) (w : Z)
             (ec ec' : EvaporativeCooling D E),
         ECIteration w ec = Ret (ReturnFalse ec') ->
         exists ec0,
           ec' = report ERR_RANDOM_JUNGLE_FAILED ec0
           \/ ec' = report ERR_COMPUTE_FREE_ENERGY_FAILED ec0).
Proof.
  split; [|split].
  - intros D E C ec e Hrun. unfold RunReliefF. rewrite Hrun. reflexivity.
  - intros D E C ec ec' ok. unfold RunReliefF.
    destruct (relieff_run (engines ec) (dataset ec)) as [e scores].
    destruct scores as [|firstScore rest]; [discriminate|].
    destruct (minMaxRFScores firstScore (firstScore :: rest)) as [mn mx].
    destruct (Qeq_bool mn mx); intros [= <- <-]; cbn;
      (split; [reflexivity|split; [discriminate|]]);
      rewrite ?length_map; reflexivity.
  - intros D E C w ec ec'. unfold ECIteration.
    destruct (if usesRandomJungle (algorithmType ec)
              then RunRandomJungle ec else (true, ec)) as [ok1 ec1].
    destruct ok1; cbn [negb]; [|intros [= <-]; eexists; left; reflexivity].
    destruct (if usesReliefF (algorithmType ec1)
              then RunReliefF ec1 else Ret (true, ec1)) as [[ok2 ec2]| |] eqn:Hrf;
      cbn [bind]; try discriminate.
    assert (ok2 = true) as ->.
    { destruct (usesReliefF (algorithmType ec1)).
      - now apply RunReliefF_true in Hrf.
      - now injection Hrf as -> _. }
    cbn [negb].
    destruct (ComputeFreeEnergy 1 ec2) as [ok3 ec3].
    destruct ok3; cbn [negb]; [|intros [= <-]; eexists; right; reflexivity].
    destruct (numToRemovePerIteration ec3) as [per|]; [|discriminate].
    match goal with
    | |- context [clampToTarget ?a ?b ?c] => destruct (clampToTarget a b c <? 1)
    end; [discriminate|].
    match goal with
    | |- context [RemoveWorstAttributes ?n ?x] =>
        destruct (RemoveWorstAttributes n x) as [[ok4 ec4]| |] eqn:Hrm
    end; cbn [bind]; try discriminate.
    apply RemoveWorstAttributes_true in Hrm. destruct Hrm as [-> _].
    discriminate.
Qed.

(** Pushing [make_pair(it->first, it->second)] for every entry copies the
    list. *)
Lemma copy_scores (l : EcScores) :
  map (fun p : ScorePair => (fst p, snd p)) l = l.
Proof.
  induction l as [|[s a] l IH]; cbn; [reflexivity|]. now rewrite IH.
Qed.

(** X8: in the modes with one engine [ComputeFreeEnergy] copies the list of
    that engine as it stands into [freeEnergyScores]: the temperature plays no
    part, sizes are not compared, nothing is sorted and the other list is not
    read.  With an undetermined mode it fails after it has emptied
    [freeEnergyScores]. *)
Theorem single_engine_free_energy :
  (forall (D E : Type) (ec : EvaporativeCooling D E) (temperature : Q),
      algorithmType ec = EC_RJ ->
      ComputeFreeEnergy temperature ec
      = (true, set_freeEnergyScores (rjScores ec) ec))
  /\ (forall (D E : Type) (ec : EvaporativeCooling D E) (temperature : Q),
         algorithmType ec = EC_RF ->
         ComputeFreeEnergy temperature ec
         = (true, set_freeEnergyScores (rfScores ec) ec))
  /\ (forall (D E : Type) (ec : EvaporativeCooling D E) (temperature : Q),
         algorithmType ec = EC_UNDETERMINED ->
         ComputeFreeEnergy temperature ec
         = (false, report ERR_ALGORITHM_TYPE (set_freeEnergyScores [] ec))).
Proof.
  repeat split; intros D E ec temperature Halg; unfold ComputeFreeEnergy;
    rewrite Halg; rewrite ?copy_scores; reflexivity.
Qed.





(* ================================================================= *)
(** ** Pruning, the evaporated attributes and the messages of a run *)

Section PruningOrder.
Context {D E : Type} `{Collaborators D E}.


End PruningOrder.


Section Evaporation.
Context {D E : Type} `{Collaborators D E}.

Lemma maskRemoveAll_app (l1 l2 : EcScores) (ds : D) :
  maskRemoveAll (l1 ++ l2) ds = maskRemoveAll l2 (maskRemoveAll l1 ds).
Proof. unfold maskRemoveAll. apply fold_left_app. Qed.

(** When [RemoveWorstAttributes] returns, it has evaporated the first entries
    of the sorted fused list. *)
Lemma RemoveWorstAttributes_evaporates (numToRemove : Z)
    (ec ec' : EvaporativeCooling D E) (ok : bool) :
  RemoveWorstAttributes numToRemove ec = Ret (ok, ec') ->
  exists worst,
    worst = firstn (Z.to_nat (numToRemoveAdj numToRemove ec))
                   (sort scoresSortAsc (freeEnergyScores ec))
    /\ List.length worst = Z.to_nat (numToRemoveAdj numToRemove ec)
    /\ evaporatedAttributes ec' = evaporatedAttributes ec ++ worst
    /\ dataset ec' = maskRemoveAll worst (dataset ec).
Proof.
  intros Hrun.
  destruct (Z_le_gt_dec (numToRemoveAdj numToRemove ec)
                        (Z.of_nat (List.length (freeEnergyScores ec)))) as [Hle|Hgt].
  - destruct (RemoveWorstAttributes_defined numToRemove ec Hle)
      as (ec1 & Hrun1 & _ & Hev & Hds & _).
    rewrite Hrun in Hrun1. injection Hrun1 as _ <-.
    eexists. split; [reflexivity|]. split; [|split; assumption].
    rewrite length_firstn, sort_length. lia.
  - rewrite RemoveWorstAttributes_undefined in Hrun by lia. discriminate.
Qed.

(** What a pass through the body of the loop does to the dataset and to the
    list of evaporated attributes. *)
Lemma ECIteration_evaporates (w : Z) (ec : EvaporativeCooling D E) (step : LoopStep D E) :
  ECIteration w ec = Ret step ->
  match step with
  | Continue _ ec' =>
      exists worst,
        evaporatedAttributes ec' = evaporatedAttributes ec ++ worst
        /\ dataset ec' = maskRemoveAll worst (dataset ec)
  | Break ec' | ReturnFalse ec' =>
      evaporatedAttributes ec' = evaporatedAttributes ec
      /\ dataset ec' = dataset ec
  end.
Proof.
  unfold ECIteration.
  destruct (if usesRandomJungle (algorithmType ec)
            then RunRandomJungle ec else (true, ec)) as [ok1 ec1] eqn:Hrj.
  assert (H1 : evaporatedAttributes ec1 = evaporatedAttributes ec
               /\ dataset ec1 = dataset ec).
  { destruct (usesRandomJungle (algorithmType ec)).
    - apply RunRandomJungle_carries_on in Hrj.
      destruct Hrj as (_ & (Hd & _ & Hev & _) & _). auto.
    - injection Hrj as _ <-. auto. }
  destruct H1 as [Hev1 Hd1].
  destruct ok1; cbn [negb]; [|intros [= <-]; cbn; auto].
  destruct (if usesReliefF (algorithmType ec1)
            then RunReliefF ec1 else Ret (true, ec1)) as [[ok2 ec2]| |] eqn:Hrf;
    cbn [bind]; try discriminate.
  assert (H2 : evaporatedAttributes ec2 = evaporatedAttributes ec
               /\ dataset ec2 = dataset ec).
  { destruct (usesReliefF (algorithmType ec1)).
    - apply RunReliefF_carries_on in Hrf.
      destruct Hrf as (_ & (Hd & _ & Hev & _) & _). split; congruence.
    - injection Hrf as _ <-. auto. }
  destruct H2 as [Hev2 Hd2].
  destruct ok2; cbn [negb]; [|intros [= <-]; cbn; auto].
  destruct (ComputeFreeEnergy 1 ec2) as [ok3 ec3] eqn:Hfe.
  apply ComputeFreeEnergy_carries_on in Hfe. destruct Hfe as (_ & Hd3 & Hev3).
  destruct ok3; cbn [negb]; [|intros [= <-]; cbn; split; congruence].
  destruct (numToRemovePerIteration ec3) as [per|]; [|discriminate].
  match goal with
  | |- context [clampToTarget ?a ?b ?c] =>
      set (n := clampToTarget a b c); destruct (n <? 1) eqn:Hn
  end; [intros [= <-]; split; congruence|].
  apply Z.ltb_ge in Hn.
  destruct (RemoveWorstAttributes n ec3) as [[ok4 ec4]| |] eqn:Hrm;
    cbn [bind]; try discriminate.
  destruct (RemoveWorstAttributes_true _ _ _ _ Hrm) as (-> & _). cbn [negb].
  intros [= <-].
  destruct (RemoveWorstAttributes_evaporates _ _ _ _ Hrm)
    as (worst & _ & Hlen & Hev4 & Hd4).
  exists worst. split; congruence.
Qed.

Lemma ECLoop_evaporates (fuel : nat) :
  forall (w : Z) (ec : EvaporativeCooling D E) (out : LoopExit D E),
    ECLoop fuel w ec = Ret out ->
    exists removed,
      evaporatedAttributes (exitObject out) = evaporatedAttributes ec ++ removed
      /\ dataset (exitObject out) = maskRemoveAll removed (dataset ec).
Proof.
  induction fuel as [|fuel IH]; intros w ec out; cbn [ECLoop];
    destruct (w >? numTargetAttributes ec); try discriminate;
    try (intros [= <-]; exists []; cbn; rewrite app_nil_r; auto).
  destruct (ECIteration w ec) as [step| |] eqn:Hstep; cbn [bind]; try discriminate.
  apply ECIteration_evaporates in Hstep.
  destruct step as [w' ec'|ec'|ec'].
  - destruct Hstep as (worst & Hev & Hd).
    intros Hloop. apply IH in Hloop. destruct Hloop as (removed & Hev' & Hd').
    exists (worst ++ removed). rewrite Hev', Hev, Hd', Hd, app_assoc, maskRemoveAll_app.
    auto.
  - intros [= <-]. exists []. cbn. rewrite app_nil_r. exact Hstep.
  - intros [= <-]. exists []. cbn. rewrite app_nil_r. exact Hstep.
Qed.

(** X11: whatever way [ComputeECScores] returns, [evaporatedAttributes] has
    only grown at its end, and the dataset is the one it started with after
    [MaskRemoveAttribute] was called with the names of the new entries, in
    their order: every change of the dataset is logged, also by a run that
    fails in a later iteration. *)
Theorem evaporated_attributes_log_the_pruning
    (fuel : nat) (ec ec' : EvaporativeCooling D E) (ok : bool) :
  ComputeECScores fuel ec = Ret (ok, ec') ->
  exists removed,
    evaporatedAttributes ec' = evaporatedAttributes ec ++ removed
    /\ dataset ec' = maskRemoveAll removed (dataset ec).
Proof.
  unfold ComputeECScores.
  destruct (uint (NumAttributes (dataset ec)) <=? numTargetAttributes ec).
  - intros [= <- <-]. exists []. cbn. rewrite app_nil_r. auto.
  - destruct (ECLoop fuel (uint (NumAttributes (dataset ec))) ec) as [out| |] eqn:Hloop;
      cbn [bind]; try discriminate.
    apply ECLoop_evaporates in Hloop. destruct Hloop as (removed & Hev & Hd).
    destruct out as [w ecl|ecl]; cbn [exitObject] in *.
    + unfold collectECScores. cbn -[sort].
      destruct (numTargetAttributes ecl <=? _); [|discriminate].
      intros [= <- <-]. exists removed. cbn -[sort]. auto.
    + intros [= <- <-]. exists removed. auto.
Qed.

End Evaporation.

Lemma evaporated_attributes_witness :
  exists removed,
    evaporatedAttributes (objectAfter (ComputeECScores 5 endToEndExample) endToEndExample)
    = evaporatedAttributes endToEndExample ++ removed
    /\ dataset (objectAfter (ComputeECScores 5 endToEndExample) endToEndExample)
       = maskRemoveAll removed (dataset endToEndExample).
Proof.
  exact (evaporated_attributes_log_the_pruning 5 endToEndExample _ true
           endToEndExample_runs).
Defined.

Section PathFacts.
Context {D E : Type} `{Collaborators D E}.

(** [ECIteration] returns a step exactly along one of the four paths. *)
Lemma ECIteration_path (w : Z) (ec : EvaporativeCooling D E) (step : LoopStep D E) :
  ECIteration w ec = Ret step <-> iteration_path w ec step.
Proof.
  split.
  - unfold ECIteration.
    fold (mainEffectsStage ec).
    destruct (mainEffectsStage ec) as [ok1 ec1] eqn:Hrj.
    fold (interactionsStage ec1).
    destruct ok1; cbn [negb]; [|intros [= <-]; now apply path_main_effects_failed].
    destruct (interactionsStage ec1) as [[ok2 ec2]| |] eqn:Hrf;
      cbn [bind]; try discriminate.
    assert (ok2 = true) as ->.
    { unfold interactionsStage in Hrf. destruct (usesReliefF (algorithmType ec1)).
      - now apply RunReliefF_true in Hrf.
      - now injection Hrf as -> _. }
    cbn [negb].
    destruct (ComputeFreeEnergy 1 ec2) as [ok3 ec3] eqn:Hfe.
    destruct ok3; cbn [negb];
      [|intros [= <-]; eapply path_free_energy_failed; eassumption].
    destruct (numToRemovePerIteration ec3) as [per|] eqn:Hper; [|discriminate].
    fold (requestedRemoval ec3 per).
    destruct (clampToTarget w (requestedRemoval ec3 per) (numTargetAttributes ec3) <? 1)
      eqn:Hn.
    + apply Z.ltb_lt in Hn. intros [= <-]. eapply path_break; eassumption.
    + apply Z.ltb_ge in Hn.
      destruct (RemoveWorstAttributes
                  (clampToTarget w (requestedRemoval ec3 per) (numTargetAttributes ec3))
                  ec3) as [[ok4 ec4]| |] eqn:Hrm; cbn [bind]; try discriminate.
      destruct (RemoveWorstAttributes_true _ _ _ _ Hrm) as (-> & _). cbn [negb].
      intros [= <-]. eapply path_prune; eassumption.
  - intros Hpath. unfold ECIteration.
    fold (mainEffectsStage ec).
    destruct Hpath as [ec1 Hrj|ec1 ec2 ec3 Hrj Hrf Hfe|ec1 ec2 ec3 per Hrj Hrf Hfe Hper Hn
                      |ec1 ec2 ec3 ec4 per Hrj Hrf Hfe Hper Hn Hrm];
      rewrite Hrj; cbn [negb]; [reflexivity| | |];
      fold (interactionsStage ec1); rewrite Hrf; cbn [bind negb]; rewrite Hfe;
      cbn [negb]; [reflexivity| |]; rewrite Hper; fold (requestedRemoval ec3 per).
    + apply Z.ltb_lt in Hn. rewrite Hn. reflexivity.
    + apply Z.ltb_ge in Hn. rewrite Hn, Hrm. reflexivity.
Qed.

End PathFacts.

Section Messages.
Context {D E : Type} `{Collaborators D E}.

Lemma warns_refl (ec : EvaporativeCooling D E) : warns ec ec.
Proof. exists []. rewrite app_nil_r. auto. Qed.

Lemma warns_quiet (ec ec' : EvaporativeCooling D E) : cerr ec' = cerr ec -> warns ec ec'.
Proof. intros Hc. exists []. rewrite app_nil_r. auto. Qed.

Lemma warns_one (msg : Diagnostic) (ec ec' : EvaporativeCooling D E) :
  is_warning msg = true -> cerr ec' = cerr ec ++ [msg] -> warns ec ec'.
Proof. intros Hw Hc. exists [msg]. cbn. rewrite Hw. auto. Qed.

Lemma warns_trans (ec1 ec2 ec3 : EvaporativeCooling D E) :
  warns ec1 ec2 -> warns ec2 ec3 -> warns ec1 ec3.
Proof.
  intros (w1 & H1 & Hw1) (w2 & H2 & Hw2). exists (w1 ++ w2).
  rewrite H2, H1, app_assoc, forallb_app, Hw1, Hw2. auto.
Qed.

Lemma warns_then_fails (ec1 ec2 ec3 : EvaporativeCooling D E) :
  warns ec1 ec2 -> fails_with_report ec2 ec3 -> fails_with_report ec1 ec3.
Proof.
  intros (w1 & H1 & Hw1) (w2 & errors & H2 & Hw2 & Herr). exists (w1 ++ w2), errors.
  rewrite H2, H1, !app_assoc, forallb_app, Hw1, Hw2. auto.
Qed.

Lemma mainEffectsStage_messages (ec ec1 : EvaporativeCooling D E) (ok : bool) :
  mainEffectsStage ec = (ok, ec1) ->
  if ok then warns ec ec1
  else cerr ec1 = cerr ec ++ [ERR_OPEN_IMPORTANCE_FILE; ERR_READ_RANDOM_JUNGLE_SCORES]
       \/ exists lineNumber columns,
           cerr ec1 = cerr ec ++ [ERR_PARSING_LINE lineNumber columns;
                                  ERR_READ_RANDOM_JUNGLE_SCORES].
Proof.
  unfold mainEffectsStage.
  destruct (usesRandomJungle (algorithmType ec));
    [|intros [= <- <-]; apply warns_refl].
  unfold RunRandomJungle, ReadRandomJungleScores.
  destruct (rjungle_run (engines ec) (dataset ec)) as [e [lines|]].
  - destruct (readImportanceLines (tl lines) 0 0%Q 0%Q [])
      as [[[scores mn] mx]|[[n columns] scores]].
    + destruct (Qeq_bool mn mx); intros [= <- <-].
      * apply warns_one with WARN_RJ_MIN_MAX_SAME; reflexivity.
      * apply warns_quiet; reflexivity.
    + intros [= <- <-]. right. exists n, columns. cbn. rewrite <- app_assoc. reflexivity.
  - intros [= <- <-]. left. cbn. rewrite <- app_assoc. reflexivity.
Qed.

Lemma interactionsStage_messages (ec ec2 : EvaporativeCooling D E) (ok : bool) :
  interactionsStage ec = Ret (ok, ec2) -> warns ec ec2.
Proof.
  unfold interactionsStage.
  destruct (usesReliefF (algorithmType ec));
    [|intros [= <- <-]; apply warns_refl].
  unfold RunReliefF.
  destruct (relieff_run (engines ec) (dataset ec)) as [e scores].
  destruct scores as [|firstScore rest]; [discriminate|].
  destruct (minMaxRFScores firstScore (firstScore :: rest)) as [mn mx].
  destruct (Qeq_bool mn mx); intros [= <- <-].
  - apply warns_one with WARN_RF_MIN_MAX_SAME; reflexivity.
  - apply warns_quiet; reflexivity.
Qed.

Lemma ComputeFreeEnergy_messages (temperature : Q)
    (ec ec3 : EvaporativeCooling D E) (ok : bool) :
  ComputeFreeEnergy temperature ec = (ok, ec3) ->
  if ok then cerr ec3 = cerr ec
  else (exists rjSize rfSize, cerr ec3 = cerr ec ++ [ERR_SCORES_LISTS_UNEQUAL rjSize rfSize])
       \/ cerr ec3 = cerr ec ++ [ERR_ALGORITHM_TYPE].
Proof.
  unfold ComputeFreeEnergy.
  destruct (algorithmType ec).
  - destruct (negb (Nat.eqb (List.length (rjScores ec)) (List.length (rfScores ec))));
      intros [= <- <-]; [left; eexists; eexists|]; reflexivity.
  - intros [= <- <-]; reflexivity.
  - intros [= <- <-]; reflexivity.
  - intros [= <- <-]. right. reflexivity.
Qed.

Lemma RemoveWorstAttributes_messages (numToRemove : Z)
    (ec ec4 : EvaporativeCooling D E) (ok : bool) :
  RemoveWorstAttributes numToRemove ec = Ret (ok, ec4) -> warns ec ec4.
Proof.
  unfold RemoveWorstAttributes.
  destruct (uint (uint (NumAttributes (dataset ec)) - numToRemove)
            <? numTargetAttributes ec); cbn -[sort];
    match goal with
    | |- context [removeWorstLoop ?c ?i ?s ?ev ?ds] =>
        destruct (removeWorstLoop c i s ev ds) as [[evaporated ds']|]
    end; try discriminate; intros [= <- <-].
  - apply warns_one with (WARN_REMOVE_ADJUSTING numToRemove (numTargetAttributes ec));
      reflexivity.
  - apply warns_quiet; reflexivity.
Qed.

Lemma ECIteration_messages (w : Z) (ec : EvaporativeCooling D E) (step : LoopStep D E) :
  ECIteration w ec = Ret step ->
  match step with
  | Continue _ ec' | Break ec' => warns ec ec'
  | ReturnFalse ec' => fails_with_report ec ec'
  end.
Proof.
  intros Hstep. apply ECIteration_path in Hstep.
  destruct Hstep as [ec1 Hrj|ec1 ec2 ec3 Hrj Hrf Hfe|ec1 ec2 ec3 per Hrj Hrf Hfe Hper Hn
                    |ec1 ec2 ec3 ec4 per Hrj Hrf Hfe Hper Hn Hrm];
    apply mainEffectsStage_messages in Hrj;
    try apply interactionsStage_messages in Hrf;
    try apply ComputeFreeEnergy_messages in Hfe;
    try apply RemoveWorstAttributes_messages in Hrm.
  - exists []. destruct Hrj as [Hc|(n & c & Hc)]; eexists; cbn; rewrite Hc, <- app_assoc;
      (split; [reflexivity|split; [reflexivity|constructor]]).
  - eapply warns_then_fails; [eapply warns_trans; eassumption|].
    exists []. destruct Hfe as [(a & b & Hc)|Hc]; eexists; cbn; rewrite Hc, <- app_assoc;
      (split; [reflexivity|split; [reflexivity|constructor]]).
  - eapply warns_trans; [eassumption|]. eapply warns_trans; [eassumption|].
    now apply warns_quiet.
  - eapply warns_trans; [eassumption|]. eapply warns_trans; [eassumption|].
    eapply warns_trans; [apply warns_quiet; eassumption|assumption].
Qed.

Lemma ECLoop_messages (fuel : nat) :
  forall (w : Z) (ec : EvaporativeCooling D E) (out : LoopExit D E),
    ECLoop fuel w ec = Ret out ->
    match out with
    | LoopDone _ ec' => warns ec ec'
    | LoopFalse ec' => fails_with_report ec ec'
    end.
Proof.
  induction fuel as [|fuel IH]; intros w ec out; cbn [ECLoop];
    destruct (w >? numTargetAttributes ec); try discriminate;
    try (intros [= <-]; apply warns_refl).
  destruct (ECIteration w ec) as [step| |] eqn:Hstep; cbn [bind]; try discriminate.
  apply ECIteration_messages in Hstep.
  destruct step as [w' ec'|ec'|ec'].
  - intros Hloop. apply IH in Hloop. destruct out.
    + eapply warns_trans; eassumption.
    + eapply warns_then_fails; eassumption.
  - intros [= <-]. exact Hstep.
  - intros [= <-]. exact Hstep.
Qed.

(** X12: what [ComputeECScores] writes to [cerr].  A run that returns [true]
    writes warnings only (equal minimum and maximum, adjusted removal count).
    A run that returns [false] ends its output with one of five error reports:
    too few attributes; importance file not opened, or a line of it not
    parsed, each followed by the messages of [RunRandomJungle] and of the
    loop; unequal score lists or undetermined mode, each followed by the
    message of the loop.  The messages for a failure of Relief-F or of the
    pruning are never written. *)
Theorem messages_of_a_run (fuel : nat) (ec ec' : EvaporativeCooling D E) (ok : bool) :
  ComputeECScores fuel ec = Ret (ok, ec') ->
  if ok then warns ec ec' else fails_with_report ec ec'.
Proof.
  unfold ComputeECScores.
  destruct (uint (NumAttributes (dataset ec)) <=? numTargetAttributes ec).
  - intros [= <- <-]. exists [], [ERR_FEWER_THAN_TARGET (uint (NumAttributes (dataset ec)))
                                                        (numTargetAttributes ec)].
    split; [reflexivity|]. split; [reflexivity|constructor].
  - destruct (ECLoop fuel (uint (NumAttributes (dataset ec))) ec) as [out| |] eqn:Hloop;
      cbn [bind]; try discriminate.
    apply ECLoop_messages in Hloop.
    destruct out as [w ecl|ecl].
    + unfold collectECScores. cbn -[sort].
      destruct (numTargetAttributes ecl <=? _); [|discriminate].
      intros [= <- <-]. eapply warns_trans; [exact Hloop|]. now apply warns_quiet.
    + intros [= <- <-]. exact Hloop.
Qed.

End Messages.

Section Convergence.
Context {D E : Type} `{Collaborators D E}.

(** With a fixed removal count of at least 1 and at most [target + 1] no round
    computes a count of 0. *)
Lemma ECIteration_no_break (w r : Z) (ec ec' : EvaporativeCooling D E) :
  is_uint w -> numTargetAttributes ec < w ->
  ec_iter_remove_percent (paramsMap ec) = None ->
  numToRemovePerIteration ec = Some r ->
  1 <= r <= numTargetAttributes ec + 1 ->
  0 <= numTargetAttributes ec ->
  ECIteration w ec <> Ret (Break ec').
Proof.
  intros Hw Hgt Hpercent Hper Hr Ht Hstep.
  pose proof (ECIteration_carries_on _ _ _ Hstep) as Hc. cbn in Hc.
  destruct Hc as (Htarget & _ & Hparams & Hsame & _).
  apply ECIteration_path in Hstep. inversion Hstep as [| |ec1 ec2 ec3 per _ _ _ Hper3 Hn|].
  subst ec3. unfold requestedRemoval in Hn.
  rewrite Hparams, Hpercent, Htarget in Hn.
  rewrite Hsame, Hper in Hper3. injection Hper3 as <-.
  rewrite clampToTarget_in_range in Hn by (unfold is_uint in *; lia). lia.
Qed.

(** X13: with a fixed removal count from 1 to [target + 1] (and no percentage)
    the loop never stalls nor overshoots: when it is left normally the working
    count is exactly the target, and it is left within [w - target]
    iterations. *)
Theorem fixed_count_converges_on_target (fuel : nat) :
  forall (w r : Z) (ec : EvaporativeCooling D E),
    is_uint w ->
    numTargetAttributes ec < w ->
    0 <= numTargetAttributes ec ->
    ec_iter_remove_percent (paramsMap ec) = None ->
    numToRemovePerIteration ec = Some r ->
    1 <= r <= numTargetAttributes ec + 1 ->
    (forall w' ecl,
        ECLoop fuel w ec = Ret (LoopDone w' ecl) -> w' = numTargetAttributes ec)
    /\ ((Z.to_nat (w - numTargetAttributes ec) <= fuel)%nat ->
        ECLoop fuel w ec <> OutOfFuel).
Proof.
  induction fuel as [|fuel IH]; intros w r ec Hw Hgt Ht Hpercent Hper Hr; cbn [ECLoop];
    replace (w >? numTargetAttributes ec) with true
      by (symmetry; rewrite Z.gtb_ltb; apply Z.ltb_lt; lia).
  - split; [discriminate|lia].
  - pose proof (ECIteration_no_fuel w ec) as Hnofuel.
    destruct (ECIteration w ec) as [step| |] eqn:Hstep; cbn [bind];
      [|split; discriminate|congruence].
    pose proof (ECIteration_carries_on _ _ _ Hstep) as Hc.
    destruct step as [w1 ec1|ec1|ec1].
    + destruct Hc as (Htarget & _ & Hparams & Hsame & _).
      assert (Hw1 : numTargetAttributes ec <= w1 < w).
      { apply (ECIteration_in_range w r ec ec1 w1); try assumption. lia. }
      destruct (Z.eq_dec w1 (numTargetAttributes ec)) as [Heq|Hne].
      * assert (Hdone : ECLoop fuel w1 ec1 = Ret (LoopDone w1 ec1)).
        { destruct fuel; cbn [ECLoop];
            replace (w1 >? numTargetAttributes ec1) with false
              by (symmetry; rewrite Z.gtb_ltb; apply Z.ltb_ge; lia); reflexivity. }
        rewrite Hdone. split; [intros w' ecl [= <- <-]; exact Heq|discriminate].
      * destruct (IH w1 r ec1) as [Hdone Hends]; rewrite ?Htarget; try congruence;
          try (unfold is_uint in *; lia).
        rewrite Htarget in *. split.
        -- exact Hdone.
        -- intros Hfuel. apply Hends. lia.
    + exfalso. exact (ECIteration_no_break w r ec ec1 Hw Hgt Hpercent Hper Hr Ht Hstep).
    + split; discriminate.
Qed.

(** The three scoring steps of a round leave configuration, dataset and
    evaporated attributes alone. *)
Lemma scoring_stages_frame (ec ec1 ec2 ec3 : EvaporativeCooling D E) (ok1 ok2 ok3 : bool) :
  mainEffectsStage ec = (ok1, ec1) ->
  interactionsStage ec1 = Ret (ok2, ec2) ->
  ComputeFreeEnergy 1 ec2 = (ok3, ec3) ->
  carries_on ec ec3
  /\ dataset ec3 = dataset ec
  /\ evaporatedAttributes ec3 = evaporatedAttributes ec.
Proof.
  unfold mainEffectsStage, interactionsStage. intros Hrj Hrf Hfe.
  assert (H1 : carries_on ec ec1 /\ dataset ec1 = dataset ec
               /\ evaporatedAttributes ec1 = evaporatedAttributes ec).
  { destruct (usesRandomJungle (algorithmType ec)).
    - apply RunRandomJungle_carries_on in Hrj.
      destruct Hrj as (Hc & (Hd & _ & Hev & _) & _). auto.
    - injection Hrj as _ <-. split; [apply carries_on_refl|auto]. }
  assert (H2 : carries_on ec1 ec2 /\ dataset ec2 = dataset ec1
               /\ evaporatedAttributes ec2 = evaporatedAttributes ec1).
  { destruct (usesReliefF (algorithmType ec1)).
    - apply RunReliefF_carries_on in Hrf.
      destruct Hrf as (Hc & (Hd & _ & Hev & _) & _). auto.
    - injection Hrf as _ <-. split; [apply carries_on_refl|auto]. }
  apply ComputeFreeEnergy_carries_on in Hfe.
  destruct H1 as (Hc1 & Hd1 & Hev1), H2 as (Hc2 & Hd2 & Hev2), Hfe as (Hc3 & Hd3 & Hev3).
  split; [|split; congruence].
  eapply carries_on_trans; [exact Hc1|]. eapply carries_on_trans; eassumption.
Qed.

Lemma requestedRemoval_frame (ec ec3 : EvaporativeCooling D E) (perIteration : Z) :
  paramsMap ec3 = paramsMap ec -> dataset ec3 = dataset ec ->
  requestedRemoval ec3 perIteration = requestedRemoval ec perIteration.
Proof. unfold requestedRemoval. intros -> ->. reflexivity. Qed.

(** X14: when the removal count of the first round is 0 (a fixed count of 0,
    or a percentage that gives less than one attribute) the loop is left in
    that round by [break]: a run that returns [true] has then evaporated
    nothing and left the dataset with all its attributes, above the target,
    and still returns [numTargetAttributes] EC scores. *)
Theorem zero_removal_count_stalls (fuel : nat) (ec : EvaporativeCooling D E) :
  numTargetAttributes ec < uint (NumAttributes (dataset ec)) ->
  (forall perIteration,
      numToRemovePerIteration ec = Some perIteration ->
      requestedRemoval ec perIteration = 0) ->
  ComputeECScores (S fuel) ec <> OutOfFuel
  /\ forall ec',
      ComputeECScores (S fuel) ec = Ret (true, ec') ->
      dataset ec' = dataset ec
      /\ evaporatedAttributes ec' = evaporatedAttributes ec
      /\ List.length (ecScores ec') = Z.to_nat (numTargetAttributes ec).
Proof.
  intros Hgt Hzero. unfold ComputeECScores.
  replace (uint (NumAttributes (dataset ec)) <=? numTargetAttributes ec) with false
    by (symmetry; apply Z.leb_gt; lia).
  cbn [ECLoop].
  replace (uint (NumAttributes (dataset ec)) >? numTargetAttributes ec) with true
    by (symmetry; rewrite Z.gtb_ltb; apply Z.ltb_lt; lia).
  pose proof (uint_range (NumAttributes (dataset ec))) as Hw.
  set (w := uint (NumAttributes (dataset ec))) in *.
  pose proof (ECIteration_no_fuel w ec) as Hnofuel.
  destruct (ECIteration w ec) as [step| |] eqn:Hstep; cbn [bind];
    [|split; discriminate|congruence].
  apply ECIteration_path in Hstep.
  inversion Hstep as [ec1 Hrj|ec1 ec2 ec3 Hrj Hrf Hfe|ec1 ec2 ec3 per Hrj Hrf Hfe Hper Hn
                     |ec1 ec2 ec3 ec4 per Hrj Hrf Hfe Hper Hn Hrm]; subst step; cbv iota; cbn [bind].
  - split; [discriminate|]. intros ec'. discriminate.
  - split; [discriminate|]. intros ec'. discriminate.
  - destruct (scoring_stages_frame _ _ _ _ _ _ _ Hrj Hrf Hfe)
      as ((Htarget & _) & Hd & Hev).
    split.
    + unfold collectECScores.
      match goal with |- context [if ?c then _ else _] => destruct c end; discriminate.
    + intros ec'. unfold collectECScores. cbn -[sort].
      destruct (numTargetAttributes ec3 <=? _) eqn:Hlen; [|discriminate].
      intros [= <-]. cbn -[sort]. split; [exact Hd|]. split; [exact Hev|].
      apply Z.leb_le in Hlen. rewrite length_firstn, Htarget in *. lia.
  - exfalso.
    destruct (scoring_stages_frame _ _ _ _ _ _ _ Hrj Hrf Hfe)
      as ((Htarget & _ & Hparams & Hsame & _) & Hd & _).
    rewrite (requestedRemoval_frame ec ec3 per Hparams Hd) in Hn.
    rewrite Hzero in Hn by congruence.
    unfold clampToTarget in Hn. rewrite Z.sub_0_r, uint_small, Htarget in Hn by exact Hw.
    replace (w <? numTargetAttributes ec) with false in Hn
      by (symmetry; apply Z.ltb_ge; lia).
    lia.
Qed.

End Convergence.

Lemma messages_of_a_run_witness :
  fails_with_report mismatchExample
                    (objectAfter (ComputeECScores 1 mismatchExample) mismatchExample).
Proof.
  apply (messages_of_a_run 1 mismatchExample _ false).
  vm_compute. reflexivity.
Defined.

Lemma fixed_count_converges_witness :
  (forall w' ecl, ECLoop 2 3 flatExample = Ret (LoopDone w' ecl) -> w' = 1)
  /\ ((Z.to_nat (3 - 1) <= 2)%nat -> ECLoop 2 3 flatExample <> OutOfFuel).
Proof.
  assert (Hw : is_uint 3) by (unfold is_uint, UINT_RANGE; lia).
  assert (Hgt : numTargetAttributes flatExample < 3) by reflexivity.
  assert (Ht : 0 <= numTargetAttributes flatExample) by (vm_compute; discriminate).
  assert (Hr : 1 <= 1 <= numTargetAttributes flatExample + 1)
    by (vm_compute; split; discriminate).
  exact (fixed_count_converges_on_target 2 3 1 flatExample Hw Hgt Ht eq_refl eq_refl Hr).
Defined.

Lemma zero_removal_count_witness :
  ComputeECScores 1 stalledExample <> OutOfFuel
  /\ forall ec',
      ComputeECScores 1 stalledExample = Ret (true, ec') ->
      dataset ec' = dataset stalledExample
      /\ evaporatedAttributes ec' = evaporatedAttributes stalledExample
      /\ List.length (ecScores ec') = Z.to_nat (numTargetAttributes stalledExample).
Proof.
  apply (zero_removal_count_stalls 0 stalledExample).
  - reflexivity.
  - intros perIteration _. reflexivity.
Defined.

(** Ten attributes, target 2, 5 percent per iteration: the run returns [true]
    with two EC scores and a dataset of ten attributes, and writes nothing to
    [cerr]. *)
Example stalled_run_returns_scores_of_an_unpruned_dataset :
  match ComputeECScores 1 stalledExample with
  | Ret (true, ec') =>
      names (ecScores ec') = ["a4"; "a9"]%string
      /\ dataset ec' = tenAttributes
      /\ evaporatedAttributes ec' = []
      /\ cerr ec' = []
  | _ => False
  end.
Proof. vm_compute. repeat split. Qed.

(* ================================================================= *)
(** ** Reporting: tables, rank correlations and the results file *)



Section ReportingFacts.
Context {D E : Type}.
Variable KendallTau : list string -> list string -> Q.




End ReportingFacts.




Section WritingFacts.
Context {D E : Type}.
Variable fixed8 : Q -> string.
Variable opens : string -> bool.

Lemma PrintAttributeScores_good (scores : EcScores) :
  forall written : list string,
    fold_left
      (fun (outFile : ofstream) (ecScoresIt : ScorePair) =>
         ofstream_line (fixed8 (fst ecScoresIt) ++ tab ++ snd ecScoresIt) outFile)
      scores
      {| is_open := true; failbit := false; badbit := false; lines := written |}
    = {| is_open := true; failbit := false; badbit := false;
         lines := written ++ map (scoreLine fixed8) scores |}.
Proof.
  induction scores as [|p scores IH]; intros written; cbn [fold_left map].
  - rewrite app_nil_r. reflexivity.
  - unfold ofstream_line at 2. cbn [failbit badbit orb is_open lines].
    rewrite IH, <- app_assoc. reflexivity.
Qed.

Lemma PrintAttributeScores_open (ec : EvaporativeCooling D E) :
  PrintAttributeScores fixed8 (ofstream_open true) ec
  = {| is_open := true; failbit := false; badbit := false;
       lines := map (scoreLine fixed8) (ecScores ec) |}.
Proof. apply (PrintAttributeScores_good (ecScores ec) []). Qed.

Lemma PrintAttributeScores_closed (ec : EvaporativeCooling D E) :
  PrintAttributeScores fixed8 (ofstream_open false) ec = ofstream_open false.
Proof.
  unfold PrintAttributeScores.
  induction (ecScores ec) as [|p scores IH]; cbn; [reflexivity|exact IH].
Qed.

(** X18: [WriteAttributeScores] writes to the file named by the base name and
    the suffix of the mode ([.ec], [.ec.rj], [.ec.rf]) one line per EC score,
    in the order of [ecScores]: the score, a tab, the name.  With an
    undetermined mode it writes a message and opens no file.  It never takes
    its [exit(1)]: a file that cannot be opened sets [failbit], which [bad()]
    does not read, so the method returns without a file and without a message.
    *)
Theorem results_file_lines (baseFilename : string) (ec : EvaporativeCooling D E) :
  (algorithmType ec = EC_UNDETERMINED ->
   WriteAttributeScores fixed8 opens baseFilename ec
   = WriteReturn [ERR_ANALYSIS_TYPE_UNDETERMINED] None)
  /\ (forall suffix : string,
         resultsSuffix (algorithmType ec) = Some suffix ->
         WriteAttributeScores fixed8 opens baseFilename ec
         = WriteReturn []
             (if opens (baseFilename ++ suffix)
              then Some ((baseFilename ++ suffix)%string,
                         map (scoreLine fixed8) (ecScores ec))
              else None))
  /\ (forall (code : Z) (msg : ReportDiagnostic),
         WriteAttributeScores fixed8 opens baseFilename ec <> WriteExit code msg).
Proof.
  unfold WriteAttributeScores. split; [|split].
  - intros ->. reflexivity.
  - intros suffix ->. cbv zeta.
    destruct (opens (baseFilename ++ suffix)).
    + rewrite PrintAttributeScores_open. reflexivity.
    + rewrite PrintAttributeScores_closed. reflexivity.
  - intros code msg.
    destruct (resultsSuffix (algorithmType ec)) as [suffix|]; [|discriminate].
    cbv zeta. destruct (opens (baseFilename ++ suffix)); discriminate.
Qed.

End WritingFacts.

Lemma list_ascii_of_string_app (s1 s2 : string) :
  list_ascii_of_string (s1 ++ s2) = list_ascii_of_string s1 ++ list_ascii_of_string s2.
Proof. induction s1 as [|c s1 IH]; cbn; [reflexivity|now rewrite IH]. Qed.

Lemma list_ascii_of_string_inj (s1 s2 : string) :
  list_ascii_of_string s1 = list_ascii_of_string s2 -> s1 = s2.
Proof.
  intros Heq. rewrite <- (string_of_list_ascii_of_string s1),
    <- (string_of_list_ascii_of_string s2), Heq. reflexivity.
Qed.

(** X19: the name of the results file determines the base name and the mode:
    two calls of [WriteAttributeScores] write the same file only with the same
    base name and the same mode. *)
Theorem results_file_names_are_distinct
    (baseFilename baseFilename' : string) (algorithmType algorithmType' : EcAlgorithmType)
    (suffix suffix' : string) :
  resultsSuffix algorithmType = Some suffix ->
  resultsSuffix algorithmType' = Some suffix' ->
  (baseFilename ++ suffix)%string = (baseFilename' ++ suffix')%string ->
  baseFilename = baseFilename' /\ algorithmType = algorithmType'.
Proof.
  intros Hs Hs' Heq.
  apply (f_equal list_ascii_of_string) in Heq.
  rewrite !list_ascii_of_string_app in Heq.
  apply (f_equal (@rev ascii)) in Heq. rewrite !rev_app_distr in Heq.
  destruct algorithmType, algorithmType'; cbn in Hs, Hs'; try discriminate;
    injection Hs as <-; injection Hs' as <-; cbn in Heq; try discriminate;
    (split; [|reflexivity]); apply list_ascii_of_string_inj;
    rewrite <- (rev_involutive (list_ascii_of_string baseFilename)),
      <- (rev_involutive (list_ascii_of_string baseFilename'));
    f_equal; congruence.
Qed.

Section RunThenWrite.
Context {D E : Type} `{Collaborators D E}.
Variable fixed8 : Q -> string.
Variable opens : string -> bool.





End RunThenWrite.

Lemma find_first_app (c : ascii) (s1 s2 : string) :
  ~ occurs c s1 -> find_first c (s1 ++ String c s2) = Some (String.length s1).
Proof.
  unfold occurs. induction s1 as [|a s1 IH]; cbn; intros Hno.
  - rewrite Ascii.eqb_refl. reflexivity.
  - destruct (Ascii.eqb_spec a c) as [->|Hne]; [exfalso; apply Hno; now left|].
    rewrite IH; [reflexivity|]. intros Hin. apply Hno. now right.
Qed.

Lemma string_take_app (s1 s2 : string) :
  string_take (String.length s1) (s1 ++ s2) = s1.
Proof. induction s1 as [|a s1 IH]; cbn; [now destruct s2|now rewrite IH]. Qed.

Lemma string_drop_past (s1 s2 : string) (c : ascii) :
  string_drop (S (String.length s1)) (s1 ++ String c s2) = string_drop 1 (String c s2).
Proof. induction s1 as [|a s1 IH]; cbn; [reflexivity|exact IH]. Qed.

(** X21: for a base name without a dot, [GetFileBasename] of the results file
    name gives the base name back, and [GetFileExtension] gives the suffix of
    the mode without its first dot. *)
Theorem results_file_name_round_trip
    (baseFilename : string) (algorithmType : EcAlgorithmType) (suffix : string) :
  resultsSuffix algorithmType = Some suffix ->
  ~ occurs "."%char baseFilename ->
  fits_size_t (baseFilename ++ suffix) ->
  GetFileBasename (baseFilename ++ suffix) = Some baseFilename
  /\ GetFileExtension (baseFilename ++ suffix) = Some (string_drop 1 suffix).
Proof.
  intros Hsuffix Hno Hfits.
  assert (exists rest, suffix = String "."%char rest) as (rest & ->).
  { destruct algorithmType; cbn in Hsuffix; try discriminate;
      injection Hsuffix as <-; eexists; reflexivity. }
  pose proof (find_first_app "."%char baseFilename rest Hno) as Hfind.
  split.
  - rewrite (GetFileBasename_dot _ _ Hfind). now rewrite string_take_app.
  - rewrite (GetFileExtension_dot _ _ Hfits Hfind). f_equal.
    apply string_drop_past.
Qed.


(** The first row of the table for [x] (0.2, 0.5, fused 0.7) and [y] (0.8,
    0.1, fused 0.9) names [x] for Relief-F and [y] for the two others, and the
    Random Jungle list of the object is left in the order [y], [x]. *)
Example score_table_rows_are_not_attributes :
  exists r : Reported (EvaporativeCooling MaskDataset FakeEngines) (list TableRow),
    PrintAllScoresTabular rankingExample = Ret r
    /\ map (fun row : TableRow => (snd (fst (fst row)), snd (snd (fst row)), snd (snd row)))
           (toCout r)
       = [("x", "y", "y"); ("y", "x", "x")]%string
    /\ names (rjScores (object r)) = ["y"; "x"]%string.
Proof. eexists. split; [vm_compute; reflexivity|]. split; reflexivity. Qed.



Lemma results_file_witness :
  WriteAttributeScores eightDecimals everyFileOpens "scores" writtenExample
  = WriteReturn []
      (Some ("scores.ec"%string,
             [("0.90000000" ++ tab ++ "y")%string;
              ("0.70000000" ++ tab ++ "x")%string])).
Proof.
  exact (proj1 (proj2 (results_file_lines eightDecimals everyFileOpens "scores"
                         writtenExample))
               ".ec"%string eq_refl).
Defined.

Lemma results_file_names_witness :
  "scores"%string = "scores"%string /\ EC_RJ = EC_RJ.
Proof.
  apply (results_file_names_are_distinct "scores" "scores" EC_RJ EC_RJ ".ec.rj" ".ec.rj");
    reflexivity.
Defined.


Lemma results_file_name_round_trip_witness :
  GetFileBasename ("scores" ++ ".ec.rj") = Some "scores"%string
  /\ GetFileExtension ("scores" ++ ".ec.rj") = Some (string_drop 1 ".ec.rj").
Proof.
  apply (results_file_name_round_trip "scores" EC_RJ ".ec.rj").
  - reflexivity.
  - unfold occurs. cbn. intuition discriminate.
  - unfold fits_size_t. vm_compute. reflexivity.
Defined.

Lemma unreadable_importance_file_witness :
  ComputeECScores 1 unreadableExample
  = Ret (false,
         report ERR_RANDOM_JUNGLE_FAILED
           (report ERR_READ_RANDOM_JUNGLE_SCORES
              (report ERR_OPEN_IMPORTANCE_FILE
                 (set_engines (fst (rjungle_run (engines unreadableExample)
                                                (dataset unreadableExample)))
                              unreadableExample)))).
Proof.
  apply (unreadable_importance_file_fails_the_run unreadableExample _ 0).
  - reflexivity.
  - reflexivity.
  - reflexivity.
Defined.

Lemma relieff_failure_witness : RunReliefF fusionExample = Undefined.
Proof.
  apply (proj1 relieff_failure_is_unreachable MaskDataset FakeEngines _ fusionExample
           (fst (relieff_run (engines fusionExample) (dataset fusionExample)))).
  reflexivity.
Defined.

Lemma single_engine_free_energy_witness :
  ComputeFreeEnergy 1 overshootSecond
  = (true, set_freeEnergyScores (rjScores overshootSecond) overshootSecond).
Proof.
  apply (proj1 single_engine_free_energy MaskDataset FakeEngines overshootSecond 1%Q).
  reflexivity.
Defined.

Lemma importance_header_witness :
  exists ec',
    ReadRandomJungleScores (Some [importanceHeader]) flatExample = (true, ec')
    /\ rjScores ec' = []
    /\ cerr ec' = cerr flatExample ++ [WARN_RJ_MIN_MAX_SAME].
Proof.
  apply (proj2 importance_header_is_not_parsed MaskDataset FakeEngines _ flatExample
           [importanceHeader]).
  reflexivity.
Defined.

(* ================================================================= *)
(** ** The EC scores of a successful run *)

Section LastRound.
Context {D E : Type} `{Collaborators D E}.

Lemma loop_reaches_target (w w' : Z) (ec ec' : EvaporativeCooling D E) :
  loop_reaches w ec w' ec' -> numTargetAttributes ec' = numTargetAttributes ec.
Proof.
  induction 1 as [|w w1 w' ec ec1 ec' Hgt Hstep Hreach IH]; [reflexivity|].
  apply ECIteration_carries_on in Hstep. destruct Hstep as (Htarget & _).
  congruence.
Qed.



End LastRound.



(* ================================================================= *)
(** ** Normalization in binary64 *)

(** *** The comparison of doubles *)

Lemma SFltb_irrefl (x : spec_float) : SFltb x x = false.
Proof.
  unfold SFltb, SFcompare.
  destruct x as [s|s| |s m e]; try destruct s; try reflexivity;
    rewrite Z.compare_refl, Pos.compare_cont_refl; reflexivity.
Qed.

Lemma SFltb_trans (x y z : spec_float) :
  SFltb x y = true -> SFltb y z = true -> SFltb x z = true.
Proof.
  unfold SFltb, SFcompare.
  destruct x as [sx|sx| |sx mx ex], y as [sy|sy| |sy my ey], z as [sz|sz| |sz mz ez];
    try destruct sx; try destruct sy; try destruct sz;
    try discriminate; try reflexivity;
    change (Pos.compare_cont Eq) with Pos.compare;
    destruct (Z.compare_spec ex ey); destruct (Z.compare_spec ey ez);
    destruct (Z.compare_spec ex ez);
    try destruct (Pos.compare_spec mx my); try destruct (Pos.compare_spec my mz);
    try destruct (Pos.compare_spec mx mz);
    cbn; try discriminate; try reflexivity; try lia.
Qed.

Lemma SFltb_not_eqb (x y : spec_float) : SFltb x y = true -> SFeqb x y = false.
Proof. unfold SFltb, SFeqb. destruct (SFcompare x y) as [[| |]|]; congruence. Qed.

Lemma ltb_irrefl (x : float) : (x <? x)%float = false.
Proof. rewrite FloatAxioms.ltb_spec. apply SFltb_irrefl. Qed.

Lemma ltb_trans (x y z : float) :
  (x <? y)%float = true -> (y <? z)%float = true -> (x <? z)%float = true.
Proof. rewrite !FloatAxioms.ltb_spec. apply SFltb_trans. Qed.

Lemma ltb_not_eqb (x y : float) : (x <? y)%float = true -> (x =? y)%float = false.
Proof. rewrite FloatAxioms.ltb_spec, FloatAxioms.eqb_spec. apply SFltb_not_eqb. Qed.

(** What is not below [m] is not below anything below [m]. *)
Lemma not_ltb_below (p k m : float) :
  (p <? m)%float = false -> (k <? m)%float = true -> (p <? k)%float = false.
Proof.
  intros Hpm Hkm. destruct (p <? k)%float eqn:Hpk; [|reflexivity].
  rewrite (ltb_trans p k m Hpk Hkm) in Hpm. discriminate.
Qed.

Lemma not_ltb_above (p k m : float) :
  (m <? p)%float = false -> (m <? k)%float = true -> (k <? p)%float = false.
Proof.
  intros Hmp Hmk. destruct (k <? p)%float eqn:Hkp; [|reflexivity].
  rewrite (ltb_trans m k p Hmk Hkp) in Hmp. discriminate.
Qed.

(** *** Minimum and maximum in binary64 *)

Lemma least64_singleton (p : ScorePair64) : least64 (fst p) [p].
Proof.
  split; [exists p; split; [left|]; reflexivity|].
  intros q [<-|[]]. apply ltb_irrefl.
Qed.

Lemma greatest64_singleton (p : ScorePair64) : greatest64 (fst p) [p].
Proof.
  split; [exists p; split; [left|]; reflexivity|].
  intros q [<-|[]]. apply ltb_irrefl.
Qed.

Lemma least64_keep (mn : float) (seen : EcScores64) (p : ScorePair64) :
  least64 mn seen -> (fst p <? mn)%float = false -> least64 mn (seen ++ [p]).
Proof.
  intros ((q & Hq & Hmn) & Hleast) Hp. split.
  - exists q. split; [apply in_or_app; now left|exact Hmn].
  - intros r Hr. apply in_app_or in Hr. destruct Hr as [Hr|[<-|[]]]; auto.
Qed.

Lemma least64_lower (mn : float) (seen : EcScores64) (p : ScorePair64) :
  least64 mn seen -> (fst p <? mn)%float = true -> least64 (fst p) (seen ++ [p]).
Proof.
  intros (_ & Hleast) Hp. split.
  - exists p. split; [apply in_or_app; right; now left|reflexivity].
  - intros r Hr. apply in_app_or in Hr. destruct Hr as [Hr|[<-|[]]].
    + apply not_ltb_below with mn; auto.
    + apply ltb_irrefl.
Qed.

Lemma greatest64_keep (mx : float) (seen : EcScores64) (p : ScorePair64) :
  greatest64 mx seen -> (mx <? fst p)%float = false -> greatest64 mx (seen ++ [p]).
Proof.
  intros ((q & Hq & Hmx) & Hgreatest) Hp. split.
  - exists q. split; [apply in_or_app; now left|exact Hmx].
  - intros r Hr. apply in_app_or in Hr. destruct Hr as [Hr|[<-|[]]]; auto.
Qed.

Lemma greatest64_raise (mx : float) (seen : EcScores64) (p : ScorePair64) :
  greatest64 mx seen -> (mx <? fst p)%float = true -> greatest64 (fst p) (seen ++ [p]).
Proof.
  intros (_ & Hgreatest) Hp. split.
  - exists p. split; [apply in_or_app; right; now left|reflexivity].
  - intros r Hr. apply in_app_or in Hr. destruct Hr as [Hr|[<-|[]]].
    + apply not_ltb_above with mx; auto.
    + apply ltb_irrefl.
Qed.

(** The reading loop after its first line: it tests the maximum only when
    the score is not below the minimum, which loses nothing as long as the
    maximum is not below the minimum. *)
Lemma minMaxRJScores64_next (rest : EcScores64) :
  forall (n : nat) (mn mx : float) (seen : EcScores64),
    least64 mn seen -> greatest64 mx seen -> (mx <? mn)%float = false ->
    least64 (fst (minMaxRJScores64 rest (S n) mn mx)) (seen ++ rest)
    /\ greatest64 (snd (minMaxRJScores64 rest (S n) mn mx)) (seen ++ rest).
Proof.
  induction rest as [|p rest IH]; intros n mn mx seen Hmin Hmax Hle.
  - cbn. rewrite app_nil_r. auto.
  - cbn [minMaxRJScores64 Nat.eqb].
    replace (seen ++ p :: rest) with ((seen ++ [p]) ++ rest)
      by (rewrite <- app_assoc; reflexivity).
    destruct (fst p <? mn)%float eqn:Hlow.
    + apply IH.
      * now apply least64_lower with mn.
      * apply greatest64_keep; [exact Hmax|].
        destruct (mx <? fst p)%float eqn:Habove; [|reflexivity].
        rewrite (ltb_trans _ _ _ Habove Hlow) in Hle. discriminate.
      * destruct (mx <? fst p)%float eqn:Habove; [|reflexivity].
        rewrite (ltb_trans _ _ _ Habove Hlow) in Hle. discriminate.
    + destruct (mx <? fst p)%float eqn:Hhigh.
      * apply IH.
        -- now apply least64_keep.
        -- now apply greatest64_raise with mx.
        -- exact Hlow.
      * apply IH.
        -- now apply least64_keep.
        -- now apply greatest64_keep.
        -- exact Hle.
Qed.

Lemma minMaxRJScores64_bounds (firstScore : ScorePair64) (rest : EcScores64) :
  least64 (fst (minMaxRJScores64 (firstScore :: rest) 0 0%float 0%float))
          (firstScore :: rest)
  /\ greatest64 (snd (minMaxRJScores64 (firstScore :: rest) 0 0%float 0%float))
                (firstScore :: rest).
Proof.
  cbn [minMaxRJScores64 Nat.eqb].
  apply (minMaxRJScores64_next rest 0 (fst firstScore) (fst firstScore) [firstScore]).
  - apply least64_singleton.
  - apply greatest64_singleton.
  - apply ltb_irrefl.
Qed.

Lemma minMaxRFScores64_from (scores seen : EcScores64) (mn mx : float) :
  least64 mn seen -> greatest64 mx seen ->
  let mm :=
    fold_left
      (fun (mm : float * float) (thisScore : ScorePair64) =>
         let '(minRFScore, maxRFScore) := mm in
         (if (fst thisScore <? minRFScore)%float then fst thisScore else minRFScore,
          if (maxRFScore <? fst thisScore)%float then fst thisScore else maxRFScore))
      scores (mn, mx) in
  least64 (fst mm) (seen ++ scores) /\ greatest64 (snd mm) (seen ++ scores).
Proof.
  revert seen mn mx. induction scores as [|p scores IH]; intros seen mn mx Hmin Hmax.
  - cbn. rewrite app_nil_r. auto.
  - cbn [fold_left].
    replace (seen ++ p :: scores) with ((seen ++ [p]) ++ scores)
      by (rewrite <- app_assoc; reflexivity).
    apply IH.
    + destruct (fst p <? mn)%float eqn:Hlow.
      * now apply least64_lower with mn.
      * now apply least64_keep.
    + destruct (mx <? fst p)%float eqn:Hhigh.
      * now apply greatest64_raise with mx.
      * now apply greatest64_keep.
Qed.

(** The scan of [RunReliefF] starts with the first score and meets it again
    as the first entry of the list. *)
Lemma minMaxRFScores64_bounds (firstScore : ScorePair64) (rest : EcScores64) :
  least64 (fst (minMaxRFScores64 firstScore (firstScore :: rest))) (firstScore :: rest)
  /\ greatest64 (snd (minMaxRFScores64 firstScore (firstScore :: rest)))
                (firstScore :: rest).
Proof.
  unfold minMaxRFScores64. cbn [fold_left]. rewrite !ltb_irrefl.
  apply (minMaxRFScores64_from rest [firstScore]).
  - apply least64_singleton.
  - apply greatest64_singleton.
Qed.

Lemma nth_error_rescale64 (mn mx : float) (scores : EcScores64)
    (i : nat) (s : float) (a : string) :
  nth_error scores i = Some (s, a) ->
  nth_error (map (rescale64 mn mx) scores) i = Some (((s - mn) / (mx - mn))%float, a).
Proof. intros Hi. rewrite nth_error_map, Hi. reflexivity. Qed.

Lemma names64_rescale64 (mn mx : float) (scores : EcScores64) :
  names64 (map (rescale64 mn mx) scores) = names64 scores.
Proof. unfold names64. rewrite map_map. reflexivity. Qed.

(* ================================================================= *)
(** ** Rounding to nearest is monotone *)

(** *** Binary digits *)

Lemma pow2_pos (k : Z) : 0 <= k -> 0 < 2 ^ k.
Proof. intros Hk. apply Z.pow_pos_nonneg; lia. Qed.

Lemma pow2_split (a b : Z) : 0 <= a <= b -> 2 ^ b = 2 ^ a * 2 ^ (b - a).
Proof. intros H. rewrite <- Z.pow_add_r by lia. f_equal. lia. Qed.

Lemma pow2_succ (k : Z) : 0 <= k -> 2 ^ (k + 1) = 2 * 2 ^ k.
Proof. intros Hk. rewrite Z.pow_add_r by lia. lia. Qed.

Lemma pow2_le (a b : Z) : 0 <= a <= b -> 2 ^ a <= 2 ^ b.
Proof. intros H. apply Z.pow_le_mono_r; lia. Qed.

Lemma pow2_lt (a b : Z) : 0 <= a < b -> 2 ^ a < 2 ^ b.
Proof. intros H. apply Z.pow_lt_mono_r; lia. Qed.

Lemma digits2_pos_bounds (p : positive) :
  2 ^ (Zpos (digits2_pos p) - 1) <= Zpos p < 2 ^ Zpos (digits2_pos p).
Proof.
  induction p as [p IH|p IH|]; cbn [digits2_pos].
  - rewrite Pos2Z.inj_succ. replace (Z.succ (Zpos (digits2_pos p)) - 1)
      with (Zpos (digits2_pos p) - 1 + 1) by lia.
    unfold Z.succ. rewrite !pow2_succ by lia. lia.
  - rewrite Pos2Z.inj_succ. replace (Z.succ (Zpos (digits2_pos p)) - 1)
      with (Zpos (digits2_pos p) - 1 + 1) by lia.
    unfold Z.succ. rewrite !pow2_succ by lia. lia.
  - cbn. lia.
Qed.

Lemma Zdigits2_nonneg (m : Z) : 0 <= Zdigits2 m.
Proof. destruct m; cbn; lia. Qed.

Lemma Zdigits2_pos (m : Z) : 0 < m -> 0 < Zdigits2 m.
Proof. destruct m; cbn; lia. Qed.

Lemma Zdigits2_bounds (m : Z) : 0 < m -> 2 ^ (Zdigits2 m - 1) <= m < 2 ^ Zdigits2 m.
Proof. destruct m as [|p|p]; try lia. intros _. apply digits2_pos_bounds. Qed.

Lemma Zdigits2_lt_pow2 (m : Z) : 0 <= m -> m < 2 ^ Zdigits2 m.
Proof.
  intros Hm. destruct (Z.eq_dec m 0) as [->|Hne]; [cbn; lia|].
  apply Zdigits2_bounds. lia.
Qed.

Lemma Zdigits2_unique (m d : Z) : 0 < d -> 2 ^ (d - 1) <= m < 2 ^ d -> Zdigits2 m = d.
Proof.
  intros Hd [Hlo Hhi].
  assert (0 < m) as Hm by (pose proof (pow2_pos (d - 1)); lia).
  pose proof (Zdigits2_bounds m Hm) as [Hlo' Hhi'].
  pose proof (Zdigits2_pos m Hm) as Hpos.
  destruct (Z.lt_trichotomy (Zdigits2 m) d) as [Hlt|[Heq|Hgt]]; [|exact Heq|].
  - pose proof (pow2_le (Zdigits2 m) (d - 1)). lia.
  - pose proof (pow2_le d (Zdigits2 m - 1)). lia.
Qed.

Lemma Zdigits2_le_of_lt_pow2 (m d : Z) : 0 <= d -> 0 <= m < 2 ^ d -> Zdigits2 m <= d.
Proof.
  intros Hd [Hlo Hhi]. destruct (Z.eq_dec m 0) as [->|Hne]; [cbn; lia|].
  pose proof (Zdigits2_bounds m ltac:(lia)) as [Hlo' _].
  destruct (Z_le_gt_dec (Zdigits2 m) d) as [Hle|Hgt]; [exact Hle|].
  pose proof (pow2_le d (Zdigits2 m - 1)). lia.
Qed.

Lemma Zdigits2_ge_of_pow2_le (m d : Z) : 0 < d -> 2 ^ (d - 1) <= m -> d <= Zdigits2 m.
Proof.
  intros Hd Hlo.
  assert (0 < m) as Hm by (pose proof (pow2_pos (d - 1)); lia).
  pose proof (Zdigits2_bounds m Hm) as [_ Hhi].
  pose proof (Zdigits2_pos m Hm).
  destruct (Z_le_gt_dec d (Zdigits2 m)) as [Hle|Hgt]; [exact Hle|].
  pose proof (pow2_le (Zdigits2 m) (d - 1)). lia.
Qed.

Lemma Zdigits2_le (m1 m2 : Z) : 0 <= m1 <= m2 -> Zdigits2 m1 <= Zdigits2 m2.
Proof.
  intros [H1 H12]. apply Zdigits2_le_of_lt_pow2; [apply Zdigits2_nonneg|].
  pose proof (Zdigits2_lt_pow2 m2). lia.
Qed.

Lemma Zdigits2_mul_pow2 (m k : Z) : 0 < m -> 0 <= k -> Zdigits2 (m * 2 ^ k) = Zdigits2 m + k.
Proof.
  intros Hm Hk. pose proof (Zdigits2_bounds m Hm) as [Hlo Hhi].
  pose proof (Zdigits2_pos m Hm). pose proof (pow2_pos k Hk).
  apply Zdigits2_unique; [lia|].
  replace (Zdigits2 m + k - 1) with (Zdigits2 m - 1 + k) by lia.
  rewrite !Z.pow_add_r by lia. nia.
Qed.

(** The digits of a quotient that lies between [2 ^ (d - 1)] and [2 ^ d]. *)
Lemma Zdigits2_div (N D d : Z) :
  0 < D -> 0 < d -> 2 ^ (d - 1) * D <= N < 2 ^ d * D -> Zdigits2 (N / D) = d.
Proof.
  intros HD Hd [Hlo Hhi]. apply Zdigits2_unique; [exact Hd|]. split.
  - apply Z.div_le_lower_bound; lia.
  - apply Z.div_lt_upper_bound; lia.
Qed.

(** *** The integer nearest to a quotient *)

Lemma RNE_bounds (N D : Z) : N / D <= RNE N D <= N / D + 1.
Proof.
  unfold RNE. destruct (2 * (N mod D) ?= D); [destruct (Z.even (N / D))| |]; lia.
Qed.

Lemma RNE_exact (N D : Z) : 0 < D -> N mod D = 0 -> RNE N D = N / D.
Proof.
  intros HD Hrem. unfold RNE. rewrite Hrem.
  destruct (Z.compare_spec (2 * 0) D); lia.
Qed.

Lemma RNE_mul (k D : Z) : 0 < D -> RNE (k * D) D = k.
Proof.
  intros HD. rewrite RNE_exact; [apply Z.div_mul; lia|exact HD|apply Z.mod_mul; lia].
Qed.

Lemma RNE_mono (N1 N2 D : Z) : 0 < D -> N1 <= N2 -> RNE N1 D <= RNE N2 D.
Proof.
  intros HD Hle.
  pose proof (Z.div_le_mono N1 N2 D HD Hle) as Hq.
  pose proof (Z.div_mod N1 D ltac:(lia)) as H1.
  pose proof (Z.div_mod N2 D ltac:(lia)) as H2.
  pose proof (Z.mod_pos_bound N1 D HD) as Hr1.
  pose proof (Z.mod_pos_bound N2 D HD) as Hr2.
  destruct (Z.eq_dec (N1 / D) (N2 / D)) as [Heq|Hne].
  - assert (N1 mod D <= N2 mod D) as Hr by nia.
    unfold RNE. rewrite Heq.
    destruct (Z.compare_spec (2 * (N1 mod D)) D), (Z.compare_spec (2 * (N2 mod D)) D);
      try destruct (Z.even (N2 / D)); lia.
  - pose proof (RNE_bounds N1 D). pose proof (RNE_bounds N2 D). lia.
Qed.

Lemma RNE_scale (N D k : Z) : 0 < D -> 0 < k -> RNE (N * k) (D * k) = RNE N D.
Proof.
  intros HD Hk. unfold RNE.
  rewrite Z.div_mul_cancel_r by lia.
  rewrite Z.mul_mod_distr_r by lia.
  destruct (Z.compare_spec (2 * (N mod D * k)) (D * k)),
    (Z.compare_spec (2 * (N mod D)) D); try reflexivity; nia.
Qed.

Lemma RNE_ge_of_mul_le (N D k : Z) : 0 < D -> k * D <= N -> k <= RNE N D.
Proof.
  intros HD Hle. rewrite <- (RNE_mul k D HD). apply RNE_mono; assumption.
Qed.

Lemma RNE_nonneg (N D : Z) : 0 < D -> 0 <= N -> 0 <= RNE N D.
Proof. intros HD HN. apply RNE_ge_of_mul_le; lia. Qed.

(** *** Shifting with a round bit and a sticky bit *)

Lemma loc_of_cases (N D : Z) :
  0 < D ->
  (N mod D = 0 /\ loc_of N D = loc_Exact)
  \/ (0 < N mod D /\ 2 * (N mod D) < D /\ loc_of N D = loc_Inexact Lt)
  \/ (2 * (N mod D) = D /\ loc_of N D = loc_Inexact Eq)
  \/ (D < 2 * (N mod D) /\ loc_of N D = loc_Inexact Gt).
Proof.
  intros HD. pose proof (Z.mod_pos_bound N D HD) as Hr. unfold loc_of.
  destruct (Z.eqb_spec (N mod D) 0) as [Hz|Hnz]; [left; auto|].
  destruct (Z.compare_spec (2 * (N mod D)) D); [right; right; left|right; left|right; right; right];
    repeat split; try reflexivity; try lia.

Qed.

Lemma located_of_loc (N D : Z) : located N D (shr_record_of_loc (N / D) (loc_of N D)).
Proof.
  split; destruct (loc_of N D) as [|[| |]]; reflexivity.
Qed.

Lemma round_nearest_even_located (N D : Z) (mrs : shr_record) :
  0 < D -> located N D mrs ->
  round_nearest_even (shr_m mrs) (loc_of_shr_record mrs) = RNE N D.
Proof.
  intros HD [-> ->]. unfold RNE.
  destruct (loc_of_cases N D HD) as [[Hr ->]|[(Hr & Hlt & ->)|[[Hr ->]|[Hr ->]]]];
    cbn [round_nearest_even].
  - rewrite Hr. destruct (Z.compare_spec (2 * 0) D); lia.
  - destruct (Z.compare_spec (2 * (N mod D)) D); lia.
  - destruct (Z.compare_spec (2 * (N mod D)) D); try lia; reflexivity.
  - destruct (Z.compare_spec (2 * (N mod D)) D); lia.
Qed.

Lemma shr_1_nonneg (m : Z) (r s : bool) :
  0 <= m ->
  shr_1 {| shr_m := m; shr_r := r; shr_s := s |}
  = {| shr_m := m / 2; shr_r := Z.odd m; shr_s := r || s |}.
Proof.
  intros Hm. destruct m as [|[p|p|]|p]; try lia; cbn [shr_1]; f_equal.
  - apply Z.div_unique with (r := 1); lia.
  - apply Z.div_unique with (r := 0); lia.
Qed.

Lemma shr_1_located (N D : Z) (mrs : shr_record) :
  0 <= N -> 0 < D -> located N D mrs -> located N (D * 2) (shr_1 mrs).
Proof.
  intros HN HD [Hm Hloc].
  pose proof (Z.div_mod N D ltac:(lia)) as Hdm.
  pose proof (Z.mod_pos_bound N D HD) as Hr.
  assert (0 <= N / D) as Hq by (apply Z.div_pos; lia).
  pose proof (Z.div_mod (N / D) 2 ltac:(lia)) as Hdm2.
  pose proof (Z.mod_pos_bound (N / D) 2 ltac:(lia)) as Hr2.
  assert (HqD : N / (D * 2) = N / D / 2) by (rewrite Z.div_div by lia; reflexivity).
  assert (HrD : N mod (D * 2) = N mod D + D * ((N / D) mod 2)).
  { symmetry. apply Z.mod_unique_pos with (q := N / D / 2); nia. }
  destruct mrs as [m r s]. cbn [shr_m] in Hm. subst m.
  rewrite (shr_1_nonneg _ _ _ Hq). unfold located. cbn [shr_m].
  split; [symmetry; exact HqD|].
  rewrite (Zmod_odd (N / D)) in HrD.
  assert (HD2 : 0 < D * 2) by lia.
  destruct (loc_of_cases N D HD) as [[Hrem Hl]|[(Hrem & Hlt & Hl)|[[Hrem Hl]|[Hrem Hl]]]];
    rewrite Hl in Hloc; destruct r, s; try discriminate Hloc; clear Hloc Hl;
    destruct (loc_of_cases N (D * 2) HD2)
      as [[Hrem' ->]|[(Hrem' & Hlt' & ->)|[[Hrem' ->]|[Hrem' ->]]]];
    destruct (Z.odd (N / D)); cbn [loc_of_shr_record orb];
    try reflexivity; exfalso; lia.
Qed.

Lemma iter_pos_nat {A : Type} (f : A -> A) (p : positive) :
  forall x, iter_pos f p x = Nat.iter (Pos.to_nat p) f x.
Proof.
  induction p as [p IH|p IH|]; intros x; cbn [iter_pos].
  - rewrite !IH, Pos2Nat.inj_xI.
    replace (S (2 * Pos.to_nat p)) with (Pos.to_nat p + S (Pos.to_nat p))%nat by lia.
    rewrite Nat.iter_add, Nat.iter_succ_r. reflexivity.
  - rewrite !IH, Pos2Nat.inj_xO.
    replace (2 * Pos.to_nat p)%nat with (Pos.to_nat p + Pos.to_nat p)%nat by lia.
    rewrite Nat.iter_add. reflexivity.
  - reflexivity.
Qed.

Lemma shr_iter_located (N D : Z) (mrs : shr_record) (n : nat) :
  0 <= N -> 0 < D -> located N D mrs ->
  located N (D * 2 ^ Z.of_nat n) (Nat.iter n shr_1 mrs).
Proof.
  intros HN HD Hloc. induction n as [|n IH].
  - cbn [Nat.iter]. change (2 ^ Z.of_nat 0) with 1. rewrite Z.mul_1_r. exact Hloc.
  - cbn [Nat.iter]. rewrite Nat2Z.inj_succ. unfold Z.succ.
    rewrite pow2_succ by lia.
    replace (D * (2 * 2 ^ Z.of_nat n)) with (D * 2 ^ Z.of_nat n * 2) by lia.
    apply shr_1_located; [exact HN| |exact IH].
    pose proof (pow2_pos (Z.of_nat n)). nia.
Qed.

(** [shr] by [n] places divides by [2 ^ n], and keeps the place of the
    quotient in its two bits. *)
Lemma shr_located (N D : Z) (mrs : shr_record) (e n : Z) :
  0 <= N -> 0 < D -> 0 <= n -> located N D mrs ->
  located N (D * 2 ^ n) (fst (shr mrs e n)) /\ snd (shr mrs e n) = e + n.
Proof.
  intros HN HD Hn Hloc. destruct n as [|p|p]; try lia; cbn [shr fst snd].
  - change (2 ^ 0) with 1. rewrite Z.mul_1_r, Z.add_0_r. auto.
  - split; [|reflexivity]. rewrite iter_pos_nat.
    rewrite <- (positive_nat_Z p). apply shr_iter_located; assumption.
Qed.

Lemma vle_scale (m1 e1 m2 e2 k : Z) :
  k <= e1 -> k <= e2 ->
  (vle m1 e1 m2 e2 <-> m1 * 2 ^ (e1 - k) <= m2 * 2 ^ (e2 - k)).
Proof.
  intros H1 H2. unfold vle. set (j := Z.min e1 e2).
  assert (k <= j) as Hkj by (unfold j; lia).
  assert (j <= e1 /\ j <= e2) as [Hj1 Hj2] by (unfold j; lia).
  rewrite (pow2_split (e1 - j) (e1 - k)) by lia.
  rewrite (pow2_split (e2 - j) (e2 - k)) by lia.
  replace (e1 - k - (e1 - j)) with (j - k) by lia.
  replace (e2 - k - (e2 - j)) with (j - k) by lia.
  pose proof (pow2_pos (j - k) ltac:(lia)) as Hp.
  split; intros H; nia.
Qed.

Lemma Pos_iter_xO (m d : positive) : Zpos (Pos.iter xO m d) = Zpos m * 2 ^ Zpos d.
Proof.
  induction d as [|d IH] using Pos.peano_ind.
  - cbn [Pos.iter]. change (2 ^ 1) with 2. lia.
  - rewrite Pos.iter_succ, Pos2Z.inj_xO, IH, Pos2Z.inj_succ. unfold Z.succ.
    rewrite pow2_succ by lia. lia.
Qed.

Lemma shl_align_spec (mx : positive) (ex ex' : Z) :
  snd (shl_align mx ex ex') = Z.min ex ex'
  /\ Zpos (fst (shl_align mx ex ex')) = Zpos mx * 2 ^ (ex - Z.min ex ex').
Proof.
  unfold shl_align. destruct (ex' - ex) as [|d|d] eqn:Hd; cbn [fst snd].
  - replace (Z.min ex ex') with ex by lia. replace (ex - ex) with 0 by lia.
    rewrite Z.pow_0_r. lia.
  - replace (Z.min ex ex') with ex by lia. replace (ex - ex) with 0 by lia.
    rewrite Z.pow_0_r. lia.
  - replace (Z.min ex ex') with ex' by lia. split; [reflexivity|].
    rewrite Pos_iter_xO. f_equal. f_equal. lia.
Qed.

Lemma new_location_loc_of (N D : Z) : 0 < D -> new_location D (N mod D) = loc_of N D.
Proof.
  intros HD. pose proof (Z.mod_pos_bound N D HD) as Hr.
  unfold new_location, loc_of, new_location_even, new_location_odd.
  pose proof (Zmod_even D) as Hev. pose proof (Z.div_mod D 2 ltac:(lia)) as Hdm.
  destruct (Z.even D); destruct (N mod D =? 0); try reflexivity.
  f_equal.
  destruct (Z.compare_spec (2 * (N mod D) + 1) D), (Z.compare_spec (2 * (N mod D)) D);
    try reflexivity; lia.
Qed.

Lemma scaled_shift (emax k j : Z) (f : spec_float) :
  j <= k -> k <= expo emax f ->
  scaled j f = scaled k f * 2 ^ (k - j).
Proof.
  intros Hjk Hk. destruct f as [s|s| |s m e]; cbn [scaled expo] in *; try lia.
  rewrite <- Z.mul_assoc, <- Z.pow_add_r by lia. do 2 f_equal. lia.
Qed.

Section Rounding.
Variables prec emax : Z.
Hypothesis Hprec : 0 < prec.
Hypothesis Hemax : prec < emax.

Local Abbreviation emin := (SpecFloat.emin prec emax).
Local Abbreviation fexp := (fexp prec emax).

Lemma fexp_spec (e : Z) : fexp e = Z.max (e - prec) emin.
Proof. reflexivity. Qed.

Lemma fexp_mono (e1 e2 : Z) : e1 <= e2 -> fexp e1 <= fexp e2.
Proof. rewrite !fexp_spec. lia. Qed.

Lemma fexp_ge_emin (e : Z) : emin <= fexp e.
Proof. rewrite fexp_spec. lia. Qed.

Lemma SF_of_shr_fexp_still (sx : bool) (m e : Z) :
  fexp (Zdigits2 m + e) <= e -> round_finish prec emax sx m e = SF_of prec emax sx m e.
Proof.
  intros Hle. unfold round_finish, shr_fexp.
  destruct (fexp (Zdigits2 m + e) - e) as [|p|p] eqn:Hn; try lia; cbn [shr];
    destruct m; reflexivity.
Qed.

Lemma round_finish_normal (sx : bool) (m c : Z) :
  0 <= m <= 2 ^ prec -> emin <= c ->
  round_finish prec emax sx m c
  = SF_of prec emax sx (fst (normal_form prec m c)) (snd (normal_form prec m c)).
Proof.
  intros [Hlo Hhi] Hc. unfold normal_form.
  destruct (Z.eqb_spec m (2 ^ prec)) as [->|Hne]; cbn [fst snd].
  - unfold round_finish, shr_fexp.
    assert (Hd : Zdigits2 (2 ^ prec) = prec + 1).
    { apply Zdigits2_unique; [lia|]. replace (prec + 1 - 1) with prec by lia.
      pose proof (pow2_lt prec (prec + 1)). lia. }
    rewrite Hd, fexp_spec.
    replace (Z.max (prec + 1 + c - prec) emin - c) with 1 by lia.
    pose proof (pow2_pos prec ltac:(lia)) as Hpos.
    cbn [shr iter_pos].
    replace (shr_record_of_loc (2 ^ prec) loc_Exact)
      with {| shr_m := 2 ^ prec; shr_r := false; shr_s := false |} by reflexivity.
    rewrite shr_1_nonneg by lia. cbn [shr_m].
    replace (2 ^ prec / 2) with (2 ^ (prec - 1)); [reflexivity|].
    rewrite (pow2_split (prec - 1) prec) by lia.
    replace (prec - (prec - 1)) with 1 by lia. change (2 ^ 1) with 2.
    rewrite Z.div_mul by lia. reflexivity.
  - apply SF_of_shr_fexp_still. rewrite fexp_spec.
    assert (Zdigits2 m <= prec).
    { apply Zdigits2_le_of_lt_pow2; lia. }
    lia.
Qed.

Lemma normal_form_canon (m c : Z) :
  0 <= m <= 2 ^ prec -> emin <= c -> (c = emin \/ 2 ^ (prec - 1) <= m) ->
  canon prec emax (fst (normal_form prec m c)) (snd (normal_form prec m c)).
Proof.
  intros [Hlo Hhi] Hc Hnorm. unfold normal_form, canon.
  pose proof (pow2_pos (prec - 1) ltac:(lia)) as Hpos.
  pose proof (pow2_lt (prec - 1) prec ltac:(lia)) as Hlt.
  destruct (Z.eqb_spec m (2 ^ prec)) as [->|Hne]; cbn [fst snd]; lia.
Qed.

Lemma normal_form_value (m c k : Z) :
  k <= c ->
  fst (normal_form prec m c) * 2 ^ (snd (normal_form prec m c) - k) = m * 2 ^ (c - k).
Proof.
  intros Hk. unfold normal_form.
  destruct (Z.eqb_spec m (2 ^ prec)) as [->|Hne]; cbn [fst snd]; [|reflexivity].
  rewrite <- !Z.pow_add_r by lia. f_equal. lia.
Qed.

(** Floats in canonical form compare as their values do. *)
Lemma SF_of_le (m1 e1 m2 e2 : Z) :
  canon prec emax m1 e1 -> canon prec emax m2 e2 -> vle m1 e1 m2 e2 ->
  SFleb (SF_of prec emax false m1 e1) (SF_of prec emax false m2 e2) = true.
Proof.
  intros (Hm1 & He1 & Hn1) (Hm2 & He2 & Hn2) Hle.
  pose proof (pow2_pos (prec - 1) ltac:(lia)) as Hpos.
  assert (Hpp : 2 ^ prec = 2 * 2 ^ (prec - 1)).
  { rewrite <- pow2_succ by lia. f_equal. lia. }
  destruct (Z.eq_dec m1 0) as [->|Hnz1].
  { cbn [SF_of]. destruct m2 as [|p2|p2]; try lia; cbn [SF_of];
      [reflexivity|]. destruct (e2 <=? emax - prec); reflexivity. }
  assert (0 < m2) as Hpos2.
  { unfold vle in Hle.
    pose proof (pow2_pos (e1 - Z.min e1 e2) ltac:(lia)).
    pose proof (pow2_pos (e2 - Z.min e1 e2) ltac:(lia)). nia. }
  destruct m1 as [|p1|p1]; try lia. destruct m2 as [|p2|p2]; try lia.
  cbn [SF_of].
  destruct (Z.le_gt_cases e1 e2) as [H12|H21].
  - apply (vle_scale _ _ _ _ e1) in Hle; try lia.
    replace (e1 - e1) with 0 in Hle by lia. rewrite Z.pow_0_r, Z.mul_1_r in Hle.
    destruct (Z.leb_spec e2 (emax - prec)) as [Hf2|Hinf2].
    + destruct (Z.leb_spec e1 (emax - prec)) as [Hf1|Hinf1]; [|lia].
      unfold SFleb, SFcompare.
      destruct (Z.compare_spec e1 e2) as [Heq|Hlt|Hgt]; try reflexivity; try lia.
      subst e2. replace (e1 - e1) with 0 in Hle by lia.
      rewrite Z.pow_0_r, Z.mul_1_r in Hle.
      change (Pos.compare_cont Eq p1 p2) with (Pos.compare p1 p2).
      destruct (Pos.compare_spec p1 p2); try reflexivity. lia.
    + destruct (e1 <=? emax - prec); reflexivity.
  - exfalso. apply (vle_scale _ _ _ _ e2) in Hle; try lia.
    replace (e2 - e2) with 0 in Hle by lia. rewrite Z.pow_0_r, Z.mul_1_r in Hle.
    pose proof (pow2_le 1 (e1 - e2) ltac:(lia)) as Hp. change (2 ^ 1) with 2 in Hp.
    destruct Hn1 as [->|Hn1]; [lia|]. nia.
Qed.

(** The first half of [binary_round_aux]: right shifts to the canonical
    exponent, then the nearest integer. *)
Lemma binary_round_aux_fine (sx : bool) (N D a : Z) :
  fine prec emax N D a ->
  binary_round_aux prec emax sx (N / D) a (loc_of N D) = round_to prec emax sx N D a.
Proof.
  intros (HN & HD & Ha). unfold binary_round_aux, round_to.
  set (c := fexp (Zdigits2 (N / D) + a)) in *.
  unfold shr_fexp at 1. fold c.
  destruct (shr_located N D (shr_record_of_loc (N / D) (loc_of N D)) a (c - a)
              HN HD ltac:(lia) (located_of_loc N D)) as [Hloc He].
  destruct (shr (shr_record_of_loc (N / D) (loc_of N D)) a (c - a)) as [mrs' e'].
  cbn [fst snd] in Hloc, He. subst e'. replace (a + (c - a)) with c by lia.
  rewrite (round_nearest_even_located N (D * 2 ^ (c - a)) mrs'); [|
    pose proof (pow2_pos (c - a) ltac:(lia)); nia|exact Hloc].
  unfold round_finish.
  destruct (shr_fexp prec emax (RNE N (D * 2 ^ (c - a))) c loc_Exact) as [mrs'' e''].
  unfold SF_of. destruct (shr_m mrs''); reflexivity.
Qed.

(** The rounded mantissa has at most [prec] digits, or is [2 ^ prec]; above
    the least exponent it has no fewer. *)
Lemma round_to_mantissa (N D a : Z) :
  fine prec emax N D a ->
  let c := fexp (Zdigits2 (N / D) + a) in
  let m := RNE N (D * 2 ^ (c - a)) in
  0 <= m <= 2 ^ prec /\ emin <= c /\ (c = emin \/ 2 ^ (prec - 1) <= m).
Proof.
  intros (HN & HD & Ha) c m.
  assert (0 <= N / D) as Hq by (apply Z.div_pos; lia).
  pose proof (pow2_pos (c - a) ltac:(lia)) as Hpn.
  assert (0 < D * 2 ^ (c - a)) as HD' by nia.
  assert (Hdiv : N / (D * 2 ^ (c - a)) = N / D / 2 ^ (c - a))
    by (rewrite Z.div_div by lia; reflexivity).
  pose proof (RNE_bounds N (D * 2 ^ (c - a))) as Hb. fold m in Hb. rewrite Hdiv in Hb.
  pose proof (Zdigits2_nonneg (N / D)) as Hdn.
  pose proof (Zdigits2_lt_pow2 (N / D) Hq) as Hlt.
  assert (Hc : c = Z.max (Zdigits2 (N / D) + a - prec) emin) by reflexivity.
  split; [split|split].
  - apply RNE_nonneg; assumption.
  - assert (N / D / 2 ^ (c - a) < 2 ^ prec); [|lia].
    apply Z.div_lt_upper_bound; [lia|].
    rewrite <- Z.pow_add_r by lia.
    pose proof (pow2_le (Zdigits2 (N / D)) (c - a + prec) ltac:(lia)). lia.
  - lia.
  - destruct (Z.eq_dec c emin) as [He|Hne]; [left; exact He|right].
    assert (c = Zdigits2 (N / D) + a - prec) as Hc' by lia.
    assert (0 < Zdigits2 (N / D)) as Hdpos by lia.
    assert (0 < N / D) as Hqpos by (destruct (N / D); cbn in Hdpos; lia).
    pose proof (Zdigits2_bounds (N / D) Hqpos) as [Hlo _].
    assert (2 ^ (prec - 1) <= N / D / 2 ^ (c - a)); [|lia].
    apply Z.div_le_lower_bound; [lia|].
    rewrite <- Z.pow_add_r by lia.
    replace (c - a + (prec - 1)) with (Zdigits2 (N / D) - 1) by lia. exact Hlo.
Qed.

(** Refining a fine representation by [k] more bits changes nothing. *)
Lemma fine_refine (N D a k : Z) :
  fine prec emax N D a -> 0 <= k ->
  fine prec emax (N * 2 ^ k) D (a - k)
  /\ fexp (Zdigits2 (N * 2 ^ k / D) + (a - k)) = fexp (Zdigits2 (N / D) + a).
Proof.
  intros (HN & HD & Ha) Hk.
  pose proof (pow2_pos k Hk) as Hpk.
  assert (0 <= N / D) as Hq by (apply Z.div_pos; lia).
  pose proof (Z.div_mod N D ltac:(lia)) as Hdm.
  pose proof (Z.mod_pos_bound N D HD) as Hr.
  assert (Hc : fexp (Zdigits2 (N * 2 ^ k / D) + (a - k)) = fexp (Zdigits2 (N / D) + a)).
  { destruct (Z.eq_dec (N / D) 0) as [Hz|Hnz].
    - rewrite Hz in *. cbn [Zdigits2] in *. rewrite fexp_spec in Ha.
      assert (0 <= N * 2 ^ k / D < 2 ^ k) as Hsmall.
      { split; [apply Z.div_pos; nia|]. apply Z.div_lt_upper_bound; nia. }
      pose proof (Zdigits2_le_of_lt_pow2 _ k Hk Hsmall).
      pose proof (Zdigits2_nonneg (N * 2 ^ k / D)).
      rewrite !fexp_spec. lia.
    - assert (0 < N / D) as Hqpos by lia.
      pose proof (Zdigits2_bounds (N / D) Hqpos) as [Hlo Hhi].
      pose proof (Zdigits2_pos (N / D) Hqpos) as Hdpos.
      rewrite (Zdigits2_div (N * 2 ^ k) D (Zdigits2 (N / D) + k)); [f_equal; lia|lia|lia|].
      replace (Zdigits2 (N / D) + k - 1) with (Zdigits2 (N / D) - 1 + k) by lia.
      rewrite (Z.pow_add_r 2 (Zdigits2 (N / D) - 1) k) by lia.
      rewrite (Z.pow_add_r 2 (Zdigits2 (N / D)) k) by lia.
      set (q := N / D) in *. set (lo := 2 ^ (Zdigits2 q - 1)) in *.
      set (hi := 2 ^ Zdigits2 q) in *.
      assert (lo * D <= N) by nia. assert (N < hi * D) by nia.
      split; nia. }
  split; [|exact Hc]. split; [nia|]. split; [exact HD|]. rewrite Hc. lia.
Qed.

Lemma round_to_refine (sx : bool) (N D a k : Z) :
  fine prec emax N D a -> 0 <= k ->
  round_to prec emax sx (N * 2 ^ k) D (a - k) = round_to prec emax sx N D a.
Proof.
  intros Hfine Hk. destruct (fine_refine N D a k Hfine Hk) as [_ Hc].
  destruct Hfine as (HN & HD & Ha).
  unfold round_to. rewrite Hc. set (c := fexp (Zdigits2 (N / D) + a)) in *.
  f_equal.
  replace (c - (a - k)) with (c - a + k) by lia.
  rewrite Z.pow_add_r by lia.
  replace (D * (2 ^ (c - a) * 2 ^ k)) with (D * 2 ^ (c - a) * 2 ^ k) by lia.
  apply RNE_scale.
  - pose proof (pow2_pos (c - a) ltac:(lia)). nia.
  - apply pow2_pos, Hk.
Qed.

Lemma fine_scale (N D a j : Z) :
  fine prec emax N D a -> 0 < j -> fine prec emax (N * j) (D * j) a.
Proof.
  intros (HN & HD & Ha) Hj. split; [nia|]. split; [nia|].
  rewrite Z.div_mul_cancel_r by lia. exact Ha.
Qed.

Lemma round_to_scale (sx : bool) (N D a j : Z) :
  fine prec emax N D a -> 0 < j ->
  round_to prec emax sx (N * j) (D * j) a = round_to prec emax sx N D a.
Proof.
  intros (HN & HD & Ha) Hj. unfold round_to.
  rewrite Z.div_mul_cancel_r by lia.
  set (c := fexp (Zdigits2 (N / D) + a)) in *. f_equal.
  replace (D * j * 2 ^ (c - a)) with (D * 2 ^ (c - a) * j) by lia.
  apply RNE_scale; [|exact Hj].
  pose proof (pow2_pos (c - a) ltac:(lia)). nia.
Qed.

(** Rounding is monotone: on one denominator and one exponent first. *)
Lemma round_to_mono_aligned (N1 N2 D a : Z) :
  fine prec emax N1 D a -> fine prec emax N2 D a -> N1 <= N2 ->
  SFleb (round_to prec emax false N1 D a) (round_to prec emax false N2 D a) = true.
Proof.
  intros Hf1 Hf2 Hle.
  pose proof (round_to_mantissa N1 D a Hf1) as (Hm1 & Hc1 & Hn1).
  pose proof (round_to_mantissa N2 D a Hf2) as (Hm2 & Hc2 & Hn2).
  destruct Hf1 as (HN1 & HD & Ha1). destruct Hf2 as (HN2 & _ & Ha2).
  unfold round_to.
  set (c1 := fexp (Zdigits2 (N1 / D) + a)) in *.
  set (c2 := fexp (Zdigits2 (N2 / D) + a)) in *.
  set (m1 := RNE N1 (D * 2 ^ (c1 - a))) in *.
  set (m2 := RNE N2 (D * 2 ^ (c2 - a))) in *.
  rewrite !round_finish_normal by assumption.
  apply SF_of_le; try (apply normal_form_canon; assumption).
  assert (c1 <= c2) as Hc12.
  { apply fexp_mono. assert (Zdigits2 (N1 / D) <= Zdigits2 (N2 / D)); [|lia].
    apply Zdigits2_le. split; [apply Z.div_pos; lia|apply Z.div_le_mono; lia]. }
  pose proof (normal_form_canon m1 c1 Hm1 Hc1 Hn1) as (_ & Hk1 & _).
  pose proof (normal_form_canon m2 c2 Hm2 Hc2 Hn2) as (_ & Hk2 & _).
  assert (Hs1 : c1 <= snd (normal_form prec m1 c1))
    by (unfold normal_form; destruct (m1 =? 2 ^ prec); cbn; lia).
  assert (Hs2 : c2 <= snd (normal_form prec m2 c2))
    by (unfold normal_form; destruct (m2 =? 2 ^ prec); cbn; lia).
  apply (vle_scale _ _ _ _ c1); try lia.
  rewrite !normal_form_value by lia.
  replace (c1 - c1) with 0 by lia. rewrite Z.pow_0_r, Z.mul_1_r.
  destruct (Z.eq_dec c1 c2) as [Heq|Hne].
  - rewrite <- Heq. replace (c1 - c1) with 0 by lia. rewrite Z.pow_0_r, Z.mul_1_r.
    unfold m1, m2. rewrite <- Heq. apply RNE_mono; [|exact Hle].
    pose proof (pow2_pos (c1 - a) ltac:(lia)). nia.
  - destruct Hn2 as [He|Hbig]; [lia|].
    pose proof (pow2_le 1 (c2 - c1) ltac:(lia)) as Hp. change (2 ^ 1) with 2 in Hp.
    assert (Hpp : 2 ^ prec = 2 * 2 ^ (prec - 1)).
    { rewrite <- pow2_succ by lia. f_equal. lia. }
    pose proof (pow2_pos (prec - 1) ltac:(lia)). nia.
Qed.

(** And on any two fine representations, compared by value. *)
Lemma round_to_mono (N1 D1 a1 N2 D2 a2 : Z) :
  fine prec emax N1 D1 a1 -> fine prec emax N2 D2 a2 ->
  vle (N1 * D2) a1 (N2 * D1) a2 ->
  SFleb (round_to prec emax false N1 D1 a1) (round_to prec emax false N2 D2 a2) = true.
Proof.
  intros Hf1 Hf2 Hle.
  set (k := Z.min a1 a2).
  assert (k <= a1 /\ k <= a2) as [Hk1 Hk2] by (unfold k; lia).
  pose proof Hf1 as (HN1 & HD1 & _). pose proof Hf2 as (HN2 & HD2 & _).
  rewrite <- (round_to_refine false N1 D1 a1 (a1 - k) Hf1 ltac:(lia)).
  rewrite <- (round_to_refine false N2 D2 a2 (a2 - k) Hf2 ltac:(lia)).
  replace (a1 - (a1 - k)) with k by lia. replace (a2 - (a2 - k)) with k by lia.
  destruct (fine_refine N1 D1 a1 (a1 - k) Hf1 ltac:(lia)) as [Hf1' _].
  destruct (fine_refine N2 D2 a2 (a2 - k) Hf2 ltac:(lia)) as [Hf2' _].
  replace (a1 - (a1 - k)) with k in Hf1' by lia.
  replace (a2 - (a2 - k)) with k in Hf2' by lia.
  rewrite <- (round_to_scale false _ D1 k D2 Hf1' HD2).
  rewrite <- (round_to_scale false _ D2 k D1 Hf2' HD1).
  replace (D2 * D1) with (D1 * D2) by lia.
  apply round_to_mono_aligned.
  - apply fine_scale; assumption.
  - replace (D1 * D2) with (D2 * D1) by lia. apply fine_scale; assumption.
  - unfold vle in Hle. fold k in Hle. nia.
Qed.

(** Equal values are rounded to the same float. *)
Lemma round_to_value (sx : bool) (N1 D1 a1 N2 D2 a2 : Z) :
  fine prec emax N1 D1 a1 -> fine prec emax N2 D2 a2 ->
  N1 * D2 * 2 ^ (a1 - Z.min a1 a2) = N2 * D1 * 2 ^ (a2 - Z.min a1 a2) ->
  round_to prec emax sx N1 D1 a1 = round_to prec emax sx N2 D2 a2.
Proof.
  intros Hf1 Hf2 Heq.
  set (k := Z.min a1 a2) in *.
  assert (k <= a1 /\ k <= a2) as [Hk1 Hk2] by (unfold k; lia).
  pose proof Hf1 as (HN1 & HD1 & _). pose proof Hf2 as (HN2 & HD2 & _).
  rewrite <- (round_to_refine sx N1 D1 a1 (a1 - k) Hf1 ltac:(lia)).
  rewrite <- (round_to_refine sx N2 D2 a2 (a2 - k) Hf2 ltac:(lia)).
  replace (a1 - (a1 - k)) with k by lia. replace (a2 - (a2 - k)) with k by lia.
  destruct (fine_refine N1 D1 a1 (a1 - k) Hf1 ltac:(lia)) as [Hf1' _].
  destruct (fine_refine N2 D2 a2 (a2 - k) Hf2 ltac:(lia)) as [Hf2' _].
  replace (a1 - (a1 - k)) with k in Hf1' by lia.
  replace (a2 - (a2 - k)) with k in Hf2' by lia.
  rewrite <- (round_to_scale sx _ D1 k D2 Hf1' HD2).
  rewrite <- (round_to_scale sx _ D2 k D1 Hf2' HD1).
  replace (D2 * D1) with (D1 * D2) by lia.
  f_equal. nia.
Qed.

Lemma bounded_canon (m : positive) (e : Z) :
  bounded prec emax m e = true -> canon prec emax (Zpos m) e /\ e <= emax - prec.
Proof.
  unfold bounded, canonical_mantissa. intros H.
  apply andb_true_iff in H. destruct H as [Hc He].
  apply Z.eqb_eq in Hc. apply Z.leb_le in He.
  rewrite fexp_spec in Hc.
  pose proof (digits2_pos_bounds m) as [Hlo Hhi].
  split; [|exact He]. unfold canon. split; [split; [lia|]|split; [lia|]].
  - pose proof (pow2_le (Zpos (digits2_pos m)) prec ltac:(lia)). lia.
  - destruct (Z.eq_dec e emin) as [->|Hne]; [left; reflexivity|right].
    replace (prec - 1) with (Zpos (digits2_pos m) - 1) by lia. exact Hlo.
Qed.

Lemma valid_finite_canon (s : bool) (m : positive) (e : Z) :
  SpecFloat.valid_binary prec emax (S754_finite s m e) = true ->
  canon prec emax (Zpos m) e /\ e <= emax - prec.
Proof. apply bounded_canon. Qed.

(** [binary_round] first aligns its exact argument to the canonical
    exponent, which makes it fine. *)
Lemma binary_round_fine (sx : bool) (m : positive) (e : Z) :
  let ez := Z.min e (fexp (Zdigits2 (Zpos m) + e)) in
  fine prec emax (Zpos m * 2 ^ (e - ez)) 1 ez
  /\ binary_round prec emax sx m e = round_to prec emax sx (Zpos m * 2 ^ (e - ez)) 1 ez.
Proof.
  intros ez.
  pose proof (shl_align_spec m e (fexp (Zpos (digits2_pos m) + e))) as [Hs Hf].
  change (Zpos (digits2_pos m)) with (Zdigits2 (Zpos m)) in Hs, Hf. fold ez in Hs, Hf.
  assert (Hez : ez <= e) by (unfold ez; lia).
  pose proof (pow2_pos (e - ez) ltac:(lia)) as Hp.
  assert (Hfine : fine prec emax (Zpos m * 2 ^ (e - ez)) 1 ez).
  { split; [nia|]. split; [lia|]. rewrite Z.div_1_r.
    rewrite Zdigits2_mul_pow2 by lia.
    replace (Zdigits2 (Zpos m) + (e - ez) + ez) with (Zdigits2 (Zpos m) + e) by lia.
    unfold ez. lia. }
  split; [exact Hfine|].
  unfold binary_round.
  change (Zpos (digits2_pos m)) with (Zdigits2 (Zpos m)).
  destruct (shl_align m e (fexp (Zdigits2 (Zpos m) + e))) as [mz ez'].
  cbn [fst snd] in Hs, Hf. subst ez'. rewrite Hf.
  rewrite <- (binary_round_aux_fine sx _ 1 ez Hfine).
  rewrite Z.div_1_r. unfold loc_of. rewrite Z.mod_1_r. reflexivity.
Qed.

(** Rounding a float gives it back. *)
Lemma binary_round_canonical (sx : bool) (m : positive) (e : Z) :
  bounded prec emax m e = true -> binary_round prec emax sx m e = S754_finite sx m e.
Proof.
  intros Hb. pose proof (bounded_canon m e Hb) as [(Hm & He & Hn) Hmax].
  destruct (binary_round_fine sx m e) as [Hfine ->].
  unfold bounded, canonical_mantissa in Hb. apply andb_true_iff in Hb.
  destruct Hb as [Hc _]. apply Z.eqb_eq in Hc.
  change (Zpos (digits2_pos m)) with (Zdigits2 (Zpos m)) in Hc.
  rewrite Hc. replace (Z.min e e) with e by lia.
  replace (e - e) with 0 by lia. rewrite Z.pow_0_r, Z.mul_1_r.
  unfold round_to. rewrite Z.div_1_r, Hc.
  replace (e - e) with 0 by lia. rewrite Z.pow_0_r, Z.mul_1_r.
  rewrite (RNE_exact (Zpos m) 1) by (try lia; apply Z.mod_1_r).
  rewrite Z.div_1_r.
  rewrite round_finish_normal by lia.
  unfold normal_form. destruct (Z.eqb_spec (Zpos m) (2 ^ prec)) as [Heq|_]; [lia|].
  cbn [fst snd SF_of]. destruct (Z.leb_spec e (emax - prec)); [reflexivity|lia].
Qed.

(** What [round_to] returns is a zero, a finite float or an infinity, of
    the sign asked for. *)
Lemma round_to_class (sx : bool) (N D a : Z) :
  fine prec emax N D a ->
  round_to prec emax sx N D a = S754_zero sx
  \/ (exists m e, round_to prec emax sx N D a = S754_finite sx m e)
  \/ round_to prec emax sx N D a = S754_infinity sx.
Proof.
  intros Hfine. pose proof (round_to_mantissa N D a Hfine) as (Hm & Hc & Hn).
  unfold round_to. cbv zeta in Hm, Hn, Hc.
  rewrite round_finish_normal by assumption.
  pose proof (normal_form_canon _ _ Hm Hc Hn) as ((Hlo & _) & _).
  destruct (fst (normal_form prec _ _)) as [|p|p]; try lia; cbn [SF_of].
  - left. reflexivity.
  - destruct (_ <=? _); [right; left; eauto|right; right; reflexivity].
Qed.

Lemma round_to_nonneg (N D a : Z) :
  fine prec emax N D a -> nonneg_SF (round_to prec emax false N D a) = true.
Proof.
  intros Hfine.
  destruct (round_to_class false N D a Hfine) as [->|[(m & e & ->)| ->]]; reflexivity.
Qed.

Lemma SFleb_zero_nonneg (s : bool) (f : spec_float) :
  nonneg_SF f = true -> SFleb (S754_zero s) f = true.
Proof. destruct f as [s'|[|]| |[|] m e]; try discriminate; reflexivity. Qed.

(** *** Comparison *)

Lemma compare_canon (m1 m2 : positive) (e1 e2 k : Z) :
  canon prec emax (Zpos m1) e1 -> canon prec emax (Zpos m2) e2 ->
  k <= e1 -> k <= e2 ->
  match e1 ?= e2 with
  | Lt => Lt
  | Gt => Gt
  | Eq => Pos.compare_cont Eq m1 m2
  end = (Zpos m1 * 2 ^ (e1 - k) ?= Zpos m2 * 2 ^ (e2 - k)).
Proof.
  intros (Hm1 & He1 & Hn1) (Hm2 & He2 & Hn2) Hk1 Hk2.
  assert (Hpp : 2 ^ prec = 2 * 2 ^ (prec - 1)).
  { rewrite <- pow2_succ by lia. f_equal. lia. }
  pose proof (pow2_pos (prec - 1) ltac:(lia)) as Hpos.
  symmetry.
  destruct (Z.compare_spec e1 e2) as [Heq|Hlt|Hgt].
  - subst e2. change (Pos.compare_cont Eq m1 m2) with (Zpos m1 ?= Zpos m2).
    pose proof (pow2_pos (e1 - k) ltac:(lia)) as Hp.
    destruct (Z.compare_spec (Zpos m1) (Zpos m2)); [apply Z.compare_eq_iff|
      apply Z.compare_lt_iff|apply Z.compare_gt_iff]; nia.
  - apply Z.compare_lt_iff.
    rewrite (pow2_split (e1 - k) (e2 - k)) by lia.
    replace (e2 - k - (e1 - k)) with (e2 - e1) by lia.
    pose proof (pow2_pos (e1 - k) ltac:(lia)) as Hp.
    pose proof (pow2_le 1 (e2 - e1) ltac:(lia)) as Hp2. change (2 ^ 1) with 2 in Hp2.
    destruct Hn2 as [->|Hn2]; [lia|].
    assert (Zpos m1 < Zpos m2 * 2 ^ (e2 - e1)) by nia. nia.
  - apply Z.compare_gt_iff.
    rewrite (pow2_split (e2 - k) (e1 - k)) by lia.
    replace (e1 - k - (e2 - k)) with (e1 - e2) by lia.
    pose proof (pow2_pos (e2 - k) ltac:(lia)) as Hp.
    pose proof (pow2_le 1 (e1 - e2) ltac:(lia)) as Hp2. change (2 ^ 1) with 2 in Hp2.
    destruct Hn1 as [->|Hn1]; [lia|].
    assert (Zpos m2 < Zpos m1 * 2 ^ (e1 - e2)) by nia. nia.
Qed.

(** Two numbers compare as their values do. *)
Lemma SFcompare_scaled (f1 f2 : spec_float) (k : Z) :
  SpecFloat.valid_binary prec emax f1 = true -> SpecFloat.valid_binary prec emax f2 = true ->
  finite_SF f1 = true -> finite_SF f2 = true ->
  k <= expo emax f1 -> k <= expo emax f2 ->
  SFcompare f1 f2 = Some (scaled k f1 ?= scaled k f2).
Proof.
  intros Hv1 Hv2 Hf1 Hf2 Hk1 Hk2.
  destruct f1 as [s1|s1| |s1 m1 e1]; try discriminate;
    destruct f2 as [s2|s2| |s2 m2 e2]; try discriminate;
    cbn [expo] in Hk1, Hk2; cbn [scaled SFcompare].
  - reflexivity.
  - pose proof (pow2_pos (e2 - k) ltac:(lia)). f_equal. symmetry.
    destruct s2; cbn [cond_Zopp]; [apply Z.compare_gt_iff|apply Z.compare_lt_iff]; nia.
  - pose proof (pow2_pos (e1 - k) ltac:(lia)). f_equal. symmetry.
    destruct s1; cbn [cond_Zopp]; [apply Z.compare_lt_iff|apply Z.compare_gt_iff]; nia.
  - pose proof (valid_finite_canon s1 m1 e1 Hv1) as [Hc1 _].
    pose proof (valid_finite_canon s2 m2 e2 Hv2) as [Hc2 _].
    pose proof (pow2_pos (e1 - k) ltac:(lia)).
    pose proof (pow2_pos (e2 - k) ltac:(lia)).
    f_equal. destruct s1, s2; cbn [cond_Zopp].
    + rewrite !Z.mul_opp_l, Z.compare_opp.
      rewrite <- (compare_canon m2 m1 e2 e1 k Hc2 Hc1 Hk2 Hk1).
      rewrite (Z.compare_antisym e1 e2), (Pos.compare_cont_antisym m1 m2 Eq).
      destruct (e1 ?= e2); reflexivity.
    + symmetry. apply Z.compare_lt_iff. nia.
    + symmetry. apply Z.compare_gt_iff. nia.
    + apply compare_canon; assumption.
Qed.

(** *** Subtraction and division of numbers *)

Lemma cond_Zopp_mul (s : bool) (a b : Z) : cond_Zopp s a * b = cond_Zopp s (a * b).
Proof. destruct s; cbn [cond_Zopp]; lia. Qed.

Lemma valid_expo_lt (f : spec_float) :
  SpecFloat.valid_binary prec emax f = true -> finite_SF f = true ->
  match f with S754_finite _ _ e => e < emax | _ => True end.
Proof.
  intros Hv _. destruct f as [s|s| |s m e]; try exact I.
  pose proof (valid_finite_canon s m e Hv). lia.
Qed.

(** The difference of two numbers is their exact difference [M * 2 ^ ez],
    rounded. *)
Lemma SFsub_finite (x y : spec_float) :
  SpecFloat.valid_binary prec emax x = true ->
  SpecFloat.valid_binary prec emax y = true ->
  finite_SF x = true -> finite_SF y = true ->
  let ez := Z.min (expo emax x) (expo emax y) in
  let M := scaled ez x - scaled ez y in
  (M = 0 -> exists s, SFsub prec emax x y = S754_zero s)
  /\ (0 < M -> SFsub prec emax x y = binary_round prec emax false (Z.to_pos M) ez)
  /\ (M < 0 -> SFsub prec emax x y = binary_round prec emax true (Z.to_pos (- M)) ez).
Proof.
  intros Hvx Hvy Hfx Hfy.
  pose proof (valid_expo_lt x Hvx Hfx) as Hex.
  pose proof (valid_expo_lt y Hvy Hfy) as Hey.
  destruct x as [sx|sx| |sx mx ex]; try discriminate;
    destruct y as [sy|sy| |sy my ey]; try discriminate;
    cbn [expo scaled]; cbv zeta.
  - split; [intros _; cbn [SFsub]; destruct sx, sy; eauto|]. split; lia.
  - replace (Z.min emax ey) with ey by lia.
    replace (ey - ey) with 0 by lia. rewrite Z.pow_0_r, Z.mul_1_r.
    cbn [SFsub]. destruct sy; cbn [cond_Zopp negb].
    + split; [lia|]. split; [|lia]. intros _.
      replace (0 - - Zpos my) with (Zpos my) by lia. cbn [Z.to_pos].
      symmetry. apply binary_round_canonical. exact Hvy.
    + split; [lia|]. split; [lia|]. intros _.
      replace (- (0 - Zpos my)) with (Zpos my) by lia. cbn [Z.to_pos].
      symmetry. apply binary_round_canonical. exact Hvy.
  - replace (Z.min ex emax) with ex by lia.
    replace (ex - ex) with 0 by lia. rewrite Z.pow_0_r, Z.mul_1_r, Z.sub_0_r.
    cbn [SFsub]. destruct sx; cbn [cond_Zopp].
    + split; [lia|]. split; [lia|]. intros _.
      replace (- - Zpos mx) with (Zpos mx) by lia. cbn [Z.to_pos].
      symmetry. apply binary_round_canonical. exact Hvx.
    + split; [lia|]. split; [|lia]. intros _. cbn [Z.to_pos].
      symmetry. apply binary_round_canonical. exact Hvx.
  - cbn [SFsub].
    pose proof (shl_align_spec mx ex (Z.min ex ey)) as [_ Hax].
    pose proof (shl_align_spec my ey (Z.min ex ey)) as [_ Hay].
    replace (Z.min ex (Z.min ex ey)) with (Z.min ex ey) in Hax by lia.
    replace (Z.min ey (Z.min ex ey)) with (Z.min ex ey) in Hay by lia.
    rewrite Hax, Hay. rewrite <- !cond_Zopp_mul.
    set (M := cond_Zopp sx (Zpos mx) * 2 ^ (ex - Z.min ex ey)
              - cond_Zopp sy (Zpos my) * 2 ^ (ey - Z.min ex ey)).
    unfold binary_normalize.
    destruct M as [|p|p]; (split; [|split]); intros HM; try lia; try discriminate;
      eauto; reflexivity.
Qed.

(** The quotient of two finite floats is their exact quotient, rounded. *)
Lemma SFdiv_finite (sx sy : bool) (mx my : positive) (ex ey : Z) :
  let e' := Z.min (fexp (Zdigits2 (Zpos mx) + ex - (Zdigits2 (Zpos my) + ey))) (ex - ey) in
  let N := Zpos mx * 2 ^ (ex - ey - e') in
  fine prec emax N (Zpos my) e'
  /\ SFdiv prec emax (S754_finite sx mx ex) (S754_finite sy my ey)
     = round_to prec emax (xorb sx sy) N (Zpos my) e'.
Proof.
  intros e' N.
  set (d1 := Zdigits2 (Zpos mx)) in *. set (d2 := Zdigits2 (Zpos my)) in *.
  assert (Hs : 0 <= ex - ey - e') by (unfold e'; lia).
  pose proof (pow2_pos (ex - ey - e') Hs) as Hps.
  assert (HN : 0 <= N) by (unfold N; nia).
  assert (Hfine : fine prec emax N (Zpos my) e').
  { split; [exact HN|]. split; [lia|].
    set (t := d1 - d2 + (ex - ey - e')).
    assert (Ht : e' <= fexp (t + e')).
    { replace (t + e') with (d1 + ex - (d2 + ey)) by (unfold t; lia). unfold e'. lia. }
    assert (Hq : t <= Zdigits2 (N / Zpos my)).
    { destruct (Z_le_gt_dec t 0) as [Hle|Hgt].
      - pose proof (Zdigits2_nonneg (N / Zpos my)). lia.
      - apply Zdigits2_ge_of_pow2_le; [lia|].
        apply Z.div_le_lower_bound; [lia|].
        pose proof (Zdigits2_bounds (Zpos mx) ltac:(lia)) as [Hlo1 _].
        pose proof (Zdigits2_bounds (Zpos my) ltac:(lia)) as [_ Hhi2].
        pose proof (Zdigits2_pos (Zpos mx) ltac:(lia)) as Hd1.
        pose proof (Zdigits2_pos (Zpos my) ltac:(lia)) as Hd2.
        fold d1 in Hlo1, Hd1. fold d2 in Hhi2, Hd2.
        pose proof (pow2_pos (t - 1) ltac:(lia)) as Hpt.
        assert (Hsplit : 2 ^ (d2 + (t - 1)) = 2 ^ (d1 - 1) * 2 ^ (ex - ey - e')).
        { rewrite <- Z.pow_add_r by lia. f_equal. unfold t. lia. }
        rewrite Z.pow_add_r in Hsplit by lia.
        unfold N. nia. }
    pose proof (fexp_mono (t + e') (Zdigits2 (N / Zpos my) + e') ltac:(lia)). lia. }
  split; [exact Hfine|].
  rewrite <- (binary_round_aux_fine (xorb sx sy) N (Zpos my) e' Hfine).
  cbn [SFdiv]. unfold SFdiv_core_binary. fold d1 d2 e'.
  assert (Hm' : match ex - ey - e' with
                | 0 => Zpos mx
                | Zpos _ => Z.shiftl (Zpos mx) (ex - ey - e')
                | Zneg _ => 0
                end = N).
  { unfold N. destruct (ex - ey - e') as [|p|p] eqn:Hse; try lia.
    rewrite Z.shiftl_mul_pow2 by lia. reflexivity. }
  rewrite Hm'.
  rewrite <- (new_location_loc_of N (Zpos my)) by lia.
  unfold Z.div, Z.modulo.
  destruct (Z.div_eucl N (Zpos my)) as [q r]. reflexivity.
Qed.

(** *** Order of numbers *)

Lemma SFleb_scaled (f1 f2 : spec_float) (k : Z) :
  SpecFloat.valid_binary prec emax f1 = true ->
  SpecFloat.valid_binary prec emax f2 = true ->
  finite_SF f1 = true -> finite_SF f2 = true ->
  k <= expo emax f1 -> k <= expo emax f2 ->
  (SFleb f1 f2 = true <-> scaled k f1 <= scaled k f2).
Proof.
  intros Hv1 Hv2 Hf1 Hf2 Hk1 Hk2. unfold SFleb.
  rewrite (SFcompare_scaled f1 f2 k Hv1 Hv2 Hf1 Hf2 Hk1 Hk2).
  destruct (Z.compare_spec (scaled k f1) (scaled k f2)); split; intros; try lia;
    try reflexivity; discriminate.
Qed.

Lemma SFltb_scaled (f1 f2 : spec_float) (k : Z) :
  SpecFloat.valid_binary prec emax f1 = true ->
  SpecFloat.valid_binary prec emax f2 = true ->
  finite_SF f1 = true -> finite_SF f2 = true ->
  k <= expo emax f1 -> k <= expo emax f2 ->
  (SFltb f1 f2 = true <-> scaled k f1 < scaled k f2).
Proof.
  intros Hv1 Hv2 Hf1 Hf2 Hk1 Hk2. unfold SFltb.
  rewrite (SFcompare_scaled f1 f2 k Hv1 Hv2 Hf1 Hf2 Hk1 Hk2).
  destruct (Z.compare_spec (scaled k f1) (scaled k f2)); split; intros; try lia;
    try reflexivity; discriminate.
Qed.

Lemma SFeqb_scaled (f1 f2 : spec_float) (k : Z) :
  SpecFloat.valid_binary prec emax f1 = true ->
  SpecFloat.valid_binary prec emax f2 = true ->
  finite_SF f1 = true -> finite_SF f2 = true ->
  k <= expo emax f1 -> k <= expo emax f2 ->
  (SFeqb f1 f2 = true <-> scaled k f1 = scaled k f2).
Proof.
  intros Hv1 Hv2 Hf1 Hf2 Hk1 Hk2. unfold SFeqb.
  rewrite (SFcompare_scaled f1 f2 k Hv1 Hv2 Hf1 Hf2 Hk1 Hk2).
  destruct (Z.compare_spec (scaled k f1) (scaled k f2)); split; intros; try lia;
    try reflexivity; discriminate.
Qed.

(** An exponent below those of three numbers. *)
Lemma expo_below3 (f1 f2 f3 : spec_float) :
  exists k, k <= expo emax f1 /\ k <= expo emax f2 /\ k <= expo emax f3.
Proof.
  exists (Z.min (expo emax f1) (Z.min (expo emax f2) (expo emax f3))). lia.
Qed.

Lemma binary_round_nonneg (m : positive) (e : Z) :
  nonneg_SF (binary_round prec emax false m e) = true.
Proof.
  destruct (binary_round_fine false m e) as [Hfine ->]. apply round_to_nonneg, Hfine.
Qed.

(** *** Subtraction is monotone *)

Lemma SFsub_nonneg (x y : spec_float) :
  SpecFloat.valid_binary prec emax x = true ->
  SpecFloat.valid_binary prec emax y = true ->
  finite_SF x = true -> finite_SF y = true ->
  SFleb y x = true ->
  nonneg_SF (SFsub prec emax x y) = true.
Proof.
  intros Hvx Hvy Hfx Hfy Hle.
  destruct (SFsub_finite x y Hvx Hvy Hfx Hfy) as (Hzero & Hpos & Hneg).
  cbv zeta in Hzero, Hpos, Hneg.
  set (ez := Z.min (expo emax x) (expo emax y)) in *.
  apply (SFleb_scaled y x ez Hvy Hvx Hfy Hfx) in Hle; try (unfold ez; lia).
  destruct (Z.eq_dec (scaled ez x - scaled ez y) 0) as [Hz|Hnz].
  - destruct (Hzero Hz) as [s ->]. reflexivity.
  - rewrite Hpos by lia. apply binary_round_nonneg.
Qed.

Lemma SFsub_eq_zero (x y : spec_float) :
  SpecFloat.valid_binary prec emax x = true ->
  SpecFloat.valid_binary prec emax y = true ->
  finite_SF x = true -> finite_SF y = true ->
  SFeqb x y = true ->
  exists s, SFsub prec emax x y = S754_zero s.
Proof.
  intros Hvx Hvy Hfx Hfy Heq.
  destruct (SFsub_finite x y Hvx Hvy Hfx Hfy) as (Hzero & _).
  cbv zeta in Hzero.
  set (ez := Z.min (expo emax x) (expo emax y)) in *.
  apply (SFeqb_scaled x y ez Hvx Hvy Hfx Hfy) in Heq; try (unfold ez; lia).
  apply Hzero. lia.
Qed.

Lemma SFsub_mono (x1 x2 y : spec_float) :
  SpecFloat.valid_binary prec emax x1 = true ->
  SpecFloat.valid_binary prec emax x2 = true ->
  SpecFloat.valid_binary prec emax y = true ->
  finite_SF x1 = true -> finite_SF x2 = true -> finite_SF y = true ->
  SFleb y x1 = true -> SFleb x1 x2 = true ->
  SFleb (SFsub prec emax x1 y) (SFsub prec emax x2 y) = true.
Proof.
  intros Hv1 Hv2 Hvy Hf1 Hf2 Hfy Hy1 H12.
  destruct (expo_below3 x1 x2 y) as (k & Hk1 & Hk2 & Hky).
  apply (SFleb_scaled y x1 k Hvy Hv1 Hfy Hf1 Hky Hk1) in Hy1.
  apply (SFleb_scaled x1 x2 k Hv1 Hv2 Hf1 Hf2 Hk1 Hk2) in H12.
  assert (Hnn2 : nonneg_SF (SFsub prec emax x2 y) = true).
  { apply SFsub_nonneg; try assumption.
    apply (SFleb_scaled y x2 k Hvy Hv2 Hfy Hf2 Hky Hk2). lia. }
  destruct (SFsub_finite x1 y Hv1 Hvy Hf1 Hfy) as (Hzero1 & Hpos1 & _).
  destruct (SFsub_finite x2 y Hv2 Hvy Hf2 Hfy) as (_ & Hpos2 & _).
  cbv zeta in Hzero1, Hpos1, Hpos2.
  set (ez1 := Z.min (expo emax x1) (expo emax y)) in *.
  set (ez2 := Z.min (expo emax x2) (expo emax y)) in *.
  set (M1 := scaled ez1 x1 - scaled ez1 y) in *.
  set (M2 := scaled ez2 x2 - scaled ez2 y) in *.
  assert (HM1 : M1 * 2 ^ (ez1 - k) = scaled k x1 - scaled k y).
  { unfold M1. rewrite (scaled_shift emax ez1 k x1), (scaled_shift emax ez1 k y);
      unfold ez1; lia. }
  assert (HM2 : M2 * 2 ^ (ez2 - k) = scaled k x2 - scaled k y).
  { unfold M2. rewrite (scaled_shift emax ez2 k x2), (scaled_shift emax ez2 k y);
      unfold ez2; lia. }
  assert (Hkz1 : k <= ez1) by (unfold ez1; lia).
  assert (Hkz2 : k <= ez2) by (unfold ez2; lia).
  pose proof (pow2_pos (ez1 - k) ltac:(lia)) as Hp1.
  pose proof (pow2_pos (ez2 - k) ltac:(lia)) as Hp2.
  assert (0 <= M1) as HM1pos by nia.
  destruct (Z.eq_dec M1 0) as [Hz|Hnz].
  { destruct (Hzero1 Hz) as [s ->]. apply SFleb_zero_nonneg, Hnn2. }
  assert (0 < M1) as HM1gt by lia.
  assert (0 < M2) as HM2gt by nia.
  rewrite (Hpos1 HM1gt), (Hpos2 HM2gt).
  destruct (binary_round_fine false (Z.to_pos M1) ez1) as [Hfine1 ->].
  destruct (binary_round_fine false (Z.to_pos M2) ez2) as [Hfine2 ->].
  rewrite !Z2Pos.id in * by lia.
  set (a1 := Z.min ez1 (fexp (Zdigits2 M1 + ez1))) in *.
  set (a2 := Z.min ez2 (fexp (Zdigits2 M2 + ez2))) in *.
  apply round_to_mono; try assumption.
  rewrite !Z.mul_1_r.
  set (j := Z.min k (Z.min a1 a2)).
  assert (j <= k /\ j <= a1 /\ j <= a2 /\ a1 <= ez1 /\ a2 <= ez2) as (Hjk & Hj1 & Hj2 & Ha1 & Ha2)
    by (unfold j, a1, a2; lia).
  apply (vle_scale _ _ _ _ j); try lia.
  rewrite <- !Z.mul_assoc, <- !Z.pow_add_r by lia.
  replace (ez1 - a1 + (a1 - j)) with (ez1 - k + (k - j)) by lia.
  replace (ez2 - a2 + (a2 - j)) with (ez2 - k + (k - j)) by lia.
  rewrite !Z.pow_add_r by lia.
  pose proof (pow2_pos (k - j) ltac:(lia)). nia.
Qed.

(** *** Division by a positive float is monotone *)

Lemma SFdiv_nonneg (a r : spec_float) :
  finite_SF a = true -> nonneg_SF a = true ->
  (exists mr er, r = S754_finite false mr er) ->
  nonneg_SF (SFdiv prec emax a r) = true.
Proof.
  intros Hfa Hna (mr & er & ->).
  destruct a as [sa|sa| |[|] ma ea]; try discriminate; [cbn [SFdiv]; reflexivity|].
  destruct (SFdiv_finite false false ma mr ea er) as [Hfine ->].
  apply round_to_nonneg, Hfine.
Qed.

Lemma SFdiv_mono (a1 a2 r : spec_float) :
  SpecFloat.valid_binary prec emax a1 = true ->
  SpecFloat.valid_binary prec emax a2 = true ->
  finite_SF a1 = true -> finite_SF a2 = true ->
  nonneg_SF a1 = true -> nonneg_SF a2 = true ->
  (exists mr er, r = S754_finite false mr er) ->
  SFleb a1 a2 = true ->
  SFleb (SFdiv prec emax a1 r) (SFdiv prec emax a2 r) = true.
Proof.
  intros Hv1 Hv2 Hf1 Hf2 Hn1 Hn2 Hr Hle.
  pose proof (SFdiv_nonneg a2 r Hf2 Hn2 Hr) as Hnn2.
  destruct Hr as (mr & er & ->).
  destruct a1 as [s1|s1| |[|] m1 e1]; try discriminate.
  { cbn [SFdiv]. apply SFleb_zero_nonneg, Hnn2. }
  destruct a2 as [s2|s2| |[|] m2 e2]; try discriminate.
  destruct (SFdiv_finite false false m1 mr e1 er) as [Hfine1 ->].
  destruct (SFdiv_finite false false m2 mr e2 er) as [Hfine2 ->].
  cbn [xorb].
  set (a1 := Z.min (fexp (Zdigits2 (Zpos m1) + e1 - (Zdigits2 (Zpos mr) + er))) (e1 - er)) in *.
  set (a2 := Z.min (fexp (Zdigits2 (Zpos m2) + e2 - (Zdigits2 (Zpos mr) + er))) (e2 - er)) in *.
  apply round_to_mono; try assumption.
  set (j := Z.min a1 a2).
  assert (j <= a1 /\ j <= a2 /\ a1 <= e1 - er /\ a2 <= e2 - er) as (Hj1 & Hj2 & Ha1 & Ha2)
    by (unfold j, a1, a2; lia).
  apply (SFleb_scaled _ _ (j + er) Hv1 Hv2 Hf1 Hf2) in Hle; cbn [expo]; try lia.
  cbn [scaled cond_Zopp] in Hle.
  apply (vle_scale _ _ _ _ j); try lia.
  replace (Zpos m1 * 2 ^ (e1 - er - a1) * Zpos mr * 2 ^ (a1 - j))
    with (Zpos m1 * (2 ^ (e1 - er - a1) * 2 ^ (a1 - j)) * Zpos mr) by lia.
  replace (Zpos m2 * 2 ^ (e2 - er - a2) * Zpos mr * 2 ^ (a2 - j))
    with (Zpos m2 * (2 ^ (e2 - er - a2) * 2 ^ (a2 - j)) * Zpos mr) by lia.
  rewrite <- !Z.pow_add_r by lia.
  replace (e1 - er - a1 + (a1 - j)) with (e1 - (j + er)) by lia.
  replace (e2 - er - a2 + (a2 - j)) with (e2 - (j + er)) by lia.
  nia.
Qed.

(** *** The order of numbers is an order *)

Lemma SFleb_trans (f1 f2 f3 : spec_float) :
  SpecFloat.valid_binary prec emax f1 = true ->
  SpecFloat.valid_binary prec emax f2 = true ->
  SpecFloat.valid_binary prec emax f3 = true ->
  finite_SF f1 = true -> finite_SF f2 = true -> finite_SF f3 = true ->
  SFleb f1 f2 = true -> SFleb f2 f3 = true -> SFleb f1 f3 = true.
Proof.
  intros Hv1 Hv2 Hv3 Hf1 Hf2 Hf3 H12 H23.
  destruct (expo_below3 f1 f2 f3) as (k & Hk1 & Hk2 & Hk3).
  apply (SFleb_scaled f1 f2 k) in H12; try assumption.
  apply (SFleb_scaled f2 f3 k) in H23; try assumption.
  apply (SFleb_scaled f1 f3 k); try assumption. lia.
Qed.

Lemma SFleb_antisym (f1 f2 : spec_float) :
  SpecFloat.valid_binary prec emax f1 = true ->
  SpecFloat.valid_binary prec emax f2 = true ->
  finite_SF f1 = true -> finite_SF f2 = true ->
  SFleb f1 f2 = true -> SFleb f2 f1 = true -> SFeqb f1 f2 = true.
Proof.
  intros Hv1 Hv2 Hf1 Hf2 H12 H21.
  destruct (expo_below3 f1 f2 f2) as (k & Hk1 & Hk2 & _).
  apply (SFleb_scaled f1 f2 k) in H12; try assumption.
  apply (SFleb_scaled f2 f1 k) in H21; try assumption.
  apply (SFeqb_scaled f1 f2 k); try assumption. lia.
Qed.

(** Of two numbers, one is not above the other. *)
Lemma SFleb_of_not_ltb (f1 f2 : spec_float) :
  SpecFloat.valid_binary prec emax f1 = true ->
  SpecFloat.valid_binary prec emax f2 = true ->
  finite_SF f1 = true -> finite_SF f2 = true ->
  SFltb f1 f2 = false -> SFleb f2 f1 = true.
Proof.
  intros Hv1 Hv2 Hf1 Hf2 Hlt.
  destruct (expo_below3 f1 f2 f2) as (k & Hk1 & Hk2 & _).
  apply (SFleb_scaled f2 f1 k); try assumption.
  destruct (Z_le_gt_dec (scaled k f2) (scaled k f1)) as [Hle|Hgt]; [exact Hle|].
  assert (SFltb f1 f2 = true) as Habs
    by (apply (SFltb_scaled f1 f2 k); try assumption; lia).
  congruence.
Qed.

Lemma SFltb_not_leb (f1 f2 : spec_float) : SFleb f2 f1 = true -> SFltb f1 f2 = true -> False.
Proof.
  unfold SFleb, SFltb.
  destruct f1 as [s1|s1| |s1 m1 e1], f2 as [s2|s2| |s2 m2 e2]; cbn [SFcompare];
    try destruct s1; try destruct s2; try discriminate;
    rewrite (Z.compare_antisym e1 e2);
    (destruct (e1 ?= e2); cbn [CompOpp]; try discriminate);
    change (Pos.compare_cont Eq m2 m1) with (Pos.compare m2 m1);
    change (Pos.compare_cont Eq m1 m2) with (Pos.compare m1 m2);
    rewrite (Pos.compare_antisym m1 m2);
    destruct (Pos.compare m1 m2); cbn [CompOpp]; discriminate.
Qed.

Lemma nonneg_le_finite (a r : spec_float) :
  nonneg_SF a = true -> finite_SF r = true -> SFleb a r = true -> finite_SF a = true.
Proof.
  destruct a as [sa|[|]| |sa ma ea]; try discriminate; try reflexivity.
  destruct r as [sr|sr| |sr mr er]; discriminate.
Qed.

(** *** The difference of two distinct floats is not zero *)

Lemma valid_expo_ge (f : spec_float) :
  SpecFloat.valid_binary prec emax f = true -> emin <= expo emax f.
Proof.
  intros Hv. destruct f as [s|s| |s m e]; cbn [expo]; try (unfold SpecFloat.emin; lia).
  pose proof (valid_finite_canon s m e Hv) as [(_ & He & _) _]. exact He.
Qed.

Lemma binary_round_pos (m : positive) (e : Z) :
  emin <= e ->
  (exists m' e', binary_round prec emax false m e = S754_finite false m' e')
  \/ binary_round prec emax false m e = S754_infinity false.
Proof.
  intros He. destruct (binary_round_fine false m e) as [Hfine ->].
  set (a := Z.min e (fexp (Zdigits2 (Zpos m) + e))) in *.
  assert (Ha : emin <= a) by (pose proof (fexp_ge_emin (Zdigits2 (Zpos m) + e)); unfold a; lia).
  pose proof (round_to_mantissa _ _ _ Hfine) as (Hm & Hc & Hn). cbv zeta in Hm, Hc, Hn.
  pose proof Hfine as (HN & _ & Hac).
  unfold round_to. rewrite round_finish_normal by assumption.
  set (c := fexp (Zdigits2 (Zpos m * 2 ^ (e - a) / 1) + a)) in *.
  set (r := RNE (Zpos m * 2 ^ (e - a)) (1 * 2 ^ (c - a))) in *.
  assert (Hr : 0 < r).
  { pose proof (pow2_pos (prec - 1) ltac:(lia)).
    destruct Hn as [Hce|Hbig]; [|lia].
    assert (c = a) as Hca by lia. unfold r. rewrite Hca.
    replace (a - a) with 0 by lia. rewrite Z.pow_0_r, Z.mul_1_r.
    rewrite RNE_exact by (try lia; apply Z.mod_1_r). rewrite Z.div_1_r.
    pose proof (pow2_pos (e - a) ltac:(unfold a; lia)). nia. }
  unfold normal_form. pose proof (pow2_pos (prec - 1) ltac:(lia)) as Hpp.
  destruct (Z.eqb_spec r (2 ^ prec)) as [Heq|Hne]; cbn [fst snd].
  - destruct (2 ^ (prec - 1)) as [|p|p] eqn:Hpw; try lia. cbn [SF_of].
    destruct (_ <=? _); [left; eauto|right; reflexivity].
  - destruct r as [|p|p]; try lia. cbn [SF_of].
    destruct (_ <=? _); [left; eauto|right; reflexivity].
Qed.

Lemma SFsub_pos (x y : spec_float) :
  SpecFloat.valid_binary prec emax x = true ->
  SpecFloat.valid_binary prec emax y = true ->
  finite_SF x = true -> finite_SF y = true ->
  SFltb y x = true -> finite_SF (SFsub prec emax x y) = true ->
  exists m e, SFsub prec emax x y = S754_finite false m e.
Proof.
  intros Hvx Hvy Hfx Hfy Hlt Hfin.
  destruct (SFsub_finite x y Hvx Hvy Hfx Hfy) as (_ & Hpos & _).
  cbv zeta in Hpos.
  set (ez := Z.min (expo emax x) (expo emax y)) in *.
  apply (SFltb_scaled y x ez Hvy Hvx Hfy Hfx) in Hlt; try (unfold ez; lia).
  rewrite Hpos in * by lia.
  destruct (binary_round_pos (Z.to_pos (scaled ez x - scaled ez y)) ez) as [Hf|Hinf].
  - pose proof (valid_expo_ge x Hvx). pose proof (valid_expo_ge y Hvy). unfold ez. lia.
  - exact Hf.
  - rewrite Hinf in Hfin. discriminate.
Qed.

(** *** A float divided by itself is 1 *)

Lemma one_SF_bounded : bounded prec emax (Z.to_pos (2 ^ (prec - 1))) (1 - prec) = true.
Proof.
  pose proof (pow2_pos (prec - 1) ltac:(lia)) as Hp.
  unfold bounded, canonical_mantissa. apply andb_true_iff. split.
  - apply Z.eqb_eq.
    change (Zpos (digits2_pos (Z.to_pos (2 ^ (prec - 1)))))
      with (Zdigits2 (Zpos (Z.to_pos (2 ^ (prec - 1))))).
    rewrite Z2Pos.id by lia.
    rewrite (Zdigits2_unique (2 ^ (prec - 1)) prec); [|lia|].
    + rewrite fexp_spec. unfold SpecFloat.emin. lia.
    + pose proof (pow2_lt (prec - 1) prec ltac:(lia)). lia.
  - apply Z.leb_le. lia.
Qed.

Lemma SFdiv_self (m : positive) (e : Z) :
  SFdiv prec emax (S754_finite false m e) (S754_finite false m e) = one_SF prec.
Proof.
  destruct (SFdiv_finite false false m m e e) as [Hfine ->]. cbn [xorb].
  unfold one_SF. rewrite <- (binary_round_canonical false _ _ one_SF_bounded).
  destruct (binary_round_fine false (Z.to_pos (2 ^ (prec - 1))) (1 - prec)) as [Hfine1 ->].
  pose proof (pow2_pos (prec - 1) ltac:(lia)) as Hp.
  rewrite Z2Pos.id in * by lia.
  set (a := Z.min (fexp (Zdigits2 (Zpos m) + e - (Zdigits2 (Zpos m) + e))) (e - e)) in *.
  set (b := Z.min (1 - prec) (fexp (Zdigits2 (2 ^ (prec - 1)) + (1 - prec)))) in *.
  apply round_to_value; try assumption.
  set (j := Z.min a b).
  assert (a <= 0 /\ b <= 1 - prec /\ j <= a /\ j <= b) as (Ha & Hb & Hja & Hjb)
    by (unfold j, a, b; lia).
  replace (Zpos m * 2 ^ (e - e - a) * 1 * 2 ^ (a - j))
    with (Zpos m * (2 ^ (e - e - a) * 2 ^ (a - j))) by lia.
  replace (2 ^ (prec - 1) * 2 ^ (1 - prec - b) * Zpos m * 2 ^ (b - j))
    with (Zpos m * (2 ^ (prec - 1) * 2 ^ (1 - prec - b) * 2 ^ (b - j))) by lia.
  rewrite <- !Z.pow_add_r by lia. do 2 f_equal. lia.
Qed.

(** *** The rescaling of a number between two others *)

Section Rescaling.
Variables x mn mx : spec_float.
Hypothesis Hvx : SpecFloat.valid_binary prec emax x = true.
Hypothesis Hvmn : SpecFloat.valid_binary prec emax mn = true.
Hypothesis Hvmx : SpecFloat.valid_binary prec emax mx = true.
Hypothesis Hfx : finite_SF x = true.
Hypothesis Hfmn : finite_SF mn = true.
Hypothesis Hfmx : finite_SF mx = true.
Hypothesis Hlo : SFleb mn x = true.
Hypothesis Hhi : SFleb x mx = true.
Hypothesis Hspread : SFltb mn mx = true.
Hypothesis Hrange : finite_SF (SFsub prec emax mx mn) = true.
Hypothesis Hvdiff : SpecFloat.valid_binary prec emax (SFsub prec emax x mn) = true.
Hypothesis Hvrange : SpecFloat.valid_binary prec emax (SFsub prec emax mx mn) = true.

Lemma range_positive : exists mr er, SFsub prec emax mx mn = S754_finite false mr er.
Proof. apply SFsub_pos; assumption. Qed.

Lemma diff_le_range :
  SFleb (SFsub prec emax x mn) (SFsub prec emax mx mn) = true.
Proof. apply SFsub_mono; assumption. Qed.

Lemma diff_nonneg : nonneg_SF (SFsub prec emax x mn) = true.
Proof. apply SFsub_nonneg; assumption. Qed.

Lemma diff_finite : finite_SF (SFsub prec emax x mn) = true.
Proof.
  apply nonneg_le_finite with (SFsub prec emax mx mn);
    [apply diff_nonneg|exact Hrange|apply diff_le_range].
Qed.

Lemma rescaled_nonneg :
  nonneg_SF (SFdiv prec emax (SFsub prec emax x mn) (SFsub prec emax mx mn)) = true.
Proof.
  apply SFdiv_nonneg; [apply diff_finite|apply diff_nonneg|apply range_positive].
Qed.

Lemma rescaled_le_one :
  SFleb (SFdiv prec emax (SFsub prec emax x mn) (SFsub prec emax mx mn)) (one_SF prec)
  = true.
Proof.
  destruct range_positive as (mr & er & Hr).
  rewrite <- (SFdiv_self mr er). rewrite <- Hr.
  apply SFdiv_mono; try assumption.
  - apply diff_finite.
  - apply diff_nonneg.
  - rewrite Hr. reflexivity.
  - rewrite Hr. eauto.
  - apply diff_le_range.
Qed.

Lemma rescaled_min :
  SFeqb x mn = true ->
  SFeqb (SFdiv prec emax (SFsub prec emax x mn) (SFsub prec emax mx mn)) (S754_zero false)
  = true.
Proof.
  intros Heq. destruct range_positive as (mr & er & ->).
  destruct (SFsub_eq_zero x mn Hvx Hvmn Hfx Hfmn Heq) as [s ->]. reflexivity.
Qed.

End Rescaling.

Lemma rescaled_mono (x1 x2 mn mx : spec_float) :
  SpecFloat.valid_binary prec emax x1 = true ->
  SpecFloat.valid_binary prec emax x2 = true ->
  SpecFloat.valid_binary prec emax mn = true ->
  SpecFloat.valid_binary prec emax mx = true ->
  finite_SF x1 = true -> finite_SF x2 = true ->
  finite_SF mn = true -> finite_SF mx = true ->
  SFleb mn x1 = true -> SFleb x1 x2 = true -> SFleb x2 mx = true ->
  SFltb mn mx = true ->
  finite_SF (SFsub prec emax mx mn) = true ->
  SpecFloat.valid_binary prec emax (SFsub prec emax x1 mn) = true ->
  SpecFloat.valid_binary prec emax (SFsub prec emax x2 mn) = true ->
  SFleb (SFdiv prec emax (SFsub prec emax x1 mn) (SFsub prec emax mx mn))
        (SFdiv prec emax (SFsub prec emax x2 mn) (SFsub prec emax mx mn)) = true.
Proof.
  intros Hv1 Hv2 Hvmn Hvmx Hf1 Hf2 Hfmn Hfmx Hlo H12 Hhi Hspread Hrange Hvd1 Hvd2.
  assert (Hlo2 : SFleb mn x2 = true) by (apply SFleb_trans with x1; assumption).
  assert (Hhi1 : SFleb x1 mx = true) by (apply SFleb_trans with x2; assumption).
  apply SFdiv_mono; try assumption.
  - apply diff_finite with mx; assumption.
  - apply diff_finite with mx; assumption.
  - apply diff_nonneg; assumption.
  - apply diff_nonneg; assumption.
  - apply range_positive; assumption.
  - apply SFsub_mono; assumption.
Qed.

Lemma SFeqb_leb (f1 f2 : spec_float) :
  SpecFloat.valid_binary prec emax f1 = true ->
  SpecFloat.valid_binary prec emax f2 = true ->
  finite_SF f1 = true -> finite_SF f2 = true ->
  SFeqb f1 f2 = true -> SFleb f1 f2 = true /\ SFleb f2 f1 = true.
Proof.
  intros Hv1 Hv2 Hf1 Hf2 Heq.
  destruct (expo_below3 f1 f2 f2) as (k & Hk1 & Hk2 & _).
  apply (SFeqb_scaled f1 f2 k) in Heq; try assumption.
  split; [apply (SFleb_scaled f1 f2 k)|apply (SFleb_scaled f2 f1 k)]; try assumption; lia.
Qed.

Lemma SFltb_leb (f1 f2 : spec_float) : SFltb f1 f2 = true -> SFleb f1 f2 = true.
Proof. unfold SFltb, SFleb. destruct (SFcompare f1 f2) as [[| |]|]; congruence. Qed.

Lemma rescaled_max (x mn mx : spec_float) :
  SpecFloat.valid_binary prec emax x = true ->
  SpecFloat.valid_binary prec emax mn = true ->
  SpecFloat.valid_binary prec emax mx = true ->
  finite_SF x = true -> finite_SF mn = true -> finite_SF mx = true ->
  SFltb mn mx = true ->
  finite_SF (SFsub prec emax mx mn) = true ->
  SpecFloat.valid_binary prec emax (SFsub prec emax x mn) = true ->
  SpecFloat.valid_binary prec emax (SFsub prec emax mx mn) = true ->
  SpecFloat.valid_binary prec emax
    (SFdiv prec emax (SFsub prec emax x mn) (SFsub prec emax mx mn)) = true ->
  SFeqb x mx = true ->
  SFeqb (SFdiv prec emax (SFsub prec emax x mn) (SFsub prec emax mx mn)) (one_SF prec)
  = true.
Proof.
  intros Hvx Hvmn Hvmx Hfx Hfmn Hfmx Hspread Hrange Hvd Hvr Hvq Heq.
  destruct (SFeqb_leb x mx Hvx Hvmx Hfx Hfmx Heq) as [Hle Hge].
  assert (Hmn_mx : SFleb mn mx = true) by (apply SFltb_leb, Hspread).
  assert (Hlo : SFleb mn x = true) by (apply SFleb_trans with mx; assumption).
  assert (Hone : SFleb (SFdiv prec emax (SFsub prec emax x mn) (SFsub prec emax mx mn))
                       (one_SF prec) = true)
    by (apply rescaled_le_one; assumption).
  assert (Hvone : SpecFloat.valid_binary prec emax (one_SF prec) = true)
    by apply one_SF_bounded.
  assert (Hfq : finite_SF (SFdiv prec emax (SFsub prec emax x mn)
                             (SFsub prec emax mx mn)) = true).
  { apply nonneg_le_finite with (one_SF prec); [|reflexivity|exact Hone].
    apply rescaled_nonneg; assumption. }
  apply SFleb_antisym; try assumption; try reflexivity.
  destruct (range_positive mn mx Hvmn Hvmx Hfmn Hfmx Hspread Hrange) as (mr & er & Hr).
  rewrite <- (SFdiv_self mr er). rewrite <- Hr at 1.
  replace (S754_finite false mr er) with (SFsub prec emax mx mn) by exact Hr.
  apply rescaled_mono; assumption.
Qed.



End Rounding.

(* ================================================================= *)
(** ** The normalized scores *)

(** *** Binary64 *)

Lemma prec_pos : 0 < prec.
Proof. reflexivity. Qed.

Lemma prec_lt_emax : prec < emax.
Proof. reflexivity. Qed.

Lemma Prim2SF_zero : Prim2SF 0 = S754_zero false.
Proof. reflexivity. Qed.

Lemma Prim2SF_one : Prim2SF 1 = one_SF prec.
Proof. reflexivity. Qed.

Lemma valid_sub64 (x y : float) :
  SpecFloat.valid_binary prec emax (SFsub prec emax (Prim2SF x) (Prim2SF y)) = true.
Proof.
  change (SFsub prec emax (Prim2SF x) (Prim2SF y)) with (SF64sub (Prim2SF x) (Prim2SF y)).
  rewrite <- FloatAxioms.sub_spec. apply Prim2SF_valid.
Qed.

Lemma Prim2SF_rescale (s mn mx : float) :
  Prim2SF ((s - mn) / (mx - mn))
  = SFdiv prec emax (SFsub prec emax (Prim2SF s) (Prim2SF mn))
                    (SFsub prec emax (Prim2SF mx) (Prim2SF mn)).
Proof. rewrite FloatAxioms.div_spec, !FloatAxioms.sub_spec. reflexivity. Qed.

Lemma valid_rescale64 (s mn mx : float) :
  SpecFloat.valid_binary prec emax
    (SFdiv prec emax (SFsub prec emax (Prim2SF s) (Prim2SF mn))
                     (SFsub prec emax (Prim2SF mx) (Prim2SF mn))) = true.
Proof. rewrite <- Prim2SF_rescale. apply Prim2SF_valid. Qed.

(** The side conditions of the lemmas on rounding, for doubles. *)
Ltac binary64 :=
  try exact prec_pos; try exact prec_lt_emax; try apply Prim2SF_valid;
  try apply valid_sub64; try apply valid_rescale64; try assumption.

Lemma leb_of_not_ltb (x y : float) :
  finite64 x = true -> finite64 y = true -> (x <? y)%float = false -> (y <=? x)%float = true.
Proof.
  intros Hx Hy. rewrite FloatAxioms.ltb_spec, FloatAxioms.leb_spec.
  apply (SFleb_of_not_ltb prec emax); binary64.
Qed.

Lemma not_ltb_of_leb (x y : float) :
  (y <=? x)%float = true -> (x <? y)%float = false.
Proof.
  rewrite FloatAxioms.ltb_spec, FloatAxioms.leb_spec. intros Hle.
  destruct (SFltb (Prim2SF x) (Prim2SF y)) eqn:Hlt; [|reflexivity].
  exfalso. exact (SFltb_not_leb _ _ Hle Hlt).
Qed.

Section Rescale64.
Variables mn mx : float.
Hypothesis Hfmn : finite64 mn = true.
Hypothesis Hfmx : finite64 mx = true.
Hypothesis Hspread : (mn <? mx)%float = true.
Hypothesis Hrange : finite64 (mx - mn) = true.

Lemma rescale64_mono (s1 s2 : float) :
  finite64 s1 = true -> finite64 s2 = true ->
  (mn <=? s1)%float = true -> (s1 <=? s2)%float = true -> (s2 <=? mx)%float = true ->
  ((s1 - mn) / (mx - mn) <=? (s2 - mn) / (mx - mn))%float = true.
Proof.
  intros Hf1 Hf2 Hlo H12 Hhi.
  rewrite FloatAxioms.leb_spec in *. rewrite FloatAxioms.ltb_spec in Hspread.
  unfold finite64 in *. rewrite FloatAxioms.sub_spec in Hrange. rewrite !Prim2SF_rescale.
  apply (rescaled_mono prec emax); binary64.
Qed.

Lemma rescale64_range (s : float) :
  finite64 s = true -> (mn <=? s)%float = true -> (s <=? mx)%float = true ->
  (0 <=? (s - mn) / (mx - mn))%float = true /\ ((s - mn) / (mx - mn) <=? 1)%float = true.
Proof.
  intros Hf Hlo Hhi.
  rewrite !FloatAxioms.leb_spec in *. rewrite FloatAxioms.ltb_spec in Hspread.
  unfold finite64 in *. rewrite FloatAxioms.sub_spec in Hrange.
  rewrite !Prim2SF_rescale, Prim2SF_zero, Prim2SF_one. split.
  - apply SFleb_zero_nonneg.
    apply (rescaled_nonneg prec emax); binary64.
  - apply (rescaled_le_one prec emax); binary64.
Qed.

Lemma rescale64_min (s : float) :
  finite64 s = true -> (s =? mn)%float = true -> ((s - mn) / (mx - mn) =? 0)%float = true.
Proof.
  intros Hf Heq.
  rewrite FloatAxioms.eqb_spec in *. rewrite FloatAxioms.ltb_spec in Hspread.
  unfold finite64 in *. rewrite FloatAxioms.sub_spec in Hrange.
  rewrite Prim2SF_rescale, Prim2SF_zero.
  apply (rescaled_min prec emax); binary64.
Qed.

Lemma rescale64_max (s : float) :
  finite64 s = true -> (s =? mx)%float = true -> ((s - mn) / (mx - mn) =? 1)%float = true.
Proof.
  intros Hf Heq.
  rewrite FloatAxioms.eqb_spec in *. rewrite FloatAxioms.ltb_spec in Hspread.
  unfold finite64 in *. rewrite FloatAxioms.sub_spec in Hrange.
  rewrite Prim2SF_rescale, Prim2SF_one.
  apply (rescaled_max prec emax); binary64.
Qed.

(** The guarantees of the normalization of a list of numbers whose range
    does not overflow. *)
Lemma rescaled_scores64 (scores : EcScores64) :
  least64 mn scores -> greatest64 mx scores ->
  (forall p, In p scores -> finite64 (fst p) = true) ->
  in_unit_interval64 (map (rescale64 mn mx) scores)
  /\ keeps_order_weakly64 scores (map (rescale64 mn mx) scores)
  /\ (forall a, argmin64 a scores -> argmin64 a (map (rescale64 mn mx) scores))
  /\ (forall a, argmax64 a scores -> argmax64 a (map (rescale64 mn mx) scores))
  /\ ends_at_zero_and_one64 mn mx scores (map (rescale64 mn mx) scores).
Proof.
  intros [_ Hleast] [_ Hgreatest] Hfinite.
  assert (Hlo : forall p, In p scores -> (mn <=? fst p)%float = true).
  { intros p Hp. apply leb_of_not_ltb; auto. }
  assert (Hhi : forall p, In p scores -> (fst p <=? mx)%float = true).
  { intros p Hp. apply leb_of_not_ltb; auto. }
  assert (Hnth : forall i p r, nth_error scores i = Some p ->
                   nth_error (map (rescale64 mn mx) scores) i = Some r ->
                   In p scores /\ r = rescale64 mn mx p).
  { intros i p r Hp Hr. rewrite nth_error_map, Hp in Hr. cbn in Hr.
    split; [eapply nth_error_In; eassumption|congruence]. }
  split; [|split; [|split; [|split]]].
  - intros r Hr. apply in_map_iff in Hr. destruct Hr as (p & <- & Hp).
    cbn [rescale64 fst]. apply rescale64_range; auto.
  - intros i j p q r s Hp Hq Hr Hs Hpq.
    destruct (Hnth _ _ _ Hp Hr) as [Hinp ->]. destruct (Hnth _ _ _ Hq Hs) as [Hinq ->].
    cbn [rescale64 fst]. apply rescale64_mono; auto.
  - intros a (s & Hs & Hmin). exists (fst (rescale64 mn mx (s, a))). split.
    + apply (in_map (rescale64 mn mx)) in Hs. exact Hs.
    + intros q' Hq'. apply in_map_iff in Hq'. destruct Hq' as (q & <- & Hq).
      cbn [rescale64 fst]. apply not_ltb_of_leb.
      apply rescale64_mono; auto.
      * apply (Hfinite (s, a) Hs).
      * apply (Hlo (s, a) Hs).
      * apply leb_of_not_ltb; auto. apply (Hfinite (s, a) Hs).
  - intros a (s & Hs & Hmax). exists (fst (rescale64 mn mx (s, a))). split.
    + apply (in_map (rescale64 mn mx)) in Hs. exact Hs.
    + intros q' Hq'. apply in_map_iff in Hq'. destruct Hq' as (q & <- & Hq).
      cbn [rescale64 fst]. apply not_ltb_of_leb.
      apply rescale64_mono; auto.
      * apply (Hfinite (s, a) Hs).
      * apply leb_of_not_ltb; auto. apply (Hfinite (s, a) Hs).
      * apply (Hhi (s, a) Hs).
  - intros i p r Hp Hr. destruct (Hnth _ _ _ Hp Hr) as [Hinp ->].
    cbn [rescale64 fst]. split; intros Heq.
    + apply rescale64_min; auto.
    + apply rescale64_max; auto.
Qed.

End Rescale64.

(** *** The two normalizations *)

Lemma least64_finite (mn : float) (scores : EcScores64) :
  least64 mn scores -> (forall p, In p scores -> finite64 (fst p) = true) ->
  finite64 mn = true.
Proof. intros [(p & Hp & <-) _] Hfinite. apply Hfinite, Hp. Qed.

Lemma greatest64_finite (mx : float) (scores : EcScores64) :
  greatest64 mx scores -> (forall p, In p scores -> finite64 (fst p) = true) ->
  finite64 mx = true.
Proof. intros [(p & Hp & <-) _] Hfinite. apply Hfinite, Hp. Qed.

(** C5, amended: for every non-empty score list the minimum and maximum
    that the normalization works with are the least and the greatest score
    of the list.  When the minimum is strictly less than the maximum, the
    normalization of [ReadRandomJungleScores] and that of [RunReliefF]
    replace each score [s] by [(s - min) / (max - min)], the difference and
    the quotient each rounded to a double, and leave each entry its
    attribute name and its place in the list.  When moreover the scores are
    numbers (no infinity, no NaN) and the range [max - min] does not
    overflow, every normalized score lies in [0,1]; the order of two entries
    by score is never reversed (it is kept or becomes a tie); an attribute
    that held the minimum (the maximum) still holds it; and the entries that
    held the minimum and the maximum are normalized to 0 and to 1. *)
Theorem C5_normalization_rescales :
  (forall (firstScore : ScorePair64) (rest : EcScores64),
      let scores := firstScore :: rest in
      let mn := fst (minMaxRJScores64 scores 0 0%float 0%float) in
      let mx := snd (minMaxRJScores64 scores 0 0%float 0%float) in
      least64 mn scores /\ greatest64 mx scores
      /\ ((mn <? mx)%float = true ->
          ReadRandomJungleScores64 scores = map (rescale64 mn mx) scores
          /\ names64 (ReadRandomJungleScores64 scores) = names64 scores
          /\ (forall (i : nat) (s : float) (a : string),
                nth_error scores i = Some (s, a) ->
                nth_error (ReadRandomJungleScores64 scores) i
                = Some (((s - mn) / (mx - mn))%float, a))
          /\ ((forall p, In p scores -> finite64 (fst p) = true) ->
              finite64 (mx - mn) = true ->
              in_unit_interval64 (ReadRandomJungleScores64 scores)
              /\ keeps_order_weakly64 scores (ReadRandomJungleScores64 scores)
              /\ (forall a, argmin64 a scores ->
                            argmin64 a (ReadRandomJungleScores64 scores))
              /\ (forall a, argmax64 a scores ->
                            argmax64 a (ReadRandomJungleScores64 scores))
              /\ ends_at_zero_and_one64 mn mx scores (ReadRandomJungleScores64 scores))))
  /\ (forall (firstScore : ScorePair64) (rest : EcScores64),
         let scores := firstScore :: rest in
         let mn := fst (minMaxRFScores64 firstScore scores) in
         let mx := snd (minMaxRFScores64 firstScore scores) in
         least64 mn scores /\ greatest64 mx scores
         /\ ((mn <? mx)%float = true ->
             exists out : EcScores64,
               RunReliefF64 scores = Ret out
               /\ out = map (rescale64 mn mx) scores
               /\ names64 out = names64 scores
               /\ (forall (i : nat) (s : float) (a : string),
                     nth_error scores i = Some (s, a) ->
                     nth_error out i = Some (((s - mn) / (mx - mn))%float, a))
               /\ ((forall p, In p scores -> finite64 (fst p) = true) ->
                   finite64 (mx - mn) = true ->
                   in_unit_interval64 out
                   /\ keeps_order_weakly64 scores out
                   /\ (forall a, argmin64 a scores -> argmin64 a out)
                   /\ (forall a, argmax64 a scores -> argmax64 a out)
                   /\ ends_at_zero_and_one64 mn mx scores out))).
Proof.
  split.
  - intros firstScore rest scores mn mx.
    destruct (minMaxRJScores64_bounds firstScore rest) as [Hmin Hmax].
    split; [exact Hmin|]. split; [exact Hmax|].
    intros Hlt.
    assert (Hout : ReadRandomJungleScores64 scores = map (rescale64 mn mx) scores).
    { unfold ReadRandomJungleScores64.
      rewrite (surjective_pairing (minMaxRJScores64 scores 0 0%float 0%float)).
      fold mn mx. unfold normalizeRJScores64.
      rewrite (ltb_not_eqb mn mx Hlt). reflexivity. }
    rewrite Hout. split; [reflexivity|].
    split; [apply names64_rescale64|].
    split; [intros i s a; apply nth_error_rescale64|].
    intros Hfinite Hrange. apply rescaled_scores64; try assumption.
    + apply least64_finite with scores; assumption.
    + apply greatest64_finite with scores; assumption.
  - intros firstScore rest scores mn mx.
    destruct (minMaxRFScores64_bounds firstScore rest) as [Hmin Hmax].
    split; [exact Hmin|]. split; [exact Hmax|].
    intros Hlt. exists (map (rescale64 mn mx) scores).
    split.
    { unfold RunReliefF64, scores.
      rewrite (surjective_pairing (minMaxRFScores64 firstScore (firstScore :: rest))).
      fold scores mn mx. rewrite (ltb_not_eqb mn mx Hlt). reflexivity. }
    split; [reflexivity|].
    split; [apply names64_rescale64|].
    split; [intros i s a; apply nth_error_rescale64|].
    intros Hfinite Hrange. apply rescaled_scores64; try assumption.
    + apply least64_finite with scores; assumption.
    + apply greatest64_finite with scores; assumption.
Qed.

Lemma C5_close_scores_witness :
  (ReadRandomJungleScores64 closeScores64
   = [(0%float, "a"%string); (0.5%float, "b"%string); (0.5%float, "c"%string);
      (1%float, "d"%string)]
   /\ in_unit_interval64 (ReadRandomJungleScores64 closeScores64)
   /\ keeps_order_weakly64 closeScores64 (ReadRandomJungleScores64 closeScores64)
   /\ argmin64 "a" (ReadRandomJungleScores64 closeScores64)
   /\ argmax64 "d" (ReadRandomJungleScores64 closeScores64))
  /\ (exists out : EcScores64,
         RunReliefF64 closeScores64 = Ret out
         /\ out = [(0%float, "a"%string); (0.5%float, "b"%string);
                   (0.5%float, "c"%string); (1%float, "d"%string)]
         /\ in_unit_interval64 out
         /\ keeps_order_weakly64 closeScores64 out
         /\ argmin64 "a" out
         /\ argmax64 "d" out).
Proof.
  assert (Hfinite : forall p, In p closeScores64 -> finite64 (fst p) = true).
  { intros p [<-|[<-|[<-|[<-|[]]]]]; reflexivity. }
  assert (Hmin : argmin64 "a" closeScores64).
  { exists (-1)%float. split; [left; reflexivity|].
    intros q [<-|[<-|[<-|[<-|[]]]]]; reflexivity. }
  assert (Hmax : argmax64 "d" closeScores64).
  { exists 1%float. split; [right; right; right; left; reflexivity|].
    intros q [<-|[<-|[<-|[<-|[]]]]]; reflexivity. }
  split.
  - destruct (proj1 C5_normalization_rescales ((-1)%float, "a"%string)
                (tl closeScores64))
      as (_ & _ & Hspread).
    destruct (Hspread eq_refl) as (Hout & _ & _ & Hkeeps).
    destruct (Hkeeps Hfinite eq_refl) as (Hunit & Horder & Hargmin & Hargmax & _).
    split; [exact Hout|]. split; [exact Hunit|]. split; [exact Horder|].
    split; [exact (Hargmin _ Hmin)|exact (Hargmax _ Hmax)].
  - destruct (proj2 C5_normalization_rescales ((-1)%float, "a"%string)
                (tl closeScores64))
      as (_ & _ & Hspread).
    destruct (Hspread eq_refl) as (out & Hrun & Hout & _ & _ & Hkeeps).
    destruct (Hkeeps Hfinite eq_refl) as (Hunit & Horder & Hargmin & Hargmax & _).
    exists out. split; [exact Hrun|]. split; [exact Hout|]. split; [exact Hunit|].
    split; [exact Horder|]. split; [exact (Hargmin _ Hmin)|exact (Hargmax _ Hmax)].
Defined.

(** C5, as stated, fails in the arithmetic of the program.  Between -1 and
    1 the scores 1e-17 and 2e-17 are normalized to the same double, 0.5:
    their order is not preserved.  The score one step below the maximum 1
    is normalized to 1: its attribute joins the argmax.  Between 0 and
    1e300 the score 1e-30 is normalized to 0: its attribute joins the
    argmin.  And between -1.5e308 and 1.5e308 the range overflows and the
    maximum is normalized to NaN, which is not in [0,1]. *)
Lemma C5_rounding_merges_scores :
  (ReadRandomJungleScores64 closeScores64
   = [(0%float, "a"%string); (0.5%float, "b"%string); (0.5%float, "c"%string);
      (1%float, "d"%string)]
   /\ RunReliefF64 closeScores64 = Ret (ReadRandomJungleScores64 closeScores64)
   /\ ~ keeps_order64 closeScores64 (ReadRandomJungleScores64 closeScores64))
  /\ (ReadRandomJungleScores64 belowMaximum64
      = [(0%float, "a"%string); (1%float, "b"%string); (1%float, "c"%string)]
      /\ RunReliefF64 belowMaximum64 = Ret (ReadRandomJungleScores64 belowMaximum64)
      /\ ~ keeps_argmax64 belowMaximum64 (ReadRandomJungleScores64 belowMaximum64))
  /\ (ReadRandomJungleScores64 aboveMinimum64
      = [(0%float, "a"%string); (0%float, "b"%string); (1%float, "c"%string)]
      /\ RunReliefF64 aboveMinimum64 = Ret (ReadRandomJungleScores64 aboveMinimum64)
      /\ ~ keeps_argmin64 aboveMinimum64 (ReadRandomJungleScores64 aboveMinimum64))
  /\ (ReadRandomJungleScores64 wideScores64
      = [(0%float, "a"%string); (nan, "b"%string)]
      /\ RunReliefF64 wideScores64 = Ret (ReadRandomJungleScores64 wideScores64)
      /\ ~ in_unit_interval64 (ReadRandomJungleScores64 wideScores64)).
Proof.
  split; [|split; [|split]]; (split; [vm_compute; reflexivity|]);
    (split; [vm_compute; reflexivity|]).
  - intros Hkeeps.
    specialize (Hkeeps 1%nat 2%nat _ _ _ _ eq_refl eq_refl eq_refl eq_refl).
    destruct Hkeeps as [Hkeeps _].
    assert (Habs : false = true) by (apply Hkeeps; vm_compute; reflexivity).
    discriminate Habs.
  - intros Hkeeps. destruct (proj2 (Hkeeps "b"%string)) as (s & Hs & Hmax).
    + exists 1%float. split; [vm_compute; tauto|].
      intros q Hq. vm_compute in Hq.
      destruct Hq as [<-|[<-|[<-|[]]]]; vm_compute; reflexivity.
    + vm_compute in Hs. destruct Hs as [Hs|[Hs|[Hs|[]]]]; try discriminate Hs.
      injection Hs as <-.
      specialize (Hmax (1%float, "c"%string)).
      assert (Habs : true = false)
        by (rewrite <- Hmax; [vm_compute; reflexivity|vm_compute; tauto]).
      discriminate Habs.
  - intros Hkeeps. destruct (proj2 (Hkeeps "b"%string)) as (s & Hs & Hmin).
    + exists 0%float. split; [vm_compute; tauto|].
      intros q Hq. vm_compute in Hq.
      destruct Hq as [<-|[<-|[<-|[]]]]; vm_compute; reflexivity.
    + vm_compute in Hs. destruct Hs as [Hs|[Hs|[Hs|[]]]]; try discriminate Hs.
      injection Hs as <-.
      specialize (Hmin (0%float, "a"%string)).
      assert (Habs : true = false)
        by (rewrite <- Hmin; [vm_compute; reflexivity|vm_compute; tauto]).
      discriminate Habs.
  - intros Hunit. destruct (Hunit (nan, "b"%string)) as [Hlow _].
    + vm_compute. tauto.
    + vm_compute in Hlow. discriminate Hlow.
Qed.
